(** * India VIX calculator: a shallow embedding of [calculate_vix.py]

    The program computes a volatility index from two option chains held in
    pandas tables.  The embedding follows the source statement by statement:

    - a [numpy.float64] is an [fnum]: an exact rational, one of the two
      infinities, or not-a-number.  Rounding and the sign of zero are not
      modelled; every other rule of the arithmetic (what divides by zero,
      what an undefined operand does to a result, what a comparison with an
      undefined operand answers) is written out.  Where a statement turns on
      the last bit of a value, the correction of the mids is given a second
      time in binary64 itself (module [Binary64]);
    - a [pandas.DataFrame] with the default row labels [0 .. n-1] is a
      record of its row count and a finite map from column names to columns;
    - the functions of the source mutate the table they are given and may
      raise: they live in a state-and-exception monad over the table;
    - [numpy.exp] and [numpy.sqrt] are not rational functions: they are
      parameters of the development. *)

From Stdlib Require Import QArith Qabs Qfield Lqa ZArith Lia List Floats.
From stdpp Require Import gmap strings list fin_maps.

Local Open Scope Q_scope.

(** ** Numbers *)

Inductive fnum : Type :=
| Fin (q : Q)
| PInf
| NInf
| NaN.

Definition Qlt_bool (a b : Q) : bool := negb (Qle_bool b a).

Definition fadd (a b : fnum) : fnum :=
  match a, b with
  | NaN, _ | _, NaN => NaN
  | Fin x, Fin y => Fin (x + y)
  | PInf, NInf | NInf, PInf => NaN
  | PInf, _ | _, PInf => PInf
  | NInf, _ | _, NInf => NInf
  end.

Definition fsub (a b : fnum) : fnum :=
  match a, b with
  | NaN, _ | _, NaN => NaN
  | Fin x, Fin y => Fin (x - y)
  | PInf, PInf | NInf, NInf => NaN
  | PInf, _ | _, NInf => PInf
  | NInf, _ | _, PInf => NInf
  end.

(** The infinity of the sign of [q]; zero times an infinity is undefined. *)
Definition signed_inf (q : Q) (pos neg : fnum) : fnum :=
  if Qeq_bool q 0 then NaN else if Qlt_bool 0 q then pos else neg.

Definition fmul (a b : fnum) : fnum :=
  match a, b with
  | NaN, _ | _, NaN => NaN
  | Fin x, Fin y => Fin (x * y)
  | Fin x, PInf | PInf, Fin x => signed_inf x PInf NInf
  | Fin x, NInf | NInf, Fin x => signed_inf x NInf PInf
  | PInf, PInf | NInf, NInf => PInf
  | PInf, NInf | NInf, PInf => NInf
  end.

(** numpy's division: a finite value over zero is an infinity of the sign of
    the numerator (a warning, no exception), zero over zero is undefined. *)
Definition fdiv (a b : fnum) : fnum :=
  match a, b with
  | NaN, _ | _, NaN => NaN
  | Fin x, Fin y =>
      if Qeq_bool y 0 then signed_inf x PInf NInf else Fin (x / y)
  | Fin _, PInf | Fin _, NInf => Fin 0
  | PInf, Fin y => if Qle_bool 0 y then PInf else NInf
  | NInf, Fin y => if Qle_bool 0 y then NInf else PInf
  | PInf, PInf | PInf, NInf | NInf, PInf | NInf, NInf => NaN
  end.

Definition fabs (a : fnum) : fnum :=
  match a with
  | Fin q => Fin (Qabs q)
  | PInf | NInf => PInf
  | NaN => NaN
  end.

(** Comparisons answer [false] as soon as one side is undefined. *)
Definition fle (a b : fnum) : bool :=
  match a, b with
  | NaN, _ | _, NaN => false
  | Fin x, Fin y => Qle_bool x y
  | NInf, _ | _, PInf => true
  | _, _ => false
  end.

Definition flt (a b : fnum) : bool :=
  match a, b with
  | NaN, _ | _, NaN => false
  | Fin x, Fin y => Qlt_bool x y
  | PInf, _ | _, NInf => false
  | _, _ => true
  end.

Definition fge (a b : fnum) : bool := fle b a.
Definition fgt (a b : fnum) : bool := flt b a.

Definition is_nan (a : fnum) : bool :=
  match a with NaN => true | _ => false end.

Definition is_finite (a : fnum) : bool :=
  match a with Fin _ => true | _ => false end.

(** The order numpy sorts and searches with: as [flt], but an undefined value
    is larger than everything else. *)
Definition np_lt (a b : fnum) : bool :=
  flt a b || (is_nan b && negb (is_nan a)).

(** Equality of numbers: equality of the rationals they denote. *)
Definition feq (a b : fnum) : Prop :=
  match a, b with
  | Fin x, Fin y => x == y
  | PInf, PInf | NInf, NInf | NaN, NaN => True
  | _, _ => False
  end.

(** ** Exceptions and tables *)

Inductive exn : Type :=
| KeyError_column (c : string)   (* [df[c]]: the table has no column [c] *)
| KeyError_row (i : Z)           (* [df.loc[i, _]]: no row is labelled [i] *)
| ValueError (msg : string)
| ZeroDivisionError.

Inductive result (A : Type) : Type :=
| Returned (a : A)
| Raised (e : exn).
Arguments Returned {A} a.
Arguments Raised {A} e.

(** A table with the default row labels [0 .. nrows-1]. *)
Record DataFrame : Type := mkDataFrame {
  nrows : nat;
  cols : gmap string (list fnum)
}.

(** ** The monad: a mutable state [S] and exceptions *)

Definition M (S A : Type) : Type := S -> S * result A.

Definition ret {S A} (a : A) : M S A := fun s => (s, Returned a).

Definition bind {S A B} (m : M S A) (k : A -> M S B) : M S B :=
  fun s =>
    match m s with
    | (s', Returned a) => k a s'
    | (s', Raised e) => (s', Raised e)
    end.

Notation "x <- m ;; k" := (bind m (fun x => k))
  (at level 100, m at next level, right associativity).
Notation "m ;; k" := (bind m (fun _ => k))
  (at level 100, right associativity).

Definition lift {S A} (r : result A) : M S A := fun s => (s, r).

Definition get_state {S} : M S S := fun s => (s, Returned s).

(** Run a computation on the first, or the second, of two objects. *)
Definition on_fst {S1 S2 A} (m : M S1 A) : M (S1 * S2) A :=
  fun s => let (s1, r) := m (fst s) in ((s1, snd s), r).

Definition on_snd {S1 S2 A} (m : M S2 A) : M (S1 * S2) A :=
  fun s => let (s2, r) := m (snd s) in ((fst s, s2), r).

(** ** pandas *)

(** [d[c]] for a table value [d]. *)
Definition col_of (d : DataFrame) (c : string) : result (list fnum) :=
  match cols d !! c with
  | Some s => Returned s
  | None => Raised (KeyError_column c)
  end.

(** [df[c]] *)
Definition col (c : string) : M DataFrame (list fnum) :=
  fun df => (df, col_of df c).

(** [df[c] = v] for a column [v]; pandas refuses a column of another length. *)
Definition set_col (c : string) (v : list fnum) : M DataFrame unit :=
  fun df =>
    if Nat.eqb (length v) (nrows df)
    then (mkDataFrame (nrows df) (<[c := v]> (cols df)), Returned tt)
    else (df, Raised (ValueError "Length of values does not match length of index")).

(** [df[c] = x] for a scalar [x]: one copy per row. *)
Definition set_col_scalar (c : string) (x : fnum) : M DataFrame unit :=
  fun df => (mkDataFrame (nrows df) (<[c := replicate (nrows df) x]> (cols df)),
             Returned tt).

(** [d.loc[i, c]] for a table value [d]: the row is looked up by label. *)
Definition loc_of (d : DataFrame) (i : Z) (c : string) : result fnum :=
  match cols d !! c with
  | None => Raised (KeyError_column c)
  | Some s =>
      if (i <? 0)%Z then Raised (KeyError_row i)
      else match s !! Z.to_nat i with
           | Some x => Returned x
           | None => Raised (KeyError_row i)
           end
  end.

(** [df.loc[i, c]] *)
Definition loc (i : Z) (c : string) : M DataFrame fnum :=
  fun df => (df, loc_of df i c).

(** [df.loc[i, c] = x] at a label [i] of the table.  (At a label the table
    does not have, pandas would add a row; the source reads the same label
    just before each such write, and that read raises.) *)
Definition set_loc (i : Z) (c : string) (x : fnum) : M DataFrame unit :=
  fun df =>
    match cols df !! c with
    | None => (df, Raised (KeyError_column c))
    | Some s =>
        if (i <? 0)%Z then (df, Raised (KeyError_row i))
        else (mkDataFrame (nrows df) (<[c := <[Z.to_nat i := x]> s]> (cols df)),
              Returned tt)
    end.

(** [len(df)] *)
Definition len : M DataFrame Z := fun df => (df, Returned (Z.of_nat (nrows df))).

(** Element-wise operations on columns of one table. *)
Definition sadd (a b : list fnum) : list fnum := zip_with fadd a b.
Definition ssub (a b : list fnum) : list fnum := zip_with fsub a b.
Definition smul (a b : list fnum) : list fnum := zip_with fmul a b.
Definition sdiv (a b : list fnum) : list fnum := zip_with fdiv a b.
Definition sdiv_scalar (a : list fnum) (x : fnum) : list fnum :=
  map (fun y => fdiv y x) a.
Definition smul_scalar (a : list fnum) (x : fnum) : list fnum :=
  map (fun y => fmul y x) a.
Definition sabs (a : list fnum) : list fnum := map fabs a.

(** [s.diff()]: each entry minus the one before it; the first is undefined. *)
Definition diff (s : list fnum) : list fnum :=
  match s with
  | [] => []
  | _ :: t => NaN :: zip_with fsub t s
  end.

(** [s.diff(-1)]: each entry minus the one after it; the last is undefined. *)
Fixpoint diff_back (s : list fnum) : list fnum :=
  match s with
  | [] => []
  | a :: t =>
      match t with
      | [] => [NaN]
      | b :: _ => fsub a b :: diff_back t
      end
  end.

(** [np.where(c, a, b)] *)
Fixpoint np_where (c : list bool) (a b : list fnum) : list fnum :=
  match c, a, b with
  | ci :: c', ai :: a', bi :: b' => (if ci then ai else bi) :: np_where c' a' b'
  | _, _, _ => []
  end.

(** [s.sum()]: pandas leaves the undefined entries out ([skipna=True] is the
    default), and the sum of nothing is zero. *)
Definition sum (s : list fnum) : fnum :=
  foldr fadd (Fin 0) (filter (fun x => is_nan x = false) s).

(** [mask.sum()] for a column of booleans. *)
Definition count_true (mask : list bool) : nat :=
  length (filter (fun b => b = true) mask).

(** Boolean indexing: the entries of [s] where [mask] is true. *)
Fixpoint select {A} (mask : list bool) (s : list A) : list A :=
  match mask, s with
  | m :: mask', a :: s' => if m then a :: select mask' s' else select mask' s'
  | _, _ => []
  end.

(** [df[mask]]: a new table of the selected rows. *)
Definition filter_rows (mask : list bool) (df : DataFrame) : DataFrame :=
  mkDataFrame (count_true mask) (select mask <$> cols df).

(** [d.loc[mask, c]] for a table value [d]. *)
Definition loc_mask (d : DataFrame) (mask : list bool) (c : string)
  : result (list fnum) :=
  match cols d !! c with
  | Some s => Returned (select mask s)
  | None => Raised (KeyError_column c)
  end.

(** [s.searchsorted(v)]: numpy's bisection for the leftmost insertion point. *)
Fixpoint bisect_left (fuel : nat) (a : list fnum) (v : fnum) (lo hi : nat) : nat :=
  match fuel with
  | O => lo
  | S fuel' =>
      if (lo <? hi)%nat then
        let mid := (lo + (hi - lo) / 2)%nat in
        if np_lt (nth mid a NaN) v
        then bisect_left fuel' a v (S mid) hi
        else bisect_left fuel' a v lo mid
      else lo
  end.

Definition searchsorted (a : list fnum) (v : fnum) : nat :=
  bisect_left (length a) a v 0 (length a).

(** ** scipy's [CubicSpline(x, y, bc_type="natural", extrapolate=False)] *)

(** A piecewise cubic: the breakpoints [x_0 < ... < x_{m-1}] and, for each of
    the [m-1] intervals, the coefficients [(c0, c1, c2, c3)] of
    [c0*d^3 + c1*d^2 + c2*d + c3] in [d = x - x_i]. *)
Record PPoly : Type := mkPPoly {
  ppoly_x : list Q;
  ppoly_c : list (Q * Q * Q * Q)
}.

(** [np.diff] *)
Fixpoint np_diff (x : list Q) : list Q :=
  match x with
  | [] => []
  | a :: t =>
      match t with
      | [] => []
      | b :: _ => (b - a) :: np_diff t
      end
  end.

Fixpoint finite_values (l : list fnum) : option (list Q) :=
  match l with
  | [] => Some []
  | Fin q :: t =>
      match finite_values t with
      | Some qs => Some (q :: qs)
      | None => None
      end
  | _ :: _ => None
  end.

(** A row of the tridiagonal system for the slopes at the knots:
    [(lower, diagonal, upper, right-hand side)]. *)
Definition tri_row : Type := (Q * Q * Q * Q)%type.

Fixpoint interior_rows (dx slope : list Q) : list tri_row :=
  match dx, slope with
  | h0 :: dx', m0 :: slope' =>
      match dx', slope' with
      | h1 :: _, m1 :: _ =>
          (h1, 2 * (h0 + h1), h0, 3 * (h1 * m0 + h0 * m1))
            :: interior_rows dx' slope'
      | _, _ => []
      end
  | _, _ => []
  end.

(** The system with both end conditions "second derivative zero". *)
Definition natural_system (dx slope y : list Q) : list tri_row :=
  let h0 := hd 0 dx in
  let hl := List.last dx 0 in
  let y0 := nth 0 y 0 in
  let y1 := nth 1 y 0 in
  let n := length y in
  (0, 2 * h0, h0, 3 * (y1 - y0))
    :: interior_rows dx slope
    ++ [(hl, 2 * hl, 0, 3 * (nth (n - 1) y 0 - nth (n - 2) y 0))].

(** [solve_banded((1, 1), A, b)]: the solution of the tridiagonal system, by
    elimination down the rows and substitution back up. *)
Fixpoint eliminate (rows : list tri_row) (cp bp : Q) : list (Q * Q) :=
  match rows with
  | [] => []
  | (l, d, u, b) :: rest =>
      let den := d - l * cp in
      let c := u / den in
      let b' := (b - l * bp) / den in
      (c, b') :: eliminate rest c b'
  end.

Fixpoint substitute (cb : list (Q * Q)) : list Q :=
  match cb with
  | [] => []
  | (c, b) :: rest =>
      let s := substitute rest in
      (b - c * hd 0 s) :: s
  end.

Definition solve_banded (rows : list tri_row) : list Q :=
  substitute (eliminate rows 0 0).

(** The coefficients of the Hermite cubic on each interval, from the values
    [y] and the slopes [s] at the knots. *)
Fixpoint hermite_coefficients (dx slope s y : list Q) : list (Q * Q * Q * Q) :=
  match dx, slope, s, y with
  | h :: dx', m :: slope', s0 :: s', y0 :: y' =>
      match s' with
      | s1 :: _ =>
          let t := (s0 + s1 - 2 * m) / h in
          (t / h, (m - s0) / h - t, s0, y0)
            :: hermite_coefficients dx' slope' s' y'
      | [] => []
      end
  | _, _, _, _ => []
  end.

Fixpoint strictly_increasing (x : list Q) : bool :=
  match x with
  | [] => true
  | a :: t =>
      match t with
      | [] => true
      | b :: _ => Qlt_bool a b && strictly_increasing t
      end
  end.

Definition CubicSpline (x y : list fnum) : result PPoly :=
  if (length x <? 2)%nat then
    Raised (ValueError "`x` must contain at least 2 elements.")
  else if negb (Nat.eqb (length x) (length y)) then
    Raised (ValueError "The length of `y` along `axis`=0 doesn't match the length of `x`")
  else
    match finite_values x with
    | None => Raised (ValueError "`x` must contain only finite values.")
    | Some xs =>
        match finite_values y with
        | None => Raised (ValueError "`y` must contain only finite values.")
        | Some ys =>
            if negb (strictly_increasing xs) then
              Raised (ValueError "`x` must be strictly increasing sequence.")
            else
              let dx := np_diff xs in
              let slope := zip_with Qdiv (np_diff ys) dx in
              let s := solve_banded (natural_system dx slope ys) in
              Returned (mkPPoly xs (hermite_coefficients dx slope s ys))
        end
    end.

(** The interval a point of the fitted range is evaluated in: the [i] with
    [x_i <= q < x_{i+1}], and the last interval at the last breakpoint. *)
Fixpoint find_interval (x : list Q) (q : Q) : nat :=
  match x with
  | _ :: t =>
      match t with
      | b :: _ :: _ => if Qlt_bool q b then O else S (find_interval t q)
      | _ => O
      end
  | [] => O
  end.

Definition eval_cubic (c : Q * Q * Q * Q) (d : Q) : Q :=
  let '(c0, c1, c2, c3) := c in
  c3 + c2 * d + c1 * (d * d) + c0 * (d * d * d).

(** The value of the piecewise cubic at a point of its range. *)
Definition ppoly_value (p : PPoly) (q : Q) : Q :=
  let i := find_interval (ppoly_x p) q in
  eval_cubic (nth i (ppoly_c p) (0, 0, 0, 0)) (q - nth i (ppoly_x p) 0).

(** Calling the spline: undefined outside [[x_0, x_{m-1}]] (no
    extrapolation) and at an undefined or infinite argument. *)
Definition ppoly_call (p : PPoly) (v : fnum) : fnum :=
  match v with
  | Fin q =>
      if Qlt_bool q (hd 0 (ppoly_x p)) || Qlt_bool (List.last (ppoly_x p) 0) q
      then NaN
      else Fin (ppoly_value p q)
  | _ => NaN
  end.

(** ** The program *)

Definition MINUTES_IN_A_YEAR : Z := 525600.
Definition MINUTES_IN_30_DAYS : Z := 43200.

(** Python's [a / b] on two [int]s. *)
Definition py_truediv (a b : Z) : result Q :=
  if (b =? 0)%Z then Raised ZeroDivisionError
  else Returned (inject_Z a / inject_Z b).

(** One side of [cubic_spline_correction]: lines 85-95 for the calls, and the
    same text with the put names, lines 96-106, for the puts.  [side_df] is
    the side's table, [spread_c] and [mid_c] the side's columns. *)
Definition correct_side (side_df : DataFrame) (spread_c mid_c : string)
  : M DataFrame unit :=
  spread <- lift (col_of side_df spread_c);;
  let knot_points_idx := map (fun s => fle s (Fin (3 # 10))) spread in
  if (3 <=? count_true knot_points_idx)%nat then
    x <- lift (loc_mask side_df knot_points_idx "Strike");;
    y <- lift (loc_mask side_df knot_points_idx mid_c);;
    cs <- lift (CubicSpline x y);;
    strike <- col "Strike";;
    set_col mid_c (map (ppoly_call cs) strike)
  else
    set_col_scalar mid_c NaN.

(** Lines 80-81: the strike just below where the futures price would be
    inserted. *)
Definition atm_strike (fut_price : Q) : M DataFrame fnum :=
  strike <- col "Strike";;
  let atm_index := (Z.of_nat (searchsorted strike (Fin fut_price)) - 1)%Z in
  loc atm_index "Strike".

Definition cubic_spline_correction (fut_price : Q) : M DataFrame fnum :=
  atm <- atm_strike fut_price;;
  df <- get_state;;
  strike <- col "Strike";;
  let call_df := filter_rows (map (fun k => fge k atm) strike) df in
  strike <- col "Strike";;
  let put_df := filter_rows (map (fun k => fle k atm) strike) df in
  correct_side call_df "Call Spread" "Call Mid";;
  correct_side put_df "Put Spread" "Put Mid";;
  ret atm.

(** Lines 49-52: the mid prices and the relative spreads. *)
Definition mids_and_spreads : M DataFrame unit :=
  call_ask <- col "Call Ask";;
  call_bid <- col "Call Bid";;
  set_col "Call Mid" (sdiv_scalar (sadd call_ask call_bid) (Fin 2));;
  put_ask <- col "Put Ask";;
  put_bid <- col "Put Bid";;
  set_col "Put Mid" (sdiv_scalar (sadd put_ask put_bid) (Fin 2));;
  call_ask <- col "Call Ask";;
  call_bid <- col "Call Bid";;
  call_mid <- col "Call Mid";;
  set_col "Call Spread" (sdiv (ssub call_ask call_bid) call_mid);;
  put_ask <- col "Put Ask";;
  put_bid <- col "Put Bid";;
  put_mid <- col "Put Mid";;
  set_col "Put Spread" (sdiv (ssub put_ask put_bid) put_mid).

(** Lines 55-63: the price each row contributes. *)
Definition contribution_price (atm : fnum) : M DataFrame unit :=
  strike <- col "Strike";;
  put_mid <- col "Put Mid";;
  strike' <- col "Strike";;
  call_mid <- col "Call Mid";;
  put_mid' <- col "Put Mid";;
  call_mid' <- col "Call Mid";;
  set_col "Q"
    (np_where (map (fun k => flt k atm) strike) put_mid
       (np_where (map (fun k => fgt k atm) strike') call_mid
          (sdiv_scalar (sadd put_mid' call_mid') (Fin 2)))).

(** Lines 64-68: the strike spacing. *)
Definition strike_spacing : M DataFrame unit :=
  strike <- col "Strike";;
  set_col "diff_K_upper" (sabs (diff strike));;
  strike <- col "Strike";;
  set_col "diff_K_lower" (sabs (diff_back strike));;
  lower <- col "diff_K_lower";;
  upper <- col "diff_K_upper";;
  set_col "delta_K" (sdiv_scalar (sadd lower upper) (Fin 2));;
  first <- loc 0 "diff_K_lower";;
  set_loc 0 "delta_K" first;;
  n <- len;;
  last <- loc (n - 1) "diff_K_upper";;
  n <- len;;
  set_loc (n - 1) "delta_K" last.

Section Program.

(** [numpy.exp] and [numpy.sqrt] on finite arguments. *)
Variable exp : Q -> Q.
Variable sqrt : Q -> Q.

Definition np_sqrt (a : fnum) : fnum :=
  match a with
  | Fin q => if Qlt_bool q 0 then NaN else Fin (sqrt q)
  | PInf => PInf
  | NInf | NaN => NaN
  end.

Definition compute_sigma (mte : Z) (fut ir : Q) : M DataFrame fnum :=
  mids_and_spreads;;
  atm <- cubic_spline_correction fut;;
  contribution_price atm;;
  strike_spacing;;
  T <- lift (py_truediv mte MINUTES_IN_A_YEAR);;
  delta_K <- col "delta_K";;
  strike <- col "Strike";;
  strike' <- col "Strike";;
  q <- col "Q";;
  set_col "contribution"
    (smul (smul_scalar (sdiv delta_K (smul strike strike')) (Fin (exp (ir * T)))) q);;
  contribution <- col "contribution";;
  let sigma :=
    fdiv (fsub (fmul (Fin 2) (sum contribution))
               (let r := fsub (fdiv (Fin fut) atm) (Fin 1) in fmul r r))
         (Fin T) in
  ret sigma.

(** The scalar entries of [data]; the two tables [data["option_chain_1"]]
    and [data["option_chain_2"]] are the two objects of the state. *)
Record Data : Type := mkData {
  mte_1 : Z;
  mte_2 : Z;
  fut_1 : Q;
  fut_2 : Q;
  ir_1 : Q;
  ir_2 : Q
}.

Definition weight_1 (mte_1 mte_2 : Z) : result Q :=
  py_truediv (mte_2 - MINUTES_IN_30_DAYS) (mte_2 - mte_1).

Definition weight_2 (mte_1 mte_2 : Z) : result Q :=
  py_truediv (MINUTES_IN_30_DAYS - mte_1) (mte_2 - mte_1).

Definition vix_calculator (data : Data) : M (DataFrame * DataFrame) fnum :=
  sigma_1 <- on_fst (compute_sigma (mte_1 data) (fut_1 data) (ir_1 data));;
  sigma_2 <- on_snd (compute_sigma (mte_2 data) (fut_2 data) (ir_2 data));;
  T_1 <- lift (py_truediv (mte_1 data) MINUTES_IN_A_YEAR);;
  T_2 <- lift (py_truediv (mte_2 data) MINUTES_IN_A_YEAR);;
  scale <- lift (py_truediv MINUTES_IN_A_YEAR MINUTES_IN_30_DAYS);;
  w_1 <- lift (weight_1 (mte_1 data) (mte_2 data));;
  w_2 <- lift (weight_2 (mte_1 data) (mte_2 data));;
  let sigma :=
    np_sqrt (fmul (Fin scale)
               (fadd (fmul (fmul (Fin T_1) sigma_1) (Fin w_1))
                     (fmul (fmul (Fin T_2) sigma_2) (Fin w_2)))) in
  let vix := fmul (Fin 100) sigma in
  ret vix.

End Program.

(** ** The specification's words, for comparison with the code *)

(** The rational a finite number denotes. *)
Definition value (a : fnum) : Q :=
  match a with Fin q => q | _ => 0 end.

Definition Qsum (l : list Q) : Q := foldr Qplus 0 l.

(** "The largest strike strictly less than the futures price." *)
Definition spec_atm (ks : list Q) (fut : Q) : Q :=
  List.last (filter (fun k => Qlt_bool k fut = true) ks) 0.

(** "The midpoint between the distance to the previous strike and the
    distance to the next strike"; the first row has the distance to the next
    strike only, the last row the distance to the previous strike only. *)
Definition spec_delta_K (ks : list Q) (i : nat) : Q :=
  let K j := nth j ks 0 in
  if Nat.eqb i 0 then K 1%nat - K 0%nat
  else if Nat.eqb i (length ks - 1) then K i - K (i - 1)%nat
  else (Qabs (K i - K (i - 1)%nat) + Qabs (K (S i) - K i)) / 2.

(** "For strike < ATM, Q = put mid; for strike > ATM, Q = call mid; for
    strike == ATM, Q = average of put mid and call mid." *)
Definition spec_Q (atm k : Q) (put_mid call_mid : fnum) : Q :=
  if Qlt_bool k atm then value put_mid
  else if Qlt_bool atm k then value call_mid
  else (value put_mid + value call_mid) / 2.

(** The corrected mids that [spec_Q] reads at a row are defined. *)
Definition price_defined (atm k : Q) (put_mid call_mid : fnum) : bool :=
  if Qlt_bool k atm then is_finite put_mid
  else if Qlt_bool atm k then is_finite call_mid
  else is_finite put_mid && is_finite call_mid.

Definition prices_defined (atm : Q) (ks : list Q) (put_mid call_mid : list fnum)
  : bool :=
  forallb (fun i => price_defined atm (nth i ks 0)
                      (nth i put_mid NaN) (nth i call_mid NaN))
          (seq 0 (length ks)).

Section Specification.

Variable exp : Q -> Q.

(** "Variance = (2 * sum(contribution) - (futures_price/ATM_strike - 1)^2) / T"
    with "contribution = (delta_K / strike^2) * exp(risk_free_rate * T) * Q"
    and "T = minutes / 525600". *)
Definition spec_variance (ks : list Q) (put_mid call_mid : list fnum)
    (mte : Z) (fut ir : Q) : Q :=
  let T := inject_Z mte / 525600 in
  let atm := spec_atm ks fut in
  let contribution i :=
    spec_delta_K ks i / (nth i ks 0 * nth i ks 0) * exp (ir * T)
    * spec_Q atm (nth i ks 0) (nth i put_mid NaN) (nth i call_mid NaN) in
  (2 * Qsum (map contribution (seq 0 (length ks)))
   - (fut / atm - 1) * (fut / atm - 1)) / T.

End Specification.

(** An option chain as the program expects it: the strikes [ks], all finite,
    and the four quote columns, one entry per row. *)
Definition has_column (df : DataFrame) (c : string) : Prop :=
  exists s, cols df !! c = Some s /\ length s = nrows df.

Definition option_chain (df : DataFrame) (ks : list Q) : Prop :=
  cols df !! "Strike" = Some (map Fin ks) /\ length ks = nrows df /\
  has_column df "Call Bid" /\ has_column df "Call Ask" /\
  has_column df "Put Bid" /\ has_column df "Put Ask".

(** The columns the program adds to the table it is given. *)
Definition derived_columns : list string :=
  ["Call Mid"; "Put Mid"; "Call Spread"; "Put Spread"; "Q";
   "diff_K_upper"; "diff_K_lower"; "delta_K"; "contribution"].

(** ** What the program computes, in closed form

    The columns and values the statements above produce, written as
    functions of the columns they read.  The proofs show that running the
    program gives exactly these. *)

(** The mid prices and the spread ratios of lines 49-52. *)
Definition mid_column (ask bid : list fnum) : list fnum :=
  sdiv_scalar (sadd ask bid) (Fin 2).

Definition spread_column (ask bid : list fnum) : list fnum :=
  sdiv (ssub ask bid) (mid_column ask bid).

(** The rows of the call side and of the put side (lines 82-83). *)
Definition call_side (atm : fnum) (strike : list fnum) : list bool :=
  map (fun k => fge k atm) strike.

Definition put_side (atm : fnum) (strike : list fnum) : list bool :=
  map (fun k => fle k atm) strike.

(** The rows of a side that become knots: those with a spread ratio of at
    most 0.3. *)
Definition knot_mask (side : list bool) (spread : list fnum) : list bool :=
  map (fun s => fle s (Fin (3 # 10))) (select side spread).

(** What [correct_side] writes into the side's mid column. *)
Definition corrected (side : list bool) (strike spread mid : list fnum)
  : result (list fnum) :=
  let knots := knot_mask side spread in
  if (3 <=? count_true knots)%nat then
    match CubicSpline (select knots (select side strike))
                      (select knots (select side mid)) with
    | Returned cs => Returned (map (ppoly_call cs) strike)
    | Raised e => Raised e
    end
  else Returned (replicate (length strike) NaN).

(** The spline [CubicSpline] builds from finite knots. *)
Definition natural_spline (xs ys : list Q) : PPoly :=
  let dx := np_diff xs in
  let slope := zip_with Qdiv (np_diff ys) dx in
  mkPPoly xs (hermite_coefficients dx slope
                (solve_banded (natural_system dx slope ys)) ys).

(** Inside the fitted range: between the first and the last knot. *)
Definition in_range (xs : list Q) (q : Q) : bool :=
  negb (Qlt_bool q (hd 0 xs) || Qlt_bool (List.last xs 0) q).

(** A spread ratio of at most 0.3 comes with a finite mid. *)
Definition clean_is_finite (spread mid : fnum) : Prop :=
  fle spread (Fin (3 # 10)) = true -> is_finite mid = true.

(** Finite or undefined: never an infinity. *)
Definition finite_or_nan (a : fnum) : Prop :=
  match a with Fin _ | NaN => True | _ => False end.

(** The column [Q] of lines 55-63. *)
Definition price_column (atm : fnum) (strike put_mid call_mid : list fnum)
  : list fnum :=
  np_where (map (fun k => flt k atm) strike) put_mid
    (np_where (map (fun k => fgt k atm) strike) call_mid
       (sdiv_scalar (sadd put_mid call_mid) (Fin 2))).

(** The column [delta_K] of lines 64-68. *)
Definition spacing_column (strike : list fnum) : list fnum :=
  let upper := sabs (diff strike) in
  let lower := sabs (diff_back strike) in
  <[(length strike - 1)%nat := nth (length strike - 1) upper NaN]>
    (<[0%nat := nth 0 lower NaN]> (sdiv_scalar (sadd lower upper) (Fin 2))).

(** [T] of line 69. *)
Definition year_fraction (mte : Z) : Q :=
  inject_Z mte / inject_Z MINUTES_IN_A_YEAR.

(** The value of line 73. *)
Definition sigma_value (contribution : list fnum) (fut : Q) (atm : fnum) (T : Q)
  : fnum :=
  fdiv (fsub (fmul (Fin 2) (sum contribution))
             (let r := fsub (fdiv (Fin fut) atm) (Fin 1) in fmul r r))
       (Fin T).

Section ClosedForms.

Variable exp : Q -> Q.
Variable sqrt : Q -> Q.

(** The column [contribution] of lines 70-72. *)
Definition contribution_column (strike delta_K q : list fnum) (ir T : Q)
: list fnum :=
smul (smul_scalar (sdiv delta_K (smul strike strike)) (Fin (exp (ir * T)))) q.

(** The table [compute_sigma] leaves behind when it returns: the table it
  was given with nine columns added or replaced. *)
Definition final_frame (df : DataFrame) (strike ca cb pa pb cm pm : list fnum)
  (atm : fnum) (ir T : Q) : DataFrame :=
let q := price_column atm strike pm cm in
mkDataFrame (nrows df)
  (<["contribution" :=
       contribution_column strike (spacing_column strike) q ir T]>
  (<["delta_K" := spacing_column strike]>
  (<["diff_K_lower" := sabs (diff_back strike)]>
  (<["diff_K_upper" := sabs (diff strike)]>
  (<["Q" := q]>
  (<["Put Mid" := pm]>
  (<["Call Mid" := cm]>
  (<["Put Spread" := spread_column pa pb]>
  (<["Call Spread" := spread_column ca cb]>
  (<["Put Mid" := mid_column pa pb]>
  (<["Call Mid" := mid_column ca cb]> (cols df)))))))))))).

(** The contribution the specification gives row [i]. *)
Definition spec_contribution (ks : list Q) (pm cm : list fnum)
  (atm ir T : Q) (i : nat) : Q :=
spec_delta_K ks i / (nth i ks 0 * nth i ks 0) * exp (ir * T)
* spec_Q atm (nth i ks 0) (nth i pm NaN) (nth i cm NaN).

(** The value of lines 37-44 from the two variances, when the two times to
  expiry differ. *)
Definition blend (data : Data) (sigma_1 sigma_2 : fnum) : fnum :=
let T_1 := year_fraction (mte_1 data) in
let T_2 := year_fraction (mte_2 data) in
let scale := inject_Z MINUTES_IN_A_YEAR / inject_Z MINUTES_IN_30_DAYS in
let w_1 := inject_Z (mte_2 data - MINUTES_IN_30_DAYS)
           / inject_Z (mte_2 data - mte_1 data) in
let w_2 := inject_Z (MINUTES_IN_30_DAYS - mte_1 data)
           / inject_Z (mte_2 data - mte_1 data) in
fmul (Fin 100)
  (np_sqrt sqrt
     (fmul (Fin scale)
        (fadd (fmul (fmul (Fin T_1) sigma_1) (Fin w_1))
              (fmul (fmul (Fin T_2) sigma_2) (Fin w_2))))).

End ClosedForms.

(** ** Frames: what a computation leaves unchanged *)

(** Whatever it answers, [m] takes a state to an [R]-related state. *)
Definition keeps {S A} (R : S -> S -> Prop) (m : M S A) : Prop :=
  forall s, R s (fst (m s)).

(** The second table is the first one up to the columns [names]. *)
Definition same_outside (names : list string) (df df' : DataFrame) : Prop :=
  nrows df' = nrows df /\
  forall c, ~ In c names -> cols df' !! c = cols df !! c.

(** Both tables keep everything but the derived columns. *)
Definition both_same_outside (s s' : DataFrame * DataFrame) : Prop :=
  same_outside derived_columns (fst s) (fst s') /\
  same_outside derived_columns (snd s) (snd s').

(** ** Reading a table, and what the claims say of a corrected column *)

(** The column [c] of a table; empty when the table has none. *)
Definition column (df : DataFrame) (c : string) : list fnum :=
  default [] (cols df !! c).

(** The five columns the caller provides. *)
Definition quote_columns : list string :=
  ["Strike"; "Call Bid"; "Call Ask"; "Put Bid"; "Put Ask"].

(** "The spline evaluation at its strike": the cubic
    [c3 + c2 d + c1 d^2 + c0 d^3] of a piece, at the distance [d] from the
    piece's left knot. *)
Definition spec_cubic (c : Q * Q * Q * Q) (d : Q) : Q :=
  let '(c0, c1, c2, c3) := c in
  c3 + c2 * d + c1 * d ^ 2 + c0 * d ^ 3.

(** A side's corrected mids [new_mid], when the side has its three knots:
    the knots [xs], [ys] are finite with [xs] increasing and [CubicSpline]
    accepts them; the spline has one cubic piece per interval of
    neighbouring knots, and the piece of an interval starts at the mid of
    its left knot; a row of strike [k] gets the undefined value when [k] is
    outside [[min xs, max xs]], and inside it gets the value at [k] of the
    piece whose interval holds [k]: the piece to the right of a knot at that
    knot, the last piece at the last knot. *)
Definition spline_or_undefined (side : list bool)
    (strike spread mid new_mid : list fnum) : Prop :=
  exists xs ys,
    select (knot_mask side spread) (select side strike) = map Fin xs /\
    select (knot_mask side spread) (select side mid) = map Fin ys /\
    strictly_increasing xs = true /\
    CubicSpline (map Fin xs) (map Fin ys) = Returned (natural_spline xs ys) /\
    let pieces := ppoly_c (natural_spline xs ys) in
    let n := length xs in
    length pieces = (n - 1)%nat /\
    (forall j, (j < n - 1)%nat ->
       exists c0 c1 c2, nth j pieces (0, 0, 0, 0) = (c0, c1, c2, nth j ys 0)) /\
    forall (i : nat) (k : Q), strike !! i = Some (Fin k) ->
      (k < hd 0 xs \/ List.last xs 0 < k -> new_mid !! i = Some NaN) /\
      (hd 0 xs <= k /\ k <= List.last xs 0 ->
       exists (j : nat) (v : Q),
         (j < n - 1)%nat /\ nth j xs 0 <= k /\
         (k < nth (S j) xs 0 \/ S j = (n - 1)%nat) /\
         new_mid !! i = Some (Fin v) /\
         v == spec_cubic (nth j pieces (0, 0, 0, 0)) (k - nth j xs 0)).


(** ** Example inputs *)

Definition strikes_5 : list Q := [100; 110; 120; 130; 140].

(** Five strikes around a futures price of 125, every quote within the 0.3
    spread ratio. *)
Definition liquid_chain : DataFrame :=
  mkDataFrame 5
    (list_to_map
       [("Strike", map Fin strikes_5);
        ("Call Bid", map Fin [30; 21; 13; 7; 3]);
        ("Call Ask", map Fin [32; 23; 15; 8; 4]);
        ("Put Bid", map Fin [4; 6; 9; 14; 22]);
        ("Put Ask", map Fin [5; 7; 10; 16; 24])]).

(** The same strikes with a wide put quote at the lowest strike (spread ratio
    0.4): only two reliable puts at or below the strike 120. *)
Definition thin_put_chain : DataFrame :=
  mkDataFrame 5
    (list_to_map
       [("Strike", map Fin strikes_5);
        ("Call Bid", map Fin [30; 21; 13; 7; 3]);
        ("Call Ask", map Fin [32; 23; 15; 8; 4]);
        ("Put Bid", map Fin [2; 4; 8; 14; 22]);
        ("Put Ask", map Fin [3; 5; 9; 16; 24])]).


(** Six strikes around a futures price of 125; the call quote at the strike
    130 is too wide (spread ratio 0.5), so that row lies between two knots
    of the call side without being one. *)
Definition gap_chain : DataFrame :=
  mkDataFrame 6
    (list_to_map
       [("Strike", map Fin [100; 110; 120; 130; 140; 150]);
        ("Call Bid", map Fin [30; 21; 13; 6; 3; 7 # 4]);
        ("Call Ask", map Fin [32; 23; 15; 10; 4; 2]);
        ("Put Bid", map Fin [4; 6; 9; 14; 22; 31]);
        ("Put Ask", map Fin [5; 7; 10; 16; 24; 33])]).

(** [gap_chain] after lines 49-52. *)
Definition priced_gap_chain : DataFrame := fst (mids_and_spreads gap_chain).

(** Times to expiry on both sides of 30 days, as in the repository's test. *)
Definition bracketing_data : Data :=
  mkData 12960 53280 125 125 (39 # 1000) (465 # 10000).

(** Both expiries later than 30 days. *)
Definition late_data : Data :=
  mkData 50000 60000 125 125 (39 # 1000) (465 # 10000).

(** The same time to expiry twice. *)
Definition equal_data : Data :=
  mkData 12960 12960 125 125 (39 # 1000) (465 # 10000).

(** ** The correction in binary64

    [numpy.float64] is IEEE 754 binary64, which Rocq's primitive floats are.
    The definitions below are lines 49-52 and 80-95 once more, on columns of
    such numbers, each operation rounding as the hardware does and in the
    order the source, numpy, scipy and LAPACK perform them.  They serve the
    one question the exact rationals cannot answer: whether a value is
    reproduced to the last bit. *)

Module Binary64.

Local Open Scope float_scope.

(** Lines 49 and 51. *)
Definition mid_column (ask bid : list float) : list float :=
  map (fun s => s / 2) (zip_with PrimFloat.add ask bid).

Definition spread_column (ask bid : list float) : list float :=
  zip_with PrimFloat.div (zip_with PrimFloat.sub ask bid) (mid_column ask bid).

(** numpy's order for searching: an undefined value is larger than
    everything else. *)
Definition np_lt (a b : float) : bool :=
  (a <? b) || (PrimFloat.is_nan b && negb (PrimFloat.is_nan a)).

Fixpoint bisect_left (fuel : nat) (a : list float) (v : float) (lo hi : nat)
  : nat :=
  match fuel with
  | O => lo
  | S fuel' =>
      if (lo <? hi)%nat then
        let mid := (lo + (hi - lo) / 2)%nat in
        if np_lt (nth mid a nan) v
        then bisect_left fuel' a v (S mid) hi
        else bisect_left fuel' a v lo mid
      else lo
  end.

Definition searchsorted (a : list float) (v : float) : nat :=
  bisect_left (length a) a v 0 (length a).

(** Lines 80-81. *)
Definition atm_strike (strike : list float) (fut_price : float) : result float :=
  let atm_index := (Z.of_nat (searchsorted strike fut_price) - 1)%Z in
  if (atm_index <? 0)%Z then Raised (KeyError_row atm_index)
  else match strike !! Z.to_nat atm_index with
       | Some k => Returned k
       | None => Raised (KeyError_row atm_index)
       end.

(** Lines 82-83 and 85. *)
Definition call_side (atm : float) (strike : list float) : list bool :=
  map (fun k => atm <=? k) strike.

Definition put_side (atm : float) (strike : list float) : list bool :=
  map (fun k => k <=? atm) strike.

(** The double nearest to 0.3. *)
Definition three_tenths : float := 0x1.3333333333333p-2.

Definition knot_mask (side : list bool) (spread : list float) : list bool :=
  map (fun s => s <=? three_tenths) (select side spread).

(** scipy's [CubicSpline], in binary64. *)

Record PPoly : Type := mkPPoly {
  ppoly_x : list float;
  ppoly_c : list (float * float * float * float)
}.

Fixpoint np_diff (x : list float) : list float :=
  match x with
  | [] => []
  | a :: t =>
      match t with
      | [] => []
      | b :: _ => (b - a) :: np_diff t
      end
  end.

(** A row of the system: [(lower, diagonal, upper, right-hand side)]. *)
Definition tri_row : Type := (float * float * float * float)%type.

Fixpoint interior_rows (dx slope : list float) : list tri_row :=
  match dx, slope with
  | h0 :: dx', m0 :: slope' =>
      match dx', slope' with
      | h1 :: _, m1 :: _ =>
          (h1, 2 * (h0 + h1), h0, 3 * (h1 * m0 + h0 * m1))
            :: interior_rows dx' slope'
      | _, _ => []
      end
  | _, _ => []
  end.

(** Both end conditions are "second derivative [0.0]"; scipy writes the
    right-hand sides [-0.5 * 0.0 * dx[0]**2 + 3 * (y[1] - y[0])] and
    [0.5 * 0.0 * dx[-1]**2 + 3 * (y[-1] - y[-2])]. *)
Definition natural_system (dx slope y : list float) : list tri_row :=
  let h0 := hd 0 dx in
  let hl := List.last dx 0 in
  let n := length y in
  (0, 2 * h0, h0, -0.5 * 0 * (h0 * h0) + 3 * (nth 1 y 0 - nth 0 y 0))
    :: interior_rows dx slope
    ++ [(hl, 2 * hl, 0,
         0.5 * 0 * (hl * hl) + 3 * (nth (n - 1) y 0 - nth (n - 2) y 0))].

(** LAPACK's [dgtsv], which [solve_banded((1, 1), A, b)] calls: elimination
    with a row interchange where the entry below the diagonal is the larger
    one.  [factor d du b rows] takes the current row (its diagonal, its upper
    entry and its right-hand side, as the steps before left them) and the
    rows below it, and gives for each row [(D, DU, DL, B)] as the back
    substitution reads them, [DL] being the second entry above the diagonal
    that an interchange fills in; [None] is [INFO > 0], a zero pivot. *)
Fixpoint factor (d du b : float) (rows : list tri_row)
  : option (list (float * float * float * float)) :=
  match rows with
  | [] => if d =? 0 then None else Some [(d, du, 0, b)]
  | (dl, d1, du1, b1) :: rest =>
      if PrimFloat.abs dl <=? PrimFloat.abs d then
        if d =? 0 then None
        else
          let fact := dl / d in
          match factor (d1 - fact * du) du1 (b1 - fact * b) rest with
          | Some out => Some ((d, du, 0, b) :: out)
          | None => None
          end
      else
        let fact := d / dl in
        match rest with
        | [] =>
            match factor (du - fact * d1) du1 (b - fact * b1) rest with
            | Some out => Some ((dl, d1, 0, b1) :: out)
            | None => None
            end
        | _ :: _ =>
            match factor (du - fact * d1) (- fact * du1) (b - fact * b1) rest with
            | Some out => Some ((dl, d1, du1, b1) :: out)
            | None => None
            end
        end
  end.

Fixpoint back_solve (rows : list (float * float * float * float)) : list float :=
  match rows with
  | [] => []
  | (d, du, dl, b) :: rest =>
      let x := back_solve rest in
      match x with
      | [] => [b / d]
      | [x1] => (b - du * x1) / d :: x
      | x1 :: x2 :: _ => (b - du * x1 - dl * x2) / d :: x
      end
  end.

Definition solve_banded (rows : list tri_row) : option (list float) :=
  match rows with
  | [] => Some []
  | (_, d, du, b) :: rest =>
      match factor d du b rest with
      | Some out => Some (back_solve out)
      | None => None
      end
  end.

Fixpoint hermite_coefficients (dx slope s y : list float)
  : list (float * float * float * float) :=
  match dx, slope, s, y with
  | h :: dx', m :: slope', s0 :: s', y0 :: y' =>
      match s' with
      | s1 :: _ =>
          let t := (s0 + s1 - 2 * m) / h in
          (t / h, (m - s0) / h - t, s0, y0)
            :: hermite_coefficients dx' slope' s' y'
      | [] => []
      end
  | _, _, _, _ => []
  end.

Definition CubicSpline (x y : list float) : result PPoly :=
  if (length x <? 2)%nat then
    Raised (ValueError "`x` must contain at least 2 elements.")
  else if negb (Nat.eqb (length x) (length y)) then
    Raised (ValueError "The length of `y` along `axis`=0 doesn't match the length of `x`")
  else if negb (forallb PrimFloat.is_finite x) then
    Raised (ValueError "`x` must contain only finite values.")
  else if negb (forallb PrimFloat.is_finite y) then
    Raised (ValueError "`y` must contain only finite values.")
  else
    let dx := np_diff x in
    if existsb (fun h => h <=? 0) dx then
      Raised (ValueError "`x` must be strictly increasing sequence.")
    else
      let slope := zip_with PrimFloat.div (np_diff y) dx in
      match solve_banded (natural_system dx slope y) with
      | Some s => Returned (mkPPoly x (hermite_coefficients dx slope s y))
      | None => Raised (ValueError "singular matrix")
      end.

(** The interval a point of the fitted range is evaluated in; the last one
    at the last breakpoint. *)
Fixpoint find_interval (x : list float) (q : float) : nat :=
  match x with
  | _ :: t =>
      match t with
      | b :: _ :: _ => if q <? b then O else S (find_interval t q)
      | _ => O
      end
  | [] => O
  end.

(** scipy's [evaluate_poly1]: the powers of [d] by repeated multiplication,
    the terms added from the constant one upwards. *)
Definition eval_cubic (c : float * float * float * float) (d : float) : float :=
  let '(c0, c1, c2, c3) := c in
  c3 + c2 * d + c1 * (d * d) + c0 * (d * d * d).

Definition ppoly_call (p : PPoly) (v : float) : float :=
  if (hd 0 (ppoly_x p) <=? v) && (v <=? List.last (ppoly_x p) 0) then
    let i := find_interval (ppoly_x p) v in
    eval_cubic (nth i (ppoly_c p) (0, 0, 0, 0)) (v - nth i (ppoly_x p) 0)
  else nan.

(** Lines 85-95 for the calls, 96-106 for the puts: what the side's mid
    column becomes. *)
Definition corrected (side : list bool) (strike spread mid : list float)
  : result (list float) :=
  let knots := knot_mask side spread in
  if (3 <=? count_true knots)%nat then
    match CubicSpline (select knots (select side strike))
                      (select knots (select side mid)) with
    | Returned cs => Returned (map (ppoly_call cs) strike)
    | Raised e => Raised e
    end
  else Returned (replicate (length strike) nan).

End Binary64.

(** ** Further example inputs and quantities *)


(** A chain of one row. *)
Definition single_row_chain : DataFrame :=
  mkDataFrame 1
    (list_to_map
       [("Strike", [Fin 120]);
        ("Call Bid", [Fin 13]); ("Call Ask", [Fin 15]);
        ("Put Bid", [Fin 9]); ("Put Ask", [Fin 10])]).

(** The quantity under the square root of lines 37-43, for finite variances
    and two different times to expiry. *)
Definition blended_variance (data : Data) (v_1 v_2 : Q) : Q :=
  let T_1 := year_fraction (mte_1 data) in
  let T_2 := year_fraction (mte_2 data) in
  let scale := inject_Z MINUTES_IN_A_YEAR / inject_Z MINUTES_IN_30_DAYS in
  let w_1 := inject_Z (mte_2 data - MINUTES_IN_30_DAYS)
             / inject_Z (mte_2 data - mte_1 data) in
  let w_2 := inject_Z (MINUTES_IN_30_DAYS - mte_1 data)
             / inject_Z (mte_2 data - mte_1 data) in
  scale * (T_1 * v_1 * w_1 + T_2 * v_2 * w_2).

(** [liquid_chain] with a column the program never reads and a stale
    [Call Mid] column. *)
Definition annotated_chain : DataFrame :=
  mkDataFrame 5
    (<["Call Mid" := replicate 5 NaN]>
       (<["Volume" := map Fin [1; 2; 3; 4; 5]]> (cols liquid_chain))).

(** [liquid_chain] with other call quotes below the strike 120 and other put
    quotes above it. *)
Definition far_side_chain : DataFrame :=
  mkDataFrame 5
    (list_to_map
       [("Strike", map Fin strikes_5);
        ("Call Bid", [NaN; Fin 1; Fin 13; Fin 7; Fin 3]);
        ("Call Ask", [NaN; Fin 90; Fin 15; Fin 8; Fin 4]);
        ("Put Bid", [Fin 4; Fin 6; Fin 9; Fin 1; NaN]);
        ("Put Ask", [Fin 5; Fin 7; Fin 10; Fin 50; NaN])]).

(** A chain that lists the strike 120 twice. *)
Definition repeated_strike_chain : DataFrame :=
  mkDataFrame 5
    (list_to_map
       [("Strike", map Fin [100; 120; 120; 130; 140]);
        ("Call Bid", map Fin [30; 13; 13; 7; 3]);
        ("Call Ask", map Fin [32; 15; 15; 8; 4]);
        ("Put Bid", map Fin [4; 9; 9; 14; 22]);
        ("Put Ask", map Fin [5; 10; 10; 16; 24])]).




(** ** The conditions that define the natural spline *)

(** The first and the second derivative of a cubic piece, as [eval_cubic]
    gives its value. *)
Definition cubic_slope (c : Q * Q * Q * Q) (d : Q) : Q :=
  let '(c0, c1, c2, _) := c in
  c2 + 2 * c1 * d + 3 * c0 * (d * d).

Definition cubic_curvature (c : Q * Q * Q * Q) (d : Q) : Q :=
  let '(c0, c1, _, _) := c in
  2 * c1 + 6 * c0 * d.

(** [s] solves the tridiagonal system [rows]; [prev] is the unknown before
    the first one, and the unknown after the last one is zero. *)
Fixpoint solves (rows : list tri_row) (prev : Q) (s : list Q) : Prop :=
  match rows, s with
  | [], [] => True
  | (l, d, u, b) :: rows', s0 :: s' =>
      l * prev + d * s0 + u * hd 0 s' == b /\ solves rows' s0 s'
  | _, _ => False
  end.

(** No division of [eliminate] is by zero. *)
Fixpoint pivots_nonzero (rows : list tri_row) (cp : Q) : Prop :=
  match rows with
  | [] => True
  | (l, d, u, _) :: rest =>
      ~ d - l * cp == 0 /\ pivots_nonzero rest (u / (d - l * cp))
  end.

(** A row of the system of a natural spline: the diagonal is twice the sum
    of its neighbours. *)
Definition dominant (r : tri_row) : Prop :=
  let '(l, d, u, _) := r in
  0 <= l /\ 0 <= u /\ 0 < l + u /\ d == 2 * (l + u).

(** A row that the constant vector [m] satisfies. *)
Definition constant_row (m : Q) (r : tri_row) : Prop :=
  let '(l, d, u, b) := r in b == (l + d + u) * m.

(** * Proofs *)

(** ** Order on the rationals, as the code tests it *)

Lemma Qlt_bool_iff a b : Qlt_bool a b = true <-> a < b.
Proof.
  unfold Qlt_bool. rewrite negb_true_iff.
  split; intros H.
  - apply Qnot_le_lt. intros Hle. apply Qle_bool_iff in Hle. congruence.
  - destruct (Qle_bool b a) eqn:E; [|done]. apply Qle_bool_iff in E. lra.
Qed.

Lemma Qlt_bool_false a b : Qlt_bool a b = false <-> b <= a.
Proof.
  unfold Qlt_bool. rewrite negb_false_iff. apply Qle_bool_iff.
Qed.

Lemma Qle_bool_false a b : Qle_bool a b = false <-> b < a.
Proof.
  rewrite <- Qlt_bool_iff. unfold Qlt_bool. by rewrite negb_true_iff.
Qed.

Lemma Qeq_bool_false a b : Qeq_bool a b = false <-> ~ a == b.
Proof.
  split.
  - intros H. by apply Qeq_bool_neq.
  - intros H. destruct (Qeq_bool a b) eqn:E; [|done]. apply Qeq_bool_iff in E. done.
Qed.

(** Sortedness *)
Lemma strictly_increasing_cons a l :
  strictly_increasing (a :: l) = true ->
  strictly_increasing l = true /\ Forall (fun b => a < b) l.
Proof.
  revert a. induction l as [|b l IH]; intros a H; [by split|].
  simpl in H. apply andb_true_iff in H as [Hab Hl].
  apply Qlt_bool_iff in Hab.
  split; [exact Hl|].
  constructor; [exact Hab|].
  destruct (IH b Hl) as [_ Hall].
  eapply Forall_impl; [exact Hall|]. simpl. intros c Hc. lra.
Qed.

Lemma strictly_increasing_nth ks i j :
  strictly_increasing ks = true -> (i < j)%nat -> (j < length ks)%nat ->
  nth i ks 0 < nth j ks 0.
Proof.
  revert i j. induction ks as [|a l IH]; intros i j H Hij Hj; simpl in Hj; [lia|].
  apply strictly_increasing_cons in H as [Hl Hall].
  destruct j as [|j]; [lia|]. destruct i as [|i]; simpl.
  - rewrite Forall_forall in Hall. apply Hall. apply list_elem_of_In, nth_In. lia.
  - apply IH; [done|lia|lia].
Qed.

Lemma strictly_increasing_nth_le ks i j :
  strictly_increasing ks = true -> (i <= j)%nat -> (j < length ks)%nat ->
  nth i ks 0 <= nth j ks 0.
Proof.
  intros H Hij Hj. destruct (decide (i = j)) as [->|Hne]; [lra|].
  apply Qlt_le_weak, strictly_increasing_nth; [done|lia|done].
Qed.

(** ** [searchsorted] on increasing finite strikes *)

Lemma nth_map_Fin ks i :
  (i < length ks)%nat -> nth i (map Fin ks) NaN = Fin (nth i ks 0).
Proof.
  revert i. induction ks as [|a l IH]; intros i Hi; simpl in Hi; [lia|].
  destruct i as [|i]; simpl; [done|]. apply IH. lia.
Qed.

Lemma np_lt_Fin a b : np_lt (Fin a) (Fin b) = Qlt_bool a b.
Proof. unfold np_lt. simpl. by rewrite orb_false_r. Qed.

(** The bisection keeps its invariant: everything left of [lo] is below [v],
    everything from [hi] on is not. *)
Lemma bisect_left_spec ks v fuel lo hi :
  strictly_increasing ks = true ->
  (lo <= hi)%nat -> (hi <= length ks)%nat -> (hi - lo <= fuel)%nat ->
  (forall i, (i < lo)%nat -> nth i ks 0 < v) ->
  (forall i, (hi <= i)%nat -> (i < length ks)%nat -> v <= nth i ks 0) ->
  let r := bisect_left fuel (map Fin ks) (Fin v) lo hi in
  (lo <= r)%nat /\ (r <= hi)%nat /\
  (forall i, (i < r)%nat -> nth i ks 0 < v) /\
  (forall i, (r <= i)%nat -> (i < length ks)%nat -> v <= nth i ks 0).
Proof.
  intros Hs. revert lo hi.
  induction fuel as [|fuel IH]; intros lo hi Hlh Hhn Hf Hlo Hhi;
    cbn [bisect_left]; cbv zeta.
  - assert (lo = hi) as -> by lia. repeat split; auto.
  - destruct (lo <? hi)%nat eqn:E.
    + apply Nat.ltb_lt in E.
      set (mid := (lo + (hi - lo) / 2)%nat).
      assert (lo <= mid < hi)%nat as Hmid.
      { unfold mid. split; [lia|].
        assert ((hi - lo) / 2 < hi - lo)%nat by (apply Nat.div_lt; lia). lia. }
      rewrite nth_map_Fin by lia. rewrite np_lt_Fin.
      destruct (Qlt_bool (nth mid ks 0) v) eqn:Ev.
      * apply Qlt_bool_iff in Ev.
        destruct (IH (S mid) hi) as (H1 & H2 & H3 & H4); try lia; auto.
        { intros i Hi. 
          assert (nth i ks 0 <= nth mid ks 0)
            by (apply strictly_increasing_nth_le; [done|lia|lia]).
          lra. }
        split; [lia|]. split; [lia|]. split; assumption.
      * apply Qlt_bool_false in Ev.
        destruct (IH lo mid) as (H1 & H2 & H3 & H4); try lia; auto.
        { intros i Hi Hn.
          assert (nth mid ks 0 <= nth i ks 0)
            by (apply strictly_increasing_nth_le; [done|lia|lia]).
          lra. }
        split; [lia|]. split; [lia|]. split; assumption.
    + apply Nat.ltb_ge in E. assert (lo = hi) as -> by lia.
      repeat split; auto.
Qed.

Lemma searchsorted_spec ks v :
  strictly_increasing ks = true ->
  let r := searchsorted (map Fin ks) (Fin v) in
  (r <= length ks)%nat /\
  (forall i, (i < r)%nat -> nth i ks 0 < v) /\
  (forall i, (r <= i)%nat -> (i < length ks)%nat -> v <= nth i ks 0).
Proof.
  intros Hs. unfold searchsorted. rewrite length_map.
  destruct (bisect_left_spec ks v (length ks) 0 (length ks)) as (_ & H2 & H3 & H4);
    try done; try lia.
Qed.

Lemma filter_below_take (P : Q -> Prop) `{!forall k, Decision (P k)} ks r :
  (r <= length ks)%nat ->
  (forall i, (i < r)%nat -> P (nth i ks 0)) ->
  (forall i, (r <= i)%nat -> (i < length ks)%nat -> ~ P (nth i ks 0)) ->
  filter P ks = take r ks.
Proof.
  revert r. induction ks as [|a l IH]; intros r Hr Hlo Hhi.
  - by destruct r.
  - destruct r as [|r]; simpl in Hr.
    + rewrite filter_cons_False by (apply (Hhi 0%nat); simpl; lia).
      rewrite (IH 0%nat); [by destruct l|lia|intros; lia|].
      intros i _ Hi. apply (Hhi (S i)); simpl; lia.
    + rewrite filter_cons_True by (apply (Hlo 0%nat); lia).
      simpl. f_equal. apply IH; [lia| |].
      * intros i Hi. apply (Hlo (S i)). lia.
      * intros i Hi Hn. apply (Hhi (S i)); simpl; lia.
Qed.

Lemma last_take_S (ks : list Q) r :
  (r < length ks)%nat -> List.last (take (S r) ks) 0 = nth r ks 0.
Proof.
  revert ks. induction r as [|r IH]; intros [|a l] Hr; simpl in Hr; try lia.
  - by destruct l.
  - destruct l as [|b l]; simpl in Hr; [lia|].
    change (List.last (a :: b :: take r l) 0 = nth r (b :: l) 0).
    rewrite <- (IH (b :: l)) by (simpl; lia). done.
Qed.

Lemma last_take_nth (ks : list Q) r :
  (0 < r)%nat -> (r <= length ks)%nat ->
  List.last (take r ks) 0 = nth (r - 1) ks 0.
Proof.
  intros H0 Hr. destruct r as [|r]; [lia|].
  rewrite last_take_S by lia. f_equal. lia.
Qed.

(** The position [searchsorted] answers, on increasing strikes with the first
    below the futures price, and the strike just before it. *)
Lemma searchsorted_atm ks fut :
  strictly_increasing ks = true -> (0 < length ks)%nat -> nth 0 ks 0 < fut ->
  let r := searchsorted (map Fin ks) (Fin fut) in
  (0 < r)%nat /\ (r <= length ks)%nat /\ spec_atm ks fut = nth (r - 1) ks 0.
Proof.
  intros Hs Hn H0 r.
  destruct (searchsorted_spec ks fut Hs) as (Hr & Hlo & Hhi). fold r in Hr, Hlo, Hhi.
  assert (0 < r)%nat as Hpos.
  { destruct (decide (r = 0)%nat) as [E|]; [|lia].
    specialize (Hhi 0%nat). rewrite E in Hhi. specialize (Hhi (Nat.le_refl _) Hn). lra. }
  split; [done|]. split; [done|].
  unfold spec_atm. rewrite (filter_below_take _ ks r); [|done| |].
  - by apply last_take_nth.
  - intros i Hi. apply Qlt_bool_iff. by apply Hlo.
  - intros i Hi Hi'. rewrite Qlt_bool_iff. specialize (Hhi i Hi Hi'). lra.
Qed.

(** ** Running the monad *)

Lemma bind_returned {S A B} (m : M S A) (k : A -> M S B) s s' a :
  m s = (s', Returned a) -> (x <- m;; k x) s = k a s'.
Proof. intros H. unfold bind. by rewrite H. Qed.

Lemma bind_raised {S A B} (m : M S A) (k : A -> M S B) s s' e :
  m s = (s', Raised e) -> (x <- m;; k x) s = (s', Raised e).
Proof. intros H. unfold bind. by rewrite H. Qed.

Lemma bind_inv {S A B} (m : M S A) (k : A -> M S B) s s' b :
  (x <- m;; k x) s = (s', Returned b) ->
  exists s1 a, m s = (s1, Returned a) /\ k a s1 = (s', Returned b).
Proof.
  unfold bind. destruct (m s) as [s1 [a|e]]; intros H; [eauto|done].
Qed.

Lemma col_run df c s :
  cols df !! c = Some s -> col c df = (df, Returned s).
Proof. intros H. unfold col, col_of. by rewrite H. Qed.

Lemma set_col_run df c v :
  length v = nrows df ->
  set_col c v df = (mkDataFrame (nrows df) (<[c := v]> (cols df)), Returned tt).
Proof. intros H. unfold set_col. by rewrite H, Nat.eqb_refl. Qed.

Lemma lookup_map_Fin ks (i : nat) :
  (i < length ks)%nat -> map Fin ks !! i = Some (Fin (nth i ks 0)).
Proof.
  revert i. induction ks as [|a l IH]; intros i Hi; simpl in Hi; [lia|].
  destruct i as [|i]; simpl; [done|]. apply IH. lia.
Qed.

Lemma atm_strike_run df ks fut :
  cols df !! "Strike" = Some (map Fin ks) ->
  strictly_increasing ks = true -> (0 < length ks)%nat -> nth 0 ks 0 < fut ->
  atm_strike fut df = (df, Returned (Fin (spec_atm ks fut))).
Proof.
  intros Hk Hs Hn H0. unfold atm_strike.
  rewrite (bind_returned _ _ _ _ _ (col_run _ _ _ Hk)).
  destruct (searchsorted_atm ks fut Hs Hn H0) as (Hpos & Hr & ->).
  set (r := searchsorted (map Fin ks) (Fin fut)) in *.
  unfold loc, loc_of. rewrite Hk.
  destruct (Z.of_nat r - 1 <? 0)%Z eqn:E; [apply Z.ltb_lt in E; lia|].
  replace (Z.to_nat (Z.of_nat r - 1)) with (r - 1)%nat by lia.
  by rewrite lookup_map_Fin by lia.
Qed.

Lemma atm_strike_raises df ks fut :
  cols df !! "Strike" = Some (map Fin ks) ->
  strictly_increasing ks = true -> fut <= nth 0 ks 0 ->
  atm_strike fut df = (df, Raised (KeyError_row (-1))).
Proof.
  intros Hk Hs H0. unfold atm_strike.
  rewrite (bind_returned _ _ _ _ _ (col_run _ _ _ Hk)).
  destruct (searchsorted_spec ks fut Hs) as (Hr & Hlo & Hhi).
  set (r := searchsorted (map Fin ks) (Fin fut)) in *.
  assert (r = 0%nat) as ->.
  { destruct r as [|r]; [done|]. specialize (Hlo 0%nat). 
    assert (nth 0 ks 0 < fut) by (apply Hlo; lia). lra. }
  unfold loc, loc_of. by rewrite Hk.
Qed.

Lemma lookup_nth {A} (l : list A) (i : nat) d :
  (i < length l)%nat -> l !! i = Some (nth i l d).
Proof.
  revert i. induction l as [|a l IH]; intros i Hi; simpl in Hi; [lia|].
  destruct i as [|i]; simpl; [done|]. apply IH. lia.
Qed.

Lemma loc_run df (i : nat) c s :
  cols df !! c = Some s -> (i < length s)%nat ->
  loc (Z.of_nat i) c df = (df, Returned (nth i s NaN)).
Proof.
  intros H Hi. unfold loc, loc_of. rewrite H.
  destruct (Z.of_nat i <? 0)%Z eqn:E; [apply Z.ltb_lt in E; lia|].
  by rewrite Nat2Z.id, (lookup_nth _ _ NaN).
Qed.

Lemma set_loc_run df (i : nat) c s x :
  cols df !! c = Some s ->
  set_loc (Z.of_nat i) c x df
  = (mkDataFrame (nrows df) (<[c := <[i := x]> s]> (cols df)), Returned tt).
Proof.
  intros H. unfold set_loc. rewrite H.
  destruct (Z.of_nat i <? 0)%Z eqn:E; [apply Z.ltb_lt in E; lia|].
  by rewrite Nat2Z.id.
Qed.

(** Looking a column up in a table the program has written to. *)
Ltac lookup_col :=
  cbn [cols nrows];
  repeat first [ rewrite lookup_insert_eq | rewrite lookup_insert_ne by discriminate ];
  first [ reflexivity | eassumption ].

(** One statement of the program, on a table whose columns are known. *)
Ltac run_col :=
  erewrite (bind_returned (col _)); [| apply col_run; lookup_col ].
Ltac run_set_col :=
  erewrite (bind_returned (set_col _ _)); [| apply set_col_run; cbn [cols nrows] ].

(** ** The strike spacing *)

Lemma length_diff s : length (diff s) = length s.
Proof.
  destruct s as [|a t]; simpl; [done|]. f_equal.
  rewrite length_zip_with. simpl. lia.
Qed.

Lemma length_diff_back s : length (diff_back s) = length s.
Proof.
  induction s as [|a t IH]; [done|]. destruct t as [|b t]; [done|].
  cbn [diff_back length] in *. by rewrite IH.
Qed.

Lemma length_sabs s : length (sabs s) = length s.
Proof. apply length_map. Qed.

Lemma length_spacing_column strike :
  length (spacing_column strike) = length strike.
Proof.
  unfold spacing_column, sdiv_scalar, sadd.
  rewrite !length_insert, length_map, length_zip_with, !length_sabs.
  rewrite length_diff, length_diff_back. lia.
Qed.

Lemma strike_spacing_run df strike :
  cols df !! "Strike" = Some strike -> length strike = nrows df ->
  (0 < nrows df)%nat ->
  strike_spacing df
  = (mkDataFrame (nrows df)
       (<["delta_K" := spacing_column strike]>
          (<["diff_K_lower" := sabs (diff_back strike)]>
             (<["diff_K_upper" := sabs (diff strike)]> (cols df)))),
     Returned tt).
Proof.
  intros Hk Hlen Hn. unfold strike_spacing.
  run_col. run_set_col; [|by rewrite length_sabs, length_diff].
  run_col. run_set_col; [|by rewrite length_sabs, length_diff_back].
  run_col. run_col.
  run_set_col.
  2:{ unfold sdiv_scalar, sadd.
      rewrite length_map, length_zip_with, !length_sabs, length_diff, length_diff_back.
      lia. }
  erewrite (bind_returned (loc 0 _)).
  2:{ apply (loc_run _ 0); [lookup_col|].
      rewrite length_sabs, length_diff_back. lia. }
  erewrite (bind_returned (set_loc 0 _ _)).
  2:{ apply (set_loc_run _ 0). lookup_col. }
  erewrite (bind_returned len); [|reflexivity]. cbn [nrows].
  replace (Z.of_nat (nrows df) - 1)%Z with (Z.of_nat (nrows df - 1)) by lia.
  erewrite (bind_returned (loc _ _)).
  2:{ apply loc_run; [lookup_col|].
      rewrite length_sabs, length_diff. lia. }
  erewrite (bind_returned len); [|reflexivity]. cbn [nrows].
  replace (Z.of_nat (nrows df) - 1)%Z with (Z.of_nat (nrows df - 1)) by lia.
  erewrite set_loc_run by lookup_col. cbn [nrows cols].
  rewrite !insert_insert_eq.
  unfold spacing_column. by rewrite Hlen.
Qed.

Lemma nth_zip_with {A B C} (f : A -> B -> C) l k i da db dc :
  (i < length l)%nat -> (i < length k)%nat ->
  nth i (zip_with f l k) dc = f (nth i l da) (nth i k db).
Proof.
  revert k i. induction l as [|a l IH]; intros [|b k] i Hl Hk; simpl in *; try lia.
  destruct i as [|i]; [done|]. apply IH; lia.
Qed.

Lemma nth_map_in {A B} (f : A -> B) l i da db :
  (i < length l)%nat -> nth i (map f l) db = f (nth i l da).
Proof.
  revert i. induction l as [|a l IH]; intros i Hi; simpl in *; [lia|].
  destruct i as [|i]; [done|]. apply IH. lia.
Qed.

Lemma nth_diff ks i :
  (S i < length ks)%nat ->
  nth (S i) (sabs (diff (map Fin ks))) NaN
  = Fin (Qabs (nth (S i) ks 0 - nth i ks 0)).
Proof.
  intros Hi. unfold sabs.
  rewrite (nth_map_in _ _ _ NaN) by (rewrite length_diff, length_map; lia).
  destruct ks as [|a t]; simpl in Hi; [lia|].
  change (nth (S i) (diff (map Fin (a :: t))) NaN)
    with (nth i (zip_with fsub (map Fin t) (map Fin (a :: t))) NaN).
  rewrite (nth_zip_with _ _ _ _ NaN NaN)
    by (rewrite length_map; simpl; lia).
  rewrite !nth_map_Fin by (simpl; lia). done.
Qed.

Lemma nth_diff_back_Fin ks i :
  (S i < length ks)%nat ->
  nth i (diff_back (map Fin ks)) NaN = Fin (nth i ks 0 - nth (S i) ks 0).
Proof.
  revert i.
  induction ks as [|a t IH]; intros i Hi; simpl in Hi; [lia|].
  destruct t as [|b t]; simpl in Hi; [lia|].
  destruct i as [|i]; [done|].
  change (nth i (diff_back (map Fin (b :: t))) NaN
          = Fin (nth i (b :: t) 0 - nth (S i) (b :: t) 0)).
  apply IH. simpl. lia.
Qed.

Lemma nth_diff_back ks i :
  (S i < length ks)%nat ->
  nth i (sabs (diff_back (map Fin ks))) NaN
  = Fin (Qabs (nth i ks 0 - nth (S i) ks 0)).
Proof.
  intros Hi. unfold sabs.
  rewrite (nth_map_in _ _ _ NaN) by (rewrite length_diff_back, length_map; lia).
  by rewrite nth_diff_back_Fin.
Qed.

(** The spacing the code computes at each row of a grid of two or more
    increasing strikes. *)
Lemma spacing_column_nth ks i :
  (2 <= length ks)%nat -> (i < length ks)%nat ->
  strictly_increasing ks = true ->
  exists d, nth i (spacing_column (map Fin ks)) NaN = Fin d /\
            d == spec_delta_K ks i.
Proof.
  intros Hn Hi Hs. unfold spacing_column. rewrite length_map.
  set (upper := sabs (diff (map Fin ks))).
  set (lower := sabs (diff_back (map Fin ks))).
  set (mid := sdiv_scalar (sadd lower upper) (Fin 2)).
  assert (length mid = length ks) as Hmid.
  { unfold mid, sdiv_scalar, sadd, upper, lower.
    rewrite length_map, length_zip_with, !length_sabs, length_diff,
      length_diff_back, length_map. lia. }
  unfold spec_delta_K.
  destruct (decide (i = length ks - 1)%nat) as [E|E].
  - (* the last row *)
    subst i. replace (length ks - 1 =? 0)%nat with false
      by (symmetry; apply Nat.eqb_neq; lia).
    rewrite Nat.eqb_refl.
    rewrite (nth_lookup_Some _ _ NaN (nth (length ks - 1) upper NaN)).
    2:{ apply list_lookup_insert_eq. rewrite length_insert. lia. }
    unfold upper. replace (length ks - 1)%nat with (S (length ks - 2)) by lia.
    rewrite nth_diff by lia. eexists; split; [reflexivity|].
    replace (S (length ks - 2) - 1)%nat with (length ks - 2)%nat by lia.
    apply Qabs_pos.
    assert (nth (length ks - 2) ks 0 < nth (S (length ks - 2)) ks 0)
      by (apply strictly_increasing_nth; [done|lia|lia]).
    lra.
  - replace (i =? length ks - 1)%nat with false
      by (symmetry; by apply Nat.eqb_neq).
    destruct i as [|i].
    + (* the first row *)
      rewrite (nth_lookup_Some _ _ NaN (nth 0 lower NaN)).
      2:{ rewrite list_lookup_insert_ne by lia.
          apply list_lookup_insert_eq. lia. }
      unfold lower. rewrite nth_diff_back by lia.
      eexists; split; [reflexivity|]. cbn [Nat.eqb].
      assert (nth 0 ks 0 < nth 1 ks 0)
        by (apply strictly_increasing_nth; [done|lia|lia]).
      rewrite Qabs_neg by lra. lra.
    + (* an interior row *)
      rewrite (nth_lookup_Some _ _ NaN (nth (S i) mid NaN)).
      2:{ rewrite !list_lookup_insert_ne by lia.
          apply lookup_nth. lia. }
      unfold mid, sdiv_scalar, sadd.
      rewrite (nth_map_in _ _ _ NaN)
        by (rewrite length_zip_with; unfold upper, lower;
            rewrite !length_sabs, length_diff, length_diff_back, length_map; lia).
      rewrite (nth_zip_with _ _ _ _ NaN NaN)
        by (unfold upper, lower;
            rewrite !length_sabs, ?length_diff, ?length_diff_back, length_map; lia).
      unfold upper, lower. rewrite nth_diff, nth_diff_back by lia.
      eexists; split; [reflexivity|]. cbn [Nat.eqb].
      replace (S i - 1)%nat with i by lia.
      rewrite (Qabs_wd (nth (S i) ks 0 - nth (S (S i)) ks 0)
                 (- (nth (S (S i)) ks 0 - nth (S i) ks 0))) by ring.
      rewrite Qabs_opp. field.
Qed.

(** ** Boolean indexing *)

Lemma count_true_cons b mask :
  count_true (b :: mask) = ((if b then 1 else 0) + count_true mask)%nat.
Proof.
  unfold count_true. destruct b.
  - by rewrite filter_cons_True.
  - by rewrite filter_cons_False.
Qed.

Lemma select_map {A B} (f : A -> B) mask s :
  select mask (map f s) = map f (select mask s).
Proof.
  revert s. induction mask as [|m mask IH]; intros [|a s]; try done.
  simpl. destruct m; simpl; by rewrite IH.
Qed.

Lemma length_select {A} mask (s : list A) :
  length mask = length s -> length (select mask s) = count_true mask.
Proof.
  revert s. induction mask as [|m mask IH]; intros [|a s] H; try done.
  rewrite count_true_cons. simpl in *. destruct m; simpl; rewrite IH; lia.
Qed.

Lemma length_select_same {A B} mask (s : list A) (t : list B) :
  length s = length t -> length (select mask s) = length (select mask t).
Proof.
  revert s t. induction mask as [|m mask IH]; intros [|a s] [|b t] H; try done.
  simpl in *. destruct m; simpl; rewrite (IH s t); lia.
Qed.


Lemma select_Forall {A} (P : A -> Prop) mask s :
  Forall P s -> Forall P (select mask s).
Proof.
  intros H. revert mask. induction H as [|a s Ha Hs IH]; intros [|m mask]; simpl;
    try constructor.
  destruct m; [constructor|]; auto.
Qed.

Lemma select_Forall2 {A B} (R : A -> B -> Prop) mask s t :
  Forall2 R s t -> Forall2 R (select mask s) (select mask t).
Proof.
  intros H. revert mask. induction H as [|a b s t Hab Hst IH]; intros [|m mask];
    simpl; try constructor.
  destruct m; [constructor|]; auto.
Qed.

Lemma strictly_increasing_Forall a l :
  strictly_increasing l = true -> Forall (fun b => a < b) l ->
  strictly_increasing (a :: l) = true.
Proof.
  intros Hl Hall. destruct l as [|b l]; [done|].
  cbn [strictly_increasing]. apply andb_true_iff. split; [|done].
  apply Qlt_bool_iff. by inversion Hall.
Qed.

Lemma select_strictly_increasing mask ks :
  strictly_increasing ks = true -> strictly_increasing (select mask ks) = true.
Proof.
  revert mask. induction ks as [|a l IH]; intros [|m mask] H; try done.
  apply strictly_increasing_cons in H as [Hl Hall].
  simpl. destruct m; [|by apply IH].
  apply strictly_increasing_Forall; [by apply IH|by apply select_Forall].
Qed.

(** ** The spline *)

Lemma finite_values_map_Fin qs : finite_values (map Fin qs) = Some qs.
Proof. induction qs as [|q qs IH]; [done|]. simpl. by rewrite IH. Qed.

Lemma finite_values_Some l qs : finite_values l = Some qs -> l = map Fin qs.
Proof.
  revert qs. induction l as [|a l IH]; intros qs H; simpl in H.
  - by simplify_eq.
  - destruct a; try done. destruct (finite_values l) as [qs'|]; [|done].
    simplify_eq. simpl. f_equal. by apply IH.
Qed.

Lemma finite_values_Forall l :
  Forall (fun a => is_finite a = true) l -> exists qs, finite_values l = Some qs.
Proof.
  induction 1 as [|a l Ha _ [qs IH]]; [by exists []|].
  destruct a; try done. exists (q :: qs). simpl. by rewrite IH.
Qed.

Lemma length_np_diff x : length (np_diff x) = (length x - 1)%nat.
Proof.
  induction x as [|a t IH]; [done|]. destruct t as [|b t]; [done|].
  cbn [np_diff length] in *. rewrite IH. lia.
Qed.

Lemma nth_np_diff x i :
  (S i < length x)%nat -> nth i (np_diff x) 0 = nth (S i) x 0 - nth i x 0.
Proof.
  revert i. induction x as [|a t IH]; intros i Hi; simpl in Hi; [lia|].
  destruct t as [|b t]; simpl in Hi; [lia|].
  destruct i as [|i]; [done|].
  change (nth i (np_diff (b :: t)) 0 = nth (S i) (b :: t) 0 - nth i (b :: t) 0).
  apply IH. simpl. lia.
Qed.

Lemma length_interior_rows dx slope :
  length dx = length slope ->
  length (interior_rows dx slope) = (length dx - 1)%nat.
Proof.
  revert slope. induction dx as [|h0 dx IH]; intros [|m0 slope] H; try done.
  destruct dx as [|h1 dx], slope as [|m1 slope]; try done.
  change (length ((h1, 2 * (h0 + h1), h0, 3 * (h1 * m0 + h0 * m1))
                    :: interior_rows (h1 :: dx) (m1 :: slope))
          = (length (h0 :: h1 :: dx) - 1)%nat).
  cbn [length]. rewrite IH by (simpl in *; lia). simpl. lia.
Qed.

Lemma length_eliminate rows cp bp : length (eliminate rows cp bp) = length rows.
Proof.
  revert cp bp. induction rows as [|[[[l d] u] b] rows IH]; intros cp bp; [done|].
  simpl. by rewrite IH.
Qed.

Lemma length_substitute cb : length (substitute cb) = length cb.
Proof.
  induction cb as [|[c b] cb IH]; [done|]. simpl. by rewrite IH.
Qed.

Lemma length_solve_natural dx slope y :
  length dx = length slope -> (1 <= length dx)%nat ->
  length (solve_banded (natural_system dx slope y)) = S (length dx).
Proof.
  intros H H1. unfold solve_banded, natural_system.
  rewrite length_substitute, length_eliminate. cbn [length].
  rewrite length_app, length_interior_rows by done. simpl. lia.
Qed.

Lemma nth_hermite_coefficients dx slope s y i :
  (i < length dx)%nat -> (i < length slope)%nat -> (S i < length s)%nat ->
  (i < length y)%nat ->
  nth i (hermite_coefficients dx slope s y) (0, 0, 0, 0)
  = (let t := (nth i s 0 + nth (S i) s 0 - 2 * nth i slope 0) / nth i dx 0 in
     (t / nth i dx 0, (nth i slope 0 - nth i s 0) / nth i dx 0 - t,
      nth i s 0, nth i y 0)).
Proof.
  revert slope s y i.
  induction dx as [|h dx IH]; intros [|m slope] [|s0 s] [|y0 y] i H1 H2 H3 H4;
    simpl in H1, H2, H3, H4; try lia.
  destruct s as [|s1 s]; simpl in H3; [lia|].
  destruct i as [|i]; [done|].
  change (nth i (hermite_coefficients dx slope (s1 :: s) y) (0, 0, 0, 0) = 
    (let t := (nth i (s1 :: s) 0 + nth (S i) (s1 :: s) 0 - 2 * nth i slope 0) / nth i dx 0 in
     (t / nth i dx 0, (nth i slope 0 - nth i (s1 :: s) 0) / nth i dx 0 - t,
      nth i (s1 :: s) 0, nth i y 0))).
  apply IH; simpl; lia.
Qed.

Lemma find_interval_step x0 x1 x2 xs q :
  find_interval (x0 :: x1 :: x2 :: xs) q
  = if Qlt_bool q x1 then O else S (find_interval (x1 :: x2 :: xs) q).
Proof. reflexivity. Qed.


Lemma length_hermite_coefficients dx slope s y :
  length slope = length dx -> length s = S (length dx) ->
  length y = S (length dx) ->
  length (hermite_coefficients dx slope s y) = length dx.
Proof.
  revert slope s y.
  induction dx as [|h dx IH]; intros [|m slope] [|s0 s] [|y0 y] H1 H2 H3;
    simpl in H1, H2, H3; try lia; try done.
  destruct s as [|s1 s]; simpl in H2; [lia|].
  change (length ((let t := (s0 + s1 - 2 * m) / h in
                   (t / h, (m - s0) / h - t, s0, y0))
                    :: hermite_coefficients dx slope (s1 :: s) y)
          = S (length dx)).
  cbn [length]. rewrite IH; simpl; lia.
Qed.

(** The interval [find_interval] answers holds the point: its left knot is
    at or below the point, and the point is below its right knot or the
    interval is the last one. *)
Lemma find_interval_spec xs q :
  (2 <= length xs)%nat -> hd 0 xs <= q ->
  (find_interval xs q < length xs - 1)%nat /\
  nth (find_interval xs q) xs 0 <= q /\
  (q < nth (S (find_interval xs q)) xs 0
   \/ S (find_interval xs q) = (length xs - 1)%nat).
Proof.
  induction xs as [|x0 xs IH]; intros Hn H0; simpl in Hn; [lia|].
  destruct xs as [|x1 xs]; simpl in Hn; [lia|].
  destruct xs as [|x2 xs].
  - simpl. split; [lia|]. split; [done|]. by right.
  - rewrite find_interval_step. destruct (Qlt_bool q x1) eqn:E.
    + apply Qlt_bool_iff in E. split; [simpl; lia|]. split; [done|]. by left.
    + apply Qlt_bool_false in E.
      destruct (IH ltac:(simpl; lia) E) as (H1 & H2 & H3).
      set (j := find_interval (x1 :: x2 :: xs) q) in *.
      split; [simpl in *; lia|]. split; [exact H2|].
      destruct H3 as [H3|H3]; [by left|right]. simpl in *. lia.
Qed.

Lemma CubicSpline_inv x y sp :
  CubicSpline x y = Returned sp ->
  exists xs ys,
    x = map Fin xs /\ y = map Fin ys /\ length xs = length ys /\
    (2 <= length xs)%nat /\ strictly_increasing xs = true /\
    sp = natural_spline xs ys.
Proof.
  unfold CubicSpline. intros H.
  destruct (length x <? 2)%nat eqn:E2; [done|]. apply Nat.ltb_ge in E2.
  destruct (length x =? length y)%nat eqn:El; [|done]. apply Nat.eqb_eq in El.
  cbn [negb] in H.
  destruct (finite_values x) as [xs|] eqn:Ex; [|done].
  destruct (finite_values y) as [ys|] eqn:Ey; [|done].
  destruct (strictly_increasing xs) eqn:Es; [|done]. cbn [negb] in H.
  apply finite_values_Some in Ex, Ey. subst x y.
  rewrite !length_map in *. exists xs, ys. by simplify_eq.
Qed.

Lemma CubicSpline_returns xs ys :
  (2 <= length xs)%nat -> length xs = length ys ->
  strictly_increasing xs = true ->
  CubicSpline (map Fin xs) (map Fin ys) = Returned (natural_spline xs ys).
Proof.
  intros H2 Hl Hs. unfold CubicSpline. rewrite !length_map.
  replace (length xs <? 2)%nat with false by (symmetry; apply Nat.ltb_ge; lia).
  rewrite Hl, Nat.eqb_refl. cbn [negb].
  by rewrite !finite_values_map_Fin, Hs.
Qed.

Lemma hd_nth (xs : list Q) : hd 0 xs = nth 0 xs 0.
Proof. by destruct xs. Qed.

Lemma last_nth_Q (xs : list Q) : List.last xs 0 = nth (length xs - 1) xs 0.
Proof.
  induction xs as [|a xs IH]; [done|]. destruct xs as [|b xs]; [done|].
  change (List.last (a :: b :: xs) 0) with (List.last (b :: xs) 0).
  rewrite IH. simpl. by rewrite Nat.sub_0_r.
Qed.

Lemma ppoly_call_Fin sp q :
  ppoly_call sp (Fin q)
  = if in_range (ppoly_x sp) q then Fin (ppoly_value sp q) else NaN.
Proof. unfold ppoly_call, in_range. by destruct (_ || _). Qed.



(** The slopes of the natural spline through (0,0), (1,1), (2,0): 3/2, 0 and
    -3/2, and a second derivative of zero at both ends. *)
Example natural_spline_through_three_points :
  Forall2 Qeq (solve_banded (natural_system [1; 1] [1; -1] [0; 1; 0]))
              [3 # 2; 0; -3 # 2] /\
  Forall2 (fun c d => let '(c0, c1, c2, c3) := c in
                      let '(d0, d1, d2, d3) := d in
                      c0 == d0 /\ c1 == d1 /\ c2 == d2 /\ c3 == d3)
    (ppoly_c (natural_spline [0; 1; 2] [0; 1; 0]))
    [(-1 # 2, 0, 3 # 2, 0); (1 # 2, -3 # 2, 0, 1)].
Proof.
  split; repeat constructor; reflexivity.
Qed.

(** ** One side of the correction *)

Lemma correct_side_run df0 df side strike spread mid sc mc :
  cols df0 !! "Strike" = Some strike ->
  cols df0 !! sc = Some spread -> cols df0 !! mc = Some mid ->
  cols df !! "Strike" = Some strike -> length strike = nrows df ->
  correct_side (filter_rows side df0) sc mc df
  = match corrected side strike spread mid with
    | Returned c => (mkDataFrame (nrows df) (<[mc := c]> (cols df)), Returned tt)
    | Raised e => (df, Raised e)
    end.
Proof.
  intros Hk Hsp Hmid Hk' Hlen.
  unfold correct_side, corrected, knot_mask, bind, lift, col_of, loc_mask.
  cbn [filter_rows cols]. rewrite !lookup_fmap, Hsp, Hk, Hmid. cbn [fmap option_fmap option_map].
  destruct (3 <=? _)%nat.
  - destruct (CubicSpline _ _) as [cs|e]; [|done].
    unfold col, col_of. rewrite Hk'.
    rewrite set_col_run; [done|]. by rewrite length_map.
  - unfold set_col_scalar. by rewrite Hlen.
Qed.

Lemma get_state_run {S} (s : S) : get_state s = (s, Returned s).
Proof. reflexivity. Qed.

Lemma cubic_spline_correction_run df fut atm strike cs cm ps pm :
  cols df !! "Strike" = Some strike -> length strike = nrows df ->
  cols df !! "Call Spread" = Some cs -> cols df !! "Call Mid" = Some cm ->
  cols df !! "Put Spread" = Some ps -> cols df !! "Put Mid" = Some pm ->
  atm_strike fut df = (df, Returned atm) ->
  cubic_spline_correction fut df
  = match corrected (map (fun k => fge k atm) strike) strike cs cm with
    | Raised e => (df, Raised e)
    | Returned c =>
        match corrected (map (fun k => fle k atm) strike) strike ps pm with
        | Raised e =>
            (mkDataFrame (nrows df) (<["Call Mid" := c]> (cols df)), Raised e)
        | Returned p =>
            (mkDataFrame (nrows df)
               (<["Put Mid" := p]> (<["Call Mid" := c]> (cols df))),
             Returned atm)
        end
    end.
Proof.
  intros Hk Hlen Hcs Hcm Hps Hpm Hatm. unfold cubic_spline_correction.
  rewrite (bind_returned _ _ _ _ _ Hatm).
  rewrite (bind_returned _ _ _ _ _ (get_state_run df)).
  run_col. run_col.
  unfold bind at 1.
  rewrite (correct_side_run df df _ strike cs cm) by done.
  destruct (corrected _ strike cs cm) as [c|e]; [|done].
  unfold bind at 1.
  rewrite (correct_side_run df _ _ strike ps pm); try done; try lookup_col.
  destruct (corrected _ strike ps pm) as [p|e]; done.
Qed.

Lemma lookup_map {A B} (f : A -> B) (l : list A) (i : nat) :
  map f l !! i = f <$> (l !! i).
Proof.
  revert i. induction l as [|a l IH]; intros [|i]; try done. apply IH.
Qed.


(** With three knots or more, the side's column becomes the spline through
    the knots, called at every strike of the table. *)
Lemma corrected_spline side strike spread mid c :
  corrected side strike spread mid = Returned c ->
  (3 <= count_true (knot_mask side spread))%nat ->
  exists xs ys,
    select (knot_mask side spread) (select side strike) = map Fin xs /\
    select (knot_mask side spread) (select side mid) = map Fin ys /\
    length xs = length ys /\ (2 <= length xs)%nat /\
    strictly_increasing xs = true /\
    c = map (ppoly_call (natural_spline xs ys)) strike.
Proof.
  unfold corrected. intros H H3.
  replace (3 <=? _)%nat with true in H by (symmetry; by apply Nat.leb_le).
  destruct (CubicSpline _ _) as [sp|e] eqn:E; [|done].
  apply CubicSpline_inv in E as (xs & ys & Hx & Hy & Hl & H2 & Hs & ->).
  exists xs, ys. by simplify_eq.
Qed.

(** With fewer, every entry of the side's column becomes undefined. *)
Lemma corrected_too_few side strike spread mid :
  (count_true (knot_mask side spread) < 3)%nat ->
  corrected side strike spread mid = Returned (replicate (length strike) NaN).
Proof.
  intros H. unfold corrected.
  by replace (3 <=? _)%nat with false by (symmetry; apply Nat.leb_gt; lia).
Qed.



Lemma corrected_at_strike side strike spread mid c (i : nat) q :
  corrected side strike spread mid = Returned c ->
  (3 <= count_true (knot_mask side spread))%nat ->
  strike !! i = Some (Fin q) ->
  exists xs ys,
    select (knot_mask side spread) (select side strike) = map Fin xs /\
    select (knot_mask side spread) (select side mid) = map Fin ys /\
    strictly_increasing xs = true /\
    c !! i = Some (if in_range xs q
                   then Fin (ppoly_value (natural_spline xs ys) q)
                   else NaN).
Proof.
  intros Hc H3 Hk.
  destruct (corrected_spline _ _ _ _ _ Hc H3) as (xs & ys & Hx & Hy & Hl & H2 & Hinc & ->).
  exists xs, ys. repeat split; try done.
  rewrite lookup_map, Hk. cbn [fmap option_fmap option_map].
  by rewrite ppoly_call_Fin.
Qed.

(** ** The correction never raises on the mids and spreads of lines 49-52 *)

Lemma spread_of_mid ask bid :
  clean_is_finite (fdiv (fsub ask bid) (fdiv (fadd ask bid) (Fin 2)))
                  (fdiv (fadd ask bid) (Fin 2)).
Proof.
  unfold clean_is_finite.
  destruct ask as [a| | |], bid as [b| | |]; cbn; try done.
Qed.

Lemma spreads_of_mids ask bid :
  Forall2 clean_is_finite
    (sdiv (ssub ask bid) (sdiv_scalar (sadd ask bid) (Fin 2)))
    (sdiv_scalar (sadd ask bid) (Fin 2)).
Proof.
  revert bid. induction ask as [|a ask IH]; intros [|b bid]; try constructor.
  - apply spread_of_mid.
  - apply IH.
Qed.

Lemma knots_finite spread mid :
  Forall2 clean_is_finite spread mid ->
  Forall (fun a => is_finite a = true)
    (select (map (fun s => fle s (Fin (3 # 10))) spread) mid).
Proof.
  induction 1 as [|s m spread mid Hsm _ IH]; [constructor|].
  simpl. destruct (fle s (Fin (3 # 10))) eqn:E; [|done].
  constructor; [by apply Hsm|done].
Qed.

Lemma ppoly_call_finite_or_nan sp a : finite_or_nan (ppoly_call sp a).
Proof.
  destruct a; try done. rewrite ppoly_call_Fin. by destruct (in_range _ _).
Qed.

Lemma corrected_returns side ks spread mid :
  strictly_increasing ks = true ->
  length spread = length ks -> Forall2 clean_is_finite spread mid ->
  exists c, corrected side (map Fin ks) spread mid = Returned c /\
            length c = length ks /\ Forall finite_or_nan c.
Proof.
  intros Hs Hlen HR.
  assert (length mid = length ks) as Hlen'
    by (apply Forall2_length in HR; lia).
  destruct (decide (3 <= count_true (knot_mask side spread))%nat) as [H3|H3].
  - unfold corrected.
    replace (3 <=? _)%nat with true by (symmetry; by apply Nat.leb_le).
    rewrite !select_map.
    destruct (finite_values_Forall
                (select (knot_mask side spread) (select side mid))) as [ys Hys].
    { apply knots_finite. by apply select_Forall2. }
    apply finite_values_Some in Hys. rewrite Hys.
    assert (length (select (knot_mask side spread) (select side ks)) = length ys)
      as Hl.
    { rewrite <- (length_map Fin ys), <- Hys.
      apply length_select_same, length_select_same. lia. }
    assert (length (select (knot_mask side spread) (select side ks))
            = count_true (knot_mask side spread)) as Hc.
    { apply length_select. unfold knot_mask. rewrite length_map.
      apply length_select_same. lia. }
    rewrite CubicSpline_returns; [|lia|done|by do 2 apply select_strictly_increasing].
    eexists. split; [reflexivity|]. rewrite !length_map. split; [done|].
    apply Forall_forall. intros a Ha. apply list_elem_of_In, in_map_iff in Ha.
    destruct Ha as (b & <- & _). apply ppoly_call_finite_or_nan.
  - rewrite corrected_too_few by lia. eexists. split; [reflexivity|].
    rewrite length_replicate, length_map. split; [done|].
    apply Forall_forall. intros a Ha. apply elem_of_replicate in Ha as [-> _]. done.
Qed.

(** ** Running [compute_sigma] *)

Lemma length_sdiv_scalar a x : length (sdiv_scalar a x) = length a.
Proof. apply length_map. Qed.

Lemma length_smul_scalar a x : length (smul_scalar a x) = length a.
Proof. apply length_map. Qed.

Lemma length_np_where c a b :
  length c = length a -> length a = length b -> length (np_where c a b) = length a.
Proof.
  revert a b. induction c as [|ci c IH]; intros [|ai a] [|bi b] H1 H2; try done.
  simpl in *. rewrite IH; lia.
Qed.

Lemma nth_np_where c a b i :
  (i < length c)%nat -> (i < length a)%nat -> (i < length b)%nat ->
  nth i (np_where c a b) NaN
  = if nth i c false then nth i a NaN else nth i b NaN.
Proof.
  revert a b i. induction c as [|ci c IH]; intros [|ai a] [|bi b] i H1 H2 H3;
    simpl in *; try lia.
  destruct i as [|i]; [done|]. apply IH; lia.
Qed.

Ltac series_length :=
  unfold sdiv, ssub, sadd, smul, sdiv_scalar, smul_scalar;
  repeat rewrite ?length_map, ?length_zip_with; lia.

Lemma length_mid_column ask bid :
  length ask = length bid -> length (mid_column ask bid) = length ask.
Proof.
  intros H. unfold mid_column, sadd.
  rewrite length_sdiv_scalar, length_zip_with. lia.
Qed.

Lemma length_spread_column ask bid :
  length ask = length bid -> length (spread_column ask bid) = length ask.
Proof.
  intros H. unfold spread_column, sdiv, ssub.
  rewrite !length_zip_with, length_mid_column by done. lia.
Qed.

Lemma mids_and_spreads_run df ca cb pa pb :
  cols df !! "Call Ask" = Some ca -> cols df !! "Call Bid" = Some cb ->
  cols df !! "Put Ask" = Some pa -> cols df !! "Put Bid" = Some pb ->
  length ca = nrows df -> length cb = nrows df ->
  length pa = nrows df -> length pb = nrows df ->
  mids_and_spreads df
  = (mkDataFrame (nrows df)
       (<["Put Spread" := spread_column pa pb]>
          (<["Call Spread" := spread_column ca cb]>
             (<["Put Mid" := mid_column pa pb]>
                (<["Call Mid" := mid_column ca cb]> (cols df))))),
     Returned tt).
Proof.
  intros Hca Hcb Hpa Hpb Lca Lcb Lpa Lpb.
  unfold mids_and_spreads, spread_column, mid_column.
  run_col. run_col. run_set_col; [|series_length].
  run_col. run_col. run_set_col; [|series_length].
  run_col. run_col. run_col. run_set_col; [|series_length].
  run_col. run_col. run_col.
  rewrite set_col_run; [done|]. cbn [nrows]. series_length.
Qed.

Lemma length_price_column atm strike pm cm :
  length pm = length strike -> length cm = length strike ->
  length (price_column atm strike pm cm) = length strike.
Proof.
  intros Hp Hc. unfold price_column.
  assert (length (sdiv_scalar (sadd pm cm) (Fin 2)) = length strike) as H1
    by series_length.
  assert (length (np_where (map (fun k => fgt k atm) strike) cm
                    (sdiv_scalar (sadd pm cm) (Fin 2))) = length cm) as H2
    by (apply length_np_where; rewrite ?length_map; lia).
  rewrite length_np_where; rewrite ?length_map; lia.
Qed.

Lemma contribution_price_run df atm strike pm cm :
  cols df !! "Strike" = Some strike -> cols df !! "Put Mid" = Some pm ->
  cols df !! "Call Mid" = Some cm ->
  length strike = nrows df -> length pm = nrows df -> length cm = nrows df ->
  contribution_price atm df
  = (mkDataFrame (nrows df)
       (<["Q" := price_column atm strike pm cm]> (cols df)), Returned tt).
Proof.
  intros Hk Hpm Hcm Lk Lp Lc. unfold contribution_price.
  do 6 run_col.
  rewrite set_col_run; [done|].
  fold (price_column atm strike pm cm). rewrite length_price_column; lia.
Qed.

Section Run.

Variable exp : Q -> Q.

Lemma compute_sigma_run df ks mte fut ir :
  option_chain df ks -> strictly_increasing ks = true ->
  (0 < length ks)%nat -> nth 0 ks 0 < fut ->
  let atm := Fin (spec_atm ks fut) in
  let strike := map Fin ks in
  exists ca cb pa pb cm pm,
    cols df !! "Call Ask" = Some ca /\ cols df !! "Call Bid" = Some cb /\
    cols df !! "Put Ask" = Some pa /\ cols df !! "Put Bid" = Some pb /\
    corrected (call_side atm strike) strike
      (spread_column ca cb) (mid_column ca cb) = Returned cm /\
    corrected (put_side atm strike) strike
      (spread_column pa pb) (mid_column pa pb) = Returned pm /\
    length cm = length ks /\ length pm = length ks /\
    Forall finite_or_nan cm /\ Forall finite_or_nan pm /\
    compute_sigma exp mte fut ir df
    = (final_frame exp df strike ca cb pa pb cm pm atm ir (year_fraction mte),
       Returned
         (sigma_value
            (contribution_column exp strike (spacing_column strike)
               (price_column atm strike pm cm) ir (year_fraction mte))
            fut atm (year_fraction mte))).
Proof.
  intros (Hk & Hlen & (cb & Hcb & Lcb) & (ca & Hca & Lca)
          & (pb & Hpb & Lpb) & (pa & Hpa & Lpa)) Hs Hn H0 atm strike.
  destruct (corrected_returns (call_side atm strike) ks
              (spread_column ca cb) (mid_column ca cb))
    as (cm & Hcm & Lcm & Fcm); [done| |apply spreads_of_mids|].
  { rewrite length_spread_column; lia. }
  destruct (corrected_returns (put_side atm strike) ks
              (spread_column pa pb) (mid_column pa pb))
    as (pm & Hpm & Lpm & Fpm); [done| |apply spreads_of_mids|].
  { rewrite length_spread_column; lia. }
  exists ca, cb, pa, pb, cm, pm. repeat (split; [done|]).
  subst atm strike. unfold call_side, put_side in Hcm, Hpm.
  unfold compute_sigma.
  rewrite (bind_returned _ _ _ _ _
             (mids_and_spreads_run df ca cb pa pb Hca Hcb Hpa Hpb Lca Lcb Lpa Lpb)).
  erewrite (bind_returned (cubic_spline_correction fut)).
  2:{ erewrite cubic_spline_correction_run; cycle 1.
      - lookup_col.
      - cbn [nrows]. rewrite length_map. exact Hlen.
      - lookup_col.
      - lookup_col.
      - lookup_col.
      - lookup_col.
      - apply (atm_strike_run _ ks); try done. lookup_col.
      - rewrite Hcm, Hpm. reflexivity. }
  cbn [nrows cols].
  erewrite (bind_returned (contribution_price _)).
  2:{ apply (contribution_price_run _ _ (map Fin ks) pm cm); cbn [nrows];
        try lookup_col; rewrite ?length_map; lia. }
  cbn [nrows cols].
  erewrite (bind_returned strike_spacing).
  2:{ apply (strike_spacing_run _ (map Fin ks)); cbn [nrows];
        try lookup_col; rewrite ?length_map; lia. }
  cbn [nrows cols].
  erewrite (bind_returned (lift _)); [|reflexivity].
  do 4 run_col.
  run_set_col.
  2:{ unfold smul, smul_scalar, sdiv.
      rewrite !length_zip_with, length_map, !length_zip_with.
      rewrite length_spacing_column, length_price_column;
        rewrite ?length_map; lia. }
  run_col.
  unfold ret, final_frame, sigma_value, contribution_column, year_fraction.
  reflexivity.
Qed.

End Run.

(** ** Sums *)

Lemma sum_cons_Fin q l : sum (Fin q :: l) = fadd (Fin q) (sum l).
Proof. unfold sum. by rewrite filter_cons_True. Qed.

Lemma sum_cons_NaN l : sum (NaN :: l) = sum l.
Proof. unfold sum. by rewrite filter_cons_False. Qed.

(** The sum of finite and undefined entries is finite: the undefined ones
    are left out. *)
Lemma sum_finite_or_nan l :
  Forall finite_or_nan l -> exists v, sum l = Fin v.
Proof.
  induction 1 as [|a l Ha _ [v IH]]; [by exists 0|].
  destruct a as [q| | |]; try done.
  - rewrite sum_cons_Fin, IH. by eexists.
  - rewrite sum_cons_NaN, IH. by eexists.
Qed.

Lemma sum_map_Fin qs : sum (map Fin qs) = Fin (Qsum qs).
Proof.
  induction qs as [|q qs IH]; [done|].
  cbn [map]. rewrite sum_cons_Fin, IH. done.
Qed.

Lemma all_finite_map (l : list fnum) :
  (forall i, (i < length l)%nat -> exists q, nth i l NaN = Fin q) ->
  l = map Fin (map value l).
Proof.
  induction l as [|a l IH]; intros H; [done|].
  cbn [map]. f_equal.
  - destruct (H 0%nat) as [q Hq]; [simpl; lia|]. simpl in Hq. by subst.
  - apply IH. intros i Hi. apply (H (S i)). simpl. lia.
Qed.

Lemma Qsum_pointwise (l : list Q) (f : nat -> Q) :
  (forall i, (i < length l)%nat -> nth i l 0 == f i) ->
  Qsum l == Qsum (map f (seq 0 (length l))).
Proof.
  revert f. induction l as [|a l IH]; intros f H; [done|].
  cbn [length seq map Qsum foldr].
  rewrite <- seq_shift, map_map.
  rewrite (H 0%nat) by (simpl; lia).
  fold (Qsum l). fold (Qsum (map (fun x => f (S x)) (seq 0 (length l)))).
  rewrite (IH (fun x => f (S x))); [reflexivity|].
  intros i Hi. apply (H (S i)). simpl. lia.
Qed.

(** ** The value [compute_sigma] returns *)

Section Value.

Variable exp : Q -> Q.

Lemma nth_contribution_column strike delta_K q ir T i :
  (i < length strike)%nat -> (i < length delta_K)%nat -> (i < length q)%nat ->
  nth i (contribution_column exp strike delta_K q ir T) NaN
  = fmul (fmul (fdiv (nth i delta_K NaN)
                     (fmul (nth i strike NaN) (nth i strike NaN)))
               (Fin (exp (ir * T))))
         (nth i q NaN).
Proof.
  intros H1 H2 H3. unfold contribution_column, smul, smul_scalar, sdiv.
  rewrite (nth_zip_with _ _ _ _ NaN NaN);
    [|rewrite length_map, !length_zip_with; lia|done].
  rewrite (nth_map_in _ _ _ NaN) by (rewrite !length_zip_with; lia).
  rewrite (nth_zip_with _ _ _ _ NaN NaN);
    [|done|rewrite length_zip_with; lia].
  by rewrite (nth_zip_with _ _ _ _ NaN NaN).
Qed.

Lemma nth_price_column a ks pm cm i :
  (i < length ks)%nat -> length pm = length ks -> length cm = length ks ->
  nth i (price_column (Fin a) (map Fin ks) pm cm) NaN
  = if Qlt_bool (nth i ks 0) a then nth i pm NaN
    else if Qlt_bool a (nth i ks 0) then nth i cm NaN
    else fdiv (fadd (nth i pm NaN) (nth i cm NaN)) (Fin 2).
Proof.
  intros Hi Hp Hc. unfold price_column.
  assert (length (sdiv_scalar (sadd pm cm) (Fin 2)) = length ks) as H1
    by series_length.
  rewrite nth_np_where;
    [|rewrite !length_map; lia|lia
     |rewrite length_np_where; rewrite ?length_map; lia].
  rewrite (nth_map_in _ _ _ NaN) by (rewrite length_map; lia).
  rewrite nth_map_Fin by done. cbn [flt].
  destruct (Qlt_bool (nth i ks 0) a); [done|].
  rewrite nth_np_where; [|rewrite !length_map; lia|lia|lia].
  rewrite (nth_map_in _ _ _ NaN) by (rewrite length_map; lia).
  rewrite nth_map_Fin by done. cbn [fgt flt].
  destruct (Qlt_bool a (nth i ks 0)); [done|].
  unfold sdiv_scalar, sadd.
  rewrite (nth_map_in _ _ _ NaN) by (rewrite length_zip_with; lia).
  by rewrite (nth_zip_with _ _ _ _ NaN NaN) by lia.
Qed.

Lemma strikes_positive ks i :
  strictly_increasing ks = true -> 0 < nth 0 ks 0 -> (i < length ks)%nat ->
  0 < nth i ks 0.
Proof.
  intros Hs H0 Hi.
  assert (nth 0 ks 0 <= nth i ks 0)
    by (apply strictly_increasing_nth_le; [done|lia|done]).
  lra.
Qed.

Lemma spec_atm_positive ks fut :
  strictly_increasing ks = true -> (0 < length ks)%nat ->
  0 < nth 0 ks 0 -> nth 0 ks 0 < fut -> 0 < spec_atm ks fut.
Proof.
  intros Hs Hn H0 Hf.
  destruct (searchsorted_atm ks fut Hs Hn Hf) as (Hpos & Hr & ->).
  apply strikes_positive; [done|done|lia].
Qed.

Lemma fdiv_Fin a b : ~ b == 0 -> fdiv (Fin a) (Fin b) = Fin (a / b).
Proof.
  intros H. cbn [fdiv]. by rewrite (proj2 (Qeq_bool_false b 0) H).
Qed.

Lemma year_fraction_nonzero mte : (mte <> 0)%Z -> ~ year_fraction mte == 0.
Proof.
  intros H E. unfold year_fraction, Qeq, Qdiv, Qmult, Qinv in E.
  simpl in E. lia.
Qed.

(** Each entry of the contribution column is finite or undefined. *)
Lemma contribution_finite_or_nan ks pm cm a ir T :
  (2 <= length ks)%nat -> strictly_increasing ks = true -> 0 < nth 0 ks 0 ->
  length pm = length ks -> length cm = length ks ->
  Forall finite_or_nan pm -> Forall finite_or_nan cm ->
  Forall finite_or_nan
    (contribution_column exp (map Fin ks) (spacing_column (map Fin ks))
       (price_column (Fin a) (map Fin ks) pm cm) ir T).
Proof.
  intros Hn Hs H0 Lp Lc Fp Fc.
  apply (Forall_nth _ NaN). intros i Hi.
  assert (i < length ks)%nat as Hi'.
  { unfold contribution_column, smul, smul_scalar, sdiv in Hi.
    rewrite !length_zip_with, length_map, !length_zip_with, !length_map in Hi.
    lia. }
  rewrite nth_contribution_column;
    rewrite ?length_map, ?length_spacing_column, ?length_price_column,
      ?length_map; try (rewrite ?length_map; lia).
  destruct (spacing_column_nth ks i Hn Hi' Hs) as (d & -> & _).
  rewrite nth_map_Fin by done. cbn [fmul].
  rewrite fdiv_Fin.
  2:{ pose proof (strikes_positive ks i Hs H0 Hi'). nra. }
  rewrite nth_price_column by done.
  assert (finite_or_nan (nth i pm NaN)) as Hp
    by (apply (Forall_nth finite_or_nan NaN pm); [done|lia]).
  assert (finite_or_nan (nth i cm NaN)) as Hc
    by (apply (Forall_nth finite_or_nan NaN cm); [done|lia]).
  destruct (Qlt_bool _ a); [by destruct (nth i pm NaN)|].
  destruct (Qlt_bool a _); [by destruct (nth i cm NaN)|].
  by destruct (nth i pm NaN), (nth i cm NaN).
Qed.

(** On a strip of positive increasing strikes and a positive time to
    expiry, the value of line 73 is a finite number, whatever the corrected
    mids are. *)
Lemma sigma_value_finite ks pm cm mte fut ir :
  (2 <= length ks)%nat -> strictly_increasing ks = true -> 0 < nth 0 ks 0 ->
  nth 0 ks 0 < fut -> (mte <> 0)%Z ->
  length pm = length ks -> length cm = length ks ->
  Forall finite_or_nan pm -> Forall finite_or_nan cm ->
  let atm := spec_atm ks fut in
  let T := year_fraction mte in
  exists s,
    sum (contribution_column exp (map Fin ks) (spacing_column (map Fin ks))
           (price_column (Fin atm) (map Fin ks) pm cm) ir T) = Fin s /\
    sigma_value
      (contribution_column exp (map Fin ks) (spacing_column (map Fin ks))
         (price_column (Fin atm) (map Fin ks) pm cm) ir T)
      fut (Fin atm) T
    = Fin ((2 * s - (fut / atm - 1) * (fut / atm - 1)) / T).
Proof.
  intros Hn Hs H0 Hf Hm Lp Lc Fp Fc atm T.
  destruct (sum_finite_or_nan _
              (contribution_finite_or_nan ks pm cm atm ir T
                 Hn Hs H0 Lp Lc Fp Fc)) as [s Hsum].
  exists s. split; [done|].
  unfold sigma_value. rewrite Hsum.
  assert (0 < atm) by (apply spec_atm_positive; try done; lia).
  rewrite (fdiv_Fin fut atm) by lra. cbn [fmul fsub].
  by rewrite fdiv_Fin by (by apply year_fraction_nonzero).
Qed.

End Value.

Section Formula.

Variable exp : Q -> Q.

Lemma price_Fin a k p c :
  price_defined a k p c = true ->
  (if Qlt_bool k a then p
   else if Qlt_bool a k then c
   else fdiv (fadd p c) (Fin 2)) = Fin (spec_Q a k p c).
Proof.
  unfold price_defined, spec_Q.
  destruct (Qlt_bool k a); [by destruct p|].
  destruct (Qlt_bool a k); [by destruct c|].
  by destruct p, c.
Qed.

Lemma contribution_sum ks pm cm a ir T :
  (2 <= length ks)%nat -> strictly_increasing ks = true -> 0 < nth 0 ks 0 ->
  length pm = length ks -> length cm = length ks ->
  prices_defined a ks pm cm = true ->
  exists s,
    sum (contribution_column exp (map Fin ks) (spacing_column (map Fin ks))
           (price_column (Fin a) (map Fin ks) pm cm) ir T) = Fin s /\
    s == Qsum (map (spec_contribution exp ks pm cm a ir T) (seq 0 (length ks))).
Proof.
  intros Hn Hs H0 Lp Lc Hdef.
  set (column := contribution_column exp (map Fin ks)
                   (spacing_column (map Fin ks))
                   (price_column (Fin a) (map Fin ks) pm cm) ir T).
  assert (length column = length ks) as Hlen.
  { unfold column, contribution_column, smul, smul_scalar, sdiv.
    rewrite !length_zip_with, length_map, !length_zip_with.
    rewrite length_spacing_column, length_price_column;
      rewrite ?length_map; lia. }
  assert (forall i, (i < length ks)%nat ->
            exists c, nth i column NaN = Fin c /\
                      c == spec_contribution exp ks pm cm a ir T i) as Hrow.
  { intros i Hi. unfold column.
    rewrite nth_contribution_column;
      rewrite ?length_map, ?length_spacing_column, ?length_price_column,
        ?length_map; try (rewrite ?length_map; lia).
    destruct (spacing_column_nth ks i Hn Hi Hs) as (d & -> & Hd).
    rewrite nth_map_Fin by done. cbn [fmul].
    rewrite fdiv_Fin.
    2:{ pose proof (strikes_positive ks i Hs H0 Hi). nra. }
    rewrite nth_price_column by done.
    rewrite price_Fin.
    2:{ unfold prices_defined in Hdef. rewrite forallb_forall in Hdef.
        apply Hdef, in_seq. lia. }
    eexists; split; [reflexivity|].
    unfold spec_contribution. by rewrite Hd. }
  exists (Qsum (map value column)). split.
  - rewrite (all_finite_map column) at 1; [apply sum_map_Fin|].
    intros i Hi. destruct (Hrow i) as (c & Hc & _); [lia|]. by exists c.
  - rewrite (Qsum_pointwise _ (spec_contribution exp ks pm cm a ir T)).
    + by rewrite length_map, Hlen.
    + intros i Hi. rewrite length_map, Hlen in Hi.
      rewrite (nth_map_in _ _ _ NaN) by lia.
      destruct (Hrow i Hi) as (c & -> & Hc). exact Hc.
Qed.

End Formula.

(** ** What the program writes *)

Section Frame.

Context {S : Type} (R : S -> S -> Prop).
Hypothesis R_refl : forall s, R s s.
Hypothesis R_trans : forall s1 s2 s3, R s1 s2 -> R s2 s3 -> R s1 s3.

Lemma keeps_ret {A} (a : A) : keeps R (ret a).
Proof. intros s. apply R_refl. Qed.

Lemma keeps_lift {A} (r : result A) : keeps R (lift r).
Proof. intros s. apply R_refl. Qed.

Lemma keeps_get_state : keeps R get_state.
Proof. intros s. apply R_refl. Qed.

Lemma keeps_bind {A B} (m : M S A) (k : A -> M S B) :
  keeps R m -> (forall a, keeps R (k a)) -> keeps R (x <- m;; k x).
Proof.
  intros Hm Hk s. unfold bind. specialize (Hm s).
  destruct (m s) as [s1 [a|e]]; simpl in *; [|done].
  eapply R_trans; [exact Hm|apply Hk].
Qed.

End Frame.

Lemma same_outside_refl names df : same_outside names df df.
Proof. by split. Qed.

Lemma same_outside_trans names d1 d2 d3 :
  same_outside names d1 d2 -> same_outside names d2 d3 ->
  same_outside names d1 d3.
Proof.
  intros [H1 H2] [H3 H4]. split; [congruence|].
  intros c Hc. rewrite H4, H2; done.
Qed.

Section Writes.

Variable names : list string.

Local Abbreviation writes := (keeps (same_outside names)).

Lemma writes_bind {A B} (m : M DataFrame A) (k : A -> M DataFrame B) :
  writes m -> (forall a, writes (k a)) -> writes (x <- m;; k x).
Proof.
  apply keeps_bind. intros d1 d2 d3. apply same_outside_trans.
Qed.

Lemma writes_pure {A} (f : DataFrame -> result A) :
  writes (fun df => (df, f df)).
Proof. intros df. apply same_outside_refl. Qed.

Lemma writes_set_col c v : In c names -> writes (set_col c v).
Proof.
  intros Hc df. unfold set_col.
  destruct (_ =? _)%nat; [|apply same_outside_refl].
  split; [done|]. intros c' Hc'. cbn [fst cols].
  apply lookup_insert_ne. congruence.
Qed.

Lemma writes_set_col_scalar c x : In c names -> writes (set_col_scalar c x).
Proof.
  intros Hc df. split; [done|]. intros c' Hc'. cbn [fst cols set_col_scalar].
  apply lookup_insert_ne. congruence.
Qed.

Lemma writes_set_loc i c x : In c names -> writes (set_loc i c x).
Proof.
  intros Hc df. unfold set_loc.
  destruct (cols df !! c); [|apply same_outside_refl].
  destruct (i <? 0)%Z; [apply same_outside_refl|].
  split; [done|]. intros c' Hc'. cbn [fst cols].
  apply lookup_insert_ne. congruence.
Qed.

Lemma writes_correct_side d sc mc : In mc names -> writes (correct_side d sc mc).
Proof.
  intros Hc. unfold correct_side.
  apply writes_bind; [apply (writes_pure (fun _ => _))|]. intros spread.
  destruct (3 <=? _)%nat; [|by apply writes_set_col_scalar].
  repeat (apply writes_bind; [apply (writes_pure (fun _ => _))|]; intros ?).
  by apply writes_set_col.
Qed.

End Writes.

(** One statement of a block that writes only derived columns. *)
Ltac writes_step :=
  first
    [ apply writes_correct_side; simpl; tauto
    | apply writes_set_col; simpl; tauto
    | apply writes_set_col_scalar; simpl; tauto
    | apply writes_set_loc; simpl; tauto
    | apply keeps_get_state; apply same_outside_refl
    | apply writes_bind; [|intros ?]
    | apply (writes_pure _ (fun _ => _)) ].

Lemma mids_and_spreads_writes : keeps (same_outside derived_columns) mids_and_spreads.
Proof. unfold mids_and_spreads, col, loc, len. repeat writes_step. Qed.

Lemma cubic_spline_correction_writes fut :
  keeps (same_outside derived_columns) (cubic_spline_correction fut).
Proof.
  unfold cubic_spline_correction, atm_strike, col, loc, len, ret.
  repeat writes_step.
Qed.

Lemma contribution_price_writes atm :
  keeps (same_outside derived_columns) (contribution_price atm).
Proof. unfold contribution_price, col, loc, len. repeat writes_step. Qed.

Lemma strike_spacing_writes : keeps (same_outside derived_columns) strike_spacing.
Proof. unfold strike_spacing, col, loc, len. repeat writes_step. Qed.

Lemma compute_sigma_writes exp mte fut ir :
  keeps (same_outside derived_columns) (compute_sigma exp mte fut ir).
Proof.
  unfold compute_sigma.
  apply writes_bind; [apply mids_and_spreads_writes|]. intros _.
  apply writes_bind; [apply cubic_spline_correction_writes|]. intros atm.
  apply writes_bind; [apply contribution_price_writes|]. intros _.
  apply writes_bind; [apply strike_spacing_writes|]. intros _.
  unfold col, lift, ret. repeat writes_step.
Qed.

(** ** Running [vix_calculator] *)

Section Blend.

Variables exp sqrt : Q -> Q.

Lemma on_fst_run {S1 S2 A} (m : M S1 A) (s : S1 * S2) s1 r :
  m (fst s) = (s1, r) -> on_fst m s = ((s1, snd s), r).
Proof. intros H. unfold on_fst. by rewrite H. Qed.

Lemma on_snd_run {S1 S2 A} (m : M S2 A) (s : S1 * S2) s2 r :
  m (snd s) = (s2, r) -> on_snd m s = ((fst s, s2), r).
Proof. intros H. unfold on_snd. by rewrite H. Qed.

Lemma vix_calculator_run data s d1 d2 sigma_1 sigma_2 :
  compute_sigma exp (mte_1 data) (fut_1 data) (ir_1 data) (fst s)
  = (d1, Returned sigma_1) ->
  compute_sigma exp (mte_2 data) (fut_2 data) (ir_2 data) (snd s)
  = (d2, Returned sigma_2) ->
  vix_calculator exp sqrt data s
  = ((d1, d2),
     if (mte_2 data - mte_1 data =? 0)%Z then Raised ZeroDivisionError
     else Returned (blend sqrt data sigma_1 sigma_2)).
Proof.
  intros H1 H2. unfold vix_calculator.
  rewrite (bind_returned _ _ _ _ _ (on_fst_run _ s _ _ H1)).
  rewrite (bind_returned _ _ _ _ _ (on_snd_run _ (d1, snd s) _ _ H2)).
  cbn [fst snd].
  do 3 (erewrite (bind_returned (lift _)); [|reflexivity]).
  unfold weight_1, weight_2, py_truediv, bind, lift, ret.
  destruct (mte_2 data - mte_1 data =? 0)%Z; reflexivity.
Qed.

Lemma vix_calculator_writes data : keeps both_same_outside (vix_calculator exp sqrt data).
Proof.
  assert (forall s, both_same_outside s s) as Hrefl
    by (intros s; split; apply same_outside_refl).
  assert (forall s1 s2 s3, both_same_outside s1 s2 -> both_same_outside s2 s3 ->
                           both_same_outside s1 s3) as Htrans.
  { intros s1 s2 s3 [H1 H2] [H3 H4].
    split; eapply same_outside_trans; eauto. }
  unfold vix_calculator.
  apply keeps_bind; [done| |intros sigma_1].
  { intros s. unfold on_fst.
    pose proof (compute_sigma_writes exp (mte_1 data) (fut_1 data) (ir_1 data)
                  (fst s)) as H.
    destruct (compute_sigma _ _ _ _ (fst s)) as [s1 r]. cbn [fst snd] in *.
    split; [done|apply same_outside_refl]. }
  apply keeps_bind; [done| |intros sigma_2].
  { intros s. unfold on_snd.
    pose proof (compute_sigma_writes exp (mte_2 data) (fut_2 data) (ir_2 data)
                  (snd s)) as H.
    destruct (compute_sigma _ _ _ _ (snd s)) as [s2 r]. cbn [fst snd] in *.
    split; [apply same_outside_refl|done]. }
  repeat (apply keeps_bind; [done|by apply keeps_lift|intros ?]).
  by apply keeps_ret.
Qed.

End Blend.

(** On a strip of positive increasing strikes with the futures price above
    the smallest and a time to expiry that is not zero, [compute_sigma]
    returns, and what it returns is a finite number. *)
Lemma compute_sigma_returns_finite (exp : Q -> Q) df ks mte fut ir :
  option_chain df ks -> (2 <= length ks)%nat ->
  strictly_increasing ks = true -> 0 < nth 0 ks 0 ->
  nth 0 ks 0 < fut -> (mte <> 0)%Z ->
  exists v, snd (compute_sigma exp mte fut ir df) = Returned (Fin v).
Proof.
  intros Hoc Hn Hs H0 Hf Hm.
  destruct (compute_sigma_run exp df ks mte fut ir Hoc Hs ltac:(lia) Hf)
    as (ca & cb & pa & pb & cm & pm & _ & _ & _ & _ & _ & _
        & Lcm & Lpm & Fcm & Fpm & Hrun).
  rewrite Hrun. cbn [snd].
  destruct (sigma_value_finite exp ks pm cm mte fut ir)
    as (s & _ & ->); try done.
  by eexists.
Qed.

(** The table [compute_sigma] leaves has the nine derived columns. *)
Lemma compute_sigma_adds_columns (exp : Q -> Q) df ks mte fut ir c :
  option_chain df ks -> strictly_increasing ks = true ->
  (0 < length ks)%nat -> nth 0 ks 0 < fut -> In c derived_columns ->
  exists m, cols (fst (compute_sigma exp mte fut ir df)) !! c = Some m.
Proof.
  intros Hoc Hs Hn Hf Hc.
  destruct (compute_sigma_run exp df ks mte fut ir Hoc Hs Hn Hf)
    as (ca & cb & pa & pb & cm & pm & _ & _ & _ & _ & _ & _
        & _ & _ & _ & _ & Hrun).
  rewrite Hrun. cbn [fst]. unfold final_frame. simpl in Hc.
  repeat (destruct Hc as [<-|Hc]; [eexists; lookup_col|]). done.
Qed.

(** * The claims *)

Lemma column_lookup df c s : cols df !! c = Some s -> column df c = s.
Proof. intros H. unfold column. by rewrite H. Qed.

(** Reading a column of the table [compute_sigma] leaves behind. *)
Ltac final_column :=
  cbn [fst]; apply column_lookup; unfold final_frame; lookup_col.

(** C1.  On a strip of two or more strictly increasing positive strikes, with
    the futures price above the smallest strike, a positive time to expiry
    and the corrected mids defined wherever the contribution price reads
    them, [compute_sigma] returns exactly
    [(2 * sum_i (delta_K_i / K_i^2) * exp(ir * T) * Q_i - (fut / ATM - 1)^2) / T]
    with [T = mte / 525600] and [Q_i] the put mid below the ATM strike, the
    call mid above it, and their average at it. *)
Theorem compute_sigma_variance_formula (exp : Q -> Q) df ks mte fut ir :
  option_chain df ks -> (2 <= length ks)%nat ->
  strictly_increasing ks = true -> 0 < nth 0 ks 0 ->
  nth 0 ks 0 < fut -> (0 < mte)%Z ->
  let run := compute_sigma exp mte fut ir df in
  let put_mid := column (fst run) "Put Mid" in
  let call_mid := column (fst run) "Call Mid" in
  prices_defined (spec_atm ks fut) ks put_mid call_mid = true ->
  exists v, snd run = Returned (Fin v) /\
            v == spec_variance exp ks put_mid call_mid mte fut ir.
Proof.
  intros Hoc Hn Hs H0 Hf Hm run put_mid call_mid Hdef.
  destruct (compute_sigma_run exp df ks mte fut ir Hoc Hs ltac:(lia) Hf)
    as (ca & cb & pa & pb & cm & pm & _ & _ & _ & _ & _ & _
        & Lcm & Lpm & Fcm & Fpm & Hrun).
  assert (put_mid = pm) as Epm by (unfold put_mid, run; rewrite Hrun; final_column).
  assert (call_mid = cm) as Ecm by (unfold call_mid, run; rewrite Hrun; final_column).
  rewrite Epm, Ecm in *. unfold run. rewrite Hrun. cbn [snd].
  destruct (sigma_value_finite exp ks pm cm mte fut ir)
    as (s & Hsum & ->); try done; try lia.
  destruct (contribution_sum exp ks pm cm (spec_atm ks fut) ir (year_fraction mte))
    as (s' & Hsum' & Hspec); try done.
  rewrite Hsum in Hsum'. injection Hsum' as <-.
  eexists. split; [reflexivity|].
  unfold spec_variance. fold (spec_contribution exp ks pm cm (spec_atm ks fut) ir).
  change (inject_Z mte / 525600) with (year_fraction mte).
  fold (spec_contribution exp ks pm cm (spec_atm ks fut) ir (year_fraction mte)).
  by rewrite Hspec.
Qed.

Lemma liquid_chain_is_option_chain : option_chain liquid_chain strikes_5.
Proof.
  unfold option_chain, has_column.
  repeat split; try reflexivity; eexists; split; try reflexivity.
Qed.

Lemma thin_put_chain_is_option_chain : option_chain thin_put_chain strikes_5.
Proof.
  unfold option_chain, has_column.
  repeat split; try reflexivity; eexists; split; try reflexivity.
Qed.

Lemma compute_sigma_variance_formula_witness :
  option_chain liquid_chain strikes_5 /\
  forall exp : Q -> Q,
    let run := compute_sigma exp 12960 125 (39 # 1000) liquid_chain in
    let put_mid := column (fst run) "Put Mid" in
    let call_mid := column (fst run) "Call Mid" in
    prices_defined 120 strikes_5 put_mid call_mid = true /\
    exists v, snd run = Returned (Fin v) /\
              v == spec_variance exp strikes_5 put_mid call_mid 12960 125 (39 # 1000).
Proof.
  split; [apply liquid_chain_is_option_chain|].
  intros exp run put_mid call_mid.
  assert (prices_defined (spec_atm strikes_5 125) strikes_5 put_mid call_mid = true)
    as Hdef by (vm_compute; reflexivity).
  split; [exact Hdef|].
  apply (compute_sigma_variance_formula exp liquid_chain strikes_5 12960 125 (39 # 1000)).
  - apply liquid_chain_is_option_chain.
  - simpl. lia.
  - reflexivity.
  - reflexivity.
  - reflexivity.
  - lia.
  - exact Hdef.
Defined.

(** C2, as the code has it.  On a strip of two or more strictly increasing
    positive strikes, with the futures price above the smallest strike and a
    positive time to expiry: when fewer than three rows of a side have a
    spread ratio of at most 0.3, every mid of that side becomes undefined;
    but the sum of the contributions leaves the undefined ones out, and
    [compute_sigma] returns the finite number
    [(2 * s - (fut / ATM - 1)^2) / T], [s] being the sum of the defined
    contributions.  No condition is raised. *)
Theorem insufficient_quotes_give_a_finite_variance (exp : Q -> Q) df ks mte fut ir :
  option_chain df ks -> (2 <= length ks)%nat ->
  strictly_increasing ks = true -> 0 < nth 0 ks 0 ->
  nth 0 ks 0 < fut -> (0 < mte)%Z ->
  let run := compute_sigma exp mte fut ir df in
  let atm := spec_atm ks fut in
  let strike := map Fin ks in
  ((count_true (knot_mask (call_side (Fin atm) strike)
                  (column (fst run) "Call Spread")) < 3)%nat ->
   column (fst run) "Call Mid" = replicate (length ks) NaN) /\
  ((count_true (knot_mask (put_side (Fin atm) strike)
                  (column (fst run) "Put Spread")) < 3)%nat ->
   column (fst run) "Put Mid" = replicate (length ks) NaN) /\
  exists s,
    sum (column (fst run) "contribution") = Fin s /\
    snd run
    = Returned (Fin ((2 * s - (fut / atm - 1) * (fut / atm - 1))
                     / year_fraction mte)).
Proof.
  intros Hoc Hn Hs H0 Hf Hm run atm strike.
  destruct (compute_sigma_run exp df ks mte fut ir Hoc Hs ltac:(lia) Hf)
    as (ca & cb & pa & pb & cm & pm & _ & _ & _ & _ & Hcm & Hpm
        & Lcm & Lpm & Fcm & Fpm & Hrun).
  unfold run. rewrite Hrun. cbn [snd].
  rewrite (column_lookup _ "Call Spread" (spread_column ca cb))
    by (cbn [fst]; unfold final_frame; lookup_col).
  rewrite (column_lookup _ "Put Spread" (spread_column pa pb))
    by (cbn [fst]; unfold final_frame; lookup_col).
  rewrite (column_lookup _ "Call Mid" cm)
    by (cbn [fst]; unfold final_frame; lookup_col).
  rewrite (column_lookup _ "Put Mid" pm)
    by (cbn [fst]; unfold final_frame; lookup_col).
  rewrite (column_lookup _ "contribution"
             (contribution_column exp (map Fin ks) (spacing_column (map Fin ks))
                (price_column (Fin (spec_atm ks fut)) (map Fin ks) pm cm)
                ir (year_fraction mte)))
    by (cbn [fst]; unfold final_frame; lookup_col).
  split; [|split].
  - intros Hfew. rewrite corrected_too_few in Hcm by exact Hfew.
    rewrite length_map in Hcm. by injection Hcm as <-.
  - intros Hfew. rewrite corrected_too_few in Hpm by exact Hfew.
    rewrite length_map in Hpm. by injection Hpm as <-.
  - destruct (sigma_value_finite exp ks pm cm mte fut ir)
      as (s & Hsum & ->); try done; try lia.
    by exists s.
Qed.

Lemma insufficient_quotes_give_a_finite_variance_witness :
  option_chain thin_put_chain strikes_5 /\
  forall exp : Q -> Q,
    let run := compute_sigma exp 12960 125 (39 # 1000) thin_put_chain in
    ((count_true (knot_mask (call_side (Fin 120) (map Fin strikes_5))
                    (column (fst run) "Call Spread")) < 3)%nat ->
     column (fst run) "Call Mid" = replicate 5 NaN) /\
    ((count_true (knot_mask (put_side (Fin 120) (map Fin strikes_5))
                    (column (fst run) "Put Spread")) < 3)%nat ->
     column (fst run) "Put Mid" = replicate 5 NaN) /\
    exists s,
      sum (column (fst run) "contribution") = Fin s /\
      snd run
      = Returned (Fin ((2 * s - (125 / 120 - 1) * (125 / 120 - 1))
                       / year_fraction 12960)).
Proof.
  split; [apply thin_put_chain_is_option_chain|].
  intros exp.
  apply (insufficient_quotes_give_a_finite_variance
           exp thin_put_chain strikes_5 12960 125 (39 # 1000)).
  - apply thin_put_chain_is_option_chain.
  - simpl. lia.
  - reflexivity.
  - reflexivity.
  - reflexivity.
  - lia.
Defined.

(** C2 fails as stated: with only two reliable puts at or below the ATM
    strike, the put mids are all undefined and [compute_sigma] still returns
    a finite number. *)
Lemma thin_put_side_returns_a_finite_number :
  count_true
    (knot_mask (put_side (Fin 120) (column thin_put_chain "Strike"))
       (spread_column (column thin_put_chain "Put Ask")
          (column thin_put_chain "Put Bid"))) = 2%nat /\
  forall exp : Q -> Q,
    let run := compute_sigma exp 12960 125 (39 # 1000) thin_put_chain in
    column (fst run) "Put Mid" = replicate 5 NaN /\
    exists v, snd run = Returned (Fin v).
Proof.
  split; [vm_compute; reflexivity|].
  intros exp run. split; [vm_compute; reflexivity|].
  apply (compute_sigma_returns_finite exp thin_put_chain strikes_5);
    [apply thin_put_chain_is_option_chain|simpl; lia|reflexivity|reflexivity
    |reflexivity|discriminate].
Qed.

(** C3, as the code has it.  [vix_calculator] does not look at how the two
    times to expiry lie around 30 days.  Once both variances are computed,
    equal times to expiry make Python's division raise [ZeroDivisionError];
    any two different times to expiry make it return
    [100 * sqrt((525600 / 43200) * (T_1 * sigma_1 * w_1 + T_2 * sigma_2 * w_2))],
    also when the weights [w_1], [w_2] extrapolate. *)
Theorem vix_calculator_expiry_spacing (exp sqrt : Q -> Q) data
    (s : DataFrame * DataFrame) sigma_1 sigma_2 :
  let run_1 := compute_sigma exp (mte_1 data) (fut_1 data) (ir_1 data) (fst s) in
  let run_2 := compute_sigma exp (mte_2 data) (fut_2 data) (ir_2 data) (snd s) in
  snd run_1 = Returned sigma_1 -> snd run_2 = Returned sigma_2 ->
  (mte_1 data = mte_2 data ->
   vix_calculator exp sqrt data s
   = ((fst run_1, fst run_2), Raised ZeroDivisionError)) /\
  (mte_1 data <> mte_2 data ->
   vix_calculator exp sqrt data s
   = ((fst run_1, fst run_2), Returned (blend sqrt data sigma_1 sigma_2))).
Proof.
  intros run_1 run_2 H1 H2.
  rewrite (vix_calculator_run exp sqrt data s (fst run_1) (fst run_2) sigma_1 sigma_2).
  - split; intros H.
    + by replace (mte_2 data - mte_1 data =? 0)%Z with true
        by (symmetry; apply Z.eqb_eq; lia).
    + by replace (mte_2 data - mte_1 data =? 0)%Z with false
        by (symmetry; apply Z.eqb_neq; lia).
  - by rewrite <- H1, <- surjective_pairing.
  - by rewrite <- H2, <- surjective_pairing.
Qed.

Lemma vix_calculator_expiry_spacing_witness :
  mte_1 bracketing_data <> mte_2 bracketing_data /\
  forall exp sqrt : Q -> Q,
    let s := (liquid_chain, liquid_chain) in
    let run_1 := compute_sigma exp 12960 125 (39 # 1000) liquid_chain in
    let run_2 := compute_sigma exp 53280 125 (465 # 10000) liquid_chain in
    exists sigma_1 sigma_2,
      snd run_1 = Returned sigma_1 /\ snd run_2 = Returned sigma_2 /\
      vix_calculator exp sqrt bracketing_data s
      = ((fst run_1, fst run_2),
         Returned (blend sqrt bracketing_data sigma_1 sigma_2)).
Proof.
  split; [discriminate|].
  intros exp sqrt s run_1 run_2.
  destruct (compute_sigma_returns_finite exp liquid_chain strikes_5
              12960 125 (39 # 1000)) as [v_1 E1];
    [apply liquid_chain_is_option_chain|simpl; lia|reflexivity|reflexivity
    |reflexivity|discriminate|].
  destruct (compute_sigma_returns_finite exp liquid_chain strikes_5
              53280 125 (465 # 10000)) as [v_2 E2];
    [apply liquid_chain_is_option_chain|simpl; lia|reflexivity|reflexivity
    |reflexivity|discriminate|].
  exists (Fin v_1), (Fin v_2). split; [exact E1|]. split; [exact E2|].
  apply (vix_calculator_expiry_spacing exp sqrt bracketing_data s
           (Fin v_1) (Fin v_2) E1 E2).
  discriminate.
Defined.

(** C3 fails as stated: with both times to expiry beyond 30 days (so that
    [mte_1 >= 43200]), or with both before 30 days, [vix_calculator] raises
    nothing and returns the extrapolated value. *)
Lemma late_expiries_return_a_value :
  (MINUTES_IN_30_DAYS <= mte_1 late_data)%Z /\
  (mte_1 late_data < mte_2 late_data)%Z /\
  forall exp sqrt : Q -> Q,
    exists sigma_1 sigma_2,
      snd (vix_calculator exp sqrt late_data (liquid_chain, liquid_chain))
      = Returned (blend sqrt late_data (Fin sigma_1) (Fin sigma_2)).
Proof.
  split; [discriminate|]. split; [reflexivity|].
  intros exp sqrt.
  destruct (compute_sigma_returns_finite exp liquid_chain strikes_5
              50000 125 (39 # 1000)) as [v_1 E1];
    [apply liquid_chain_is_option_chain|simpl; lia|reflexivity|reflexivity
    |reflexivity|discriminate|].
  destruct (compute_sigma_returns_finite exp liquid_chain strikes_5
              60000 125 (465 # 10000)) as [v_2 E2];
    [apply liquid_chain_is_option_chain|simpl; lia|reflexivity|reflexivity
    |reflexivity|discriminate|].
  exists v_1, v_2.
  rewrite (vix_calculator_run exp sqrt late_data (liquid_chain, liquid_chain)
             (fst (compute_sigma exp 50000 125 (39 # 1000) liquid_chain))
             (fst (compute_sigma exp 60000 125 (465 # 10000) liquid_chain))
             (Fin v_1) (Fin v_2)).
  - reflexivity.
  - rewrite <- E1. apply surjective_pairing.
  - rewrite <- E2. apply surjective_pairing.
Qed.

(** C4.  For [mte_1 < 43200 < mte_2] the two blend weights are defined and
    sum to exactly 1. *)
Theorem blend_weights_sum_to_one (m1 m2 : Z) :
  (m1 < MINUTES_IN_30_DAYS)%Z -> (MINUTES_IN_30_DAYS < m2)%Z ->
  exists w1 w2,
    weight_1 m1 m2 = Returned w1 /\ weight_2 m1 m2 = Returned w2 /\
    w1 + w2 == 1.
Proof.
  intros H1 H2. unfold weight_1, weight_2, py_truediv.
  replace (m2 - m1 =? 0)%Z with false by (symmetry; apply Z.eqb_neq; lia).
  eexists. eexists. split; [reflexivity|]. split; [reflexivity|].
  assert (~ inject_Z (m2 - m1) == 0) as Hne.
  { intros E. unfold Qeq in E. simpl in E. lia. }
  assert (inject_Z (m2 - MINUTES_IN_30_DAYS) / inject_Z (m2 - m1)
          + inject_Z (MINUTES_IN_30_DAYS - m1) / inject_Z (m2 - m1)
          == (inject_Z (m2 - MINUTES_IN_30_DAYS) + inject_Z (MINUTES_IN_30_DAYS - m1))
             / inject_Z (m2 - m1)) as E by (field; exact Hne).
  rewrite E, <- inject_Z_plus.
  replace (m2 - MINUTES_IN_30_DAYS + (MINUTES_IN_30_DAYS - m1))%Z with (m2 - m1)%Z
    by lia.
  field. exact Hne.
Qed.

Lemma blend_weights_sum_to_one_witness :
  exists w1 w2,
    weight_1 12960 53280 = Returned w1 /\ weight_2 12960 53280 = Returned w2 /\
    w1 + w2 == 1.
Proof.
  apply (blend_weights_sum_to_one 12960 53280); reflexivity.
Defined.

Lemma atm_strike_state fut df : fst (atm_strike fut df) = df.
Proof.
  unfold atm_strike, bind, col, loc. by destruct (col_of df "Strike").
Qed.

(** When [cubic_spline_correction] returns, it returns what the lookup of
    lines 80-81 found. *)
Lemma cubic_spline_correction_inv fut df df' atm :
  cubic_spline_correction fut df = (df', Returned atm) ->
  atm_strike fut df = (df, Returned atm).
Proof.
  unfold cubic_spline_correction. intros H.
  apply bind_inv in H as (s1 & a & Ha & H).
  assert (s1 = df) as -> by (by rewrite <- (atm_strike_state fut df), Ha).
  repeat (apply bind_inv in H as (? & ? & _ & H)).
  unfold ret in H. by simplify_eq.
Qed.

(** C5.  On strikes sorted strictly ascending with the smallest strictly
    below the futures price, the ATM strike [cubic_spline_correction] selects
    is the largest strike strictly less than the futures price; when the
    futures price equals a strike of the grid, it is the strike just below
    that one. *)
Theorem atm_is_largest_strike_below_futures df ks fut :
  cols df !! "Strike" = Some (map Fin ks) ->
  strictly_increasing ks = true -> (0 < length ks)%nat -> nth 0 ks 0 < fut ->
  let atm := spec_atm ks fut in
  atm_strike fut df = (df, Returned (Fin atm)) /\
  (forall df' r, cubic_spline_correction fut df = (df', Returned r) -> r = Fin atm) /\
  In atm ks /\ atm < fut /\
  (forall k, In k ks -> k < fut -> k <= atm) /\
  (forall j, (S j < length ks)%nat -> nth (S j) ks 0 == fut -> atm = nth j ks 0).
Proof.
  intros Hk Hs Hn H0 atm.
  pose proof (atm_strike_run df ks fut Hk Hs Hn H0) as Hrun.
  split; [exact Hrun|]. split.
  { intros df' r H. apply cubic_spline_correction_inv in H.
    rewrite Hrun in H. by simplify_eq. }
  destruct (searchsorted_atm ks fut Hs Hn H0) as (Hpos & Hr & Hatm).
  destruct (searchsorted_spec ks fut Hs) as (_ & Hlo & Hhi).
  set (r := searchsorted (map Fin ks) (Fin fut)) in *.
  unfold atm. rewrite Hatm.
  split; [apply nth_In; lia|]. split; [apply Hlo; lia|]. split.
  - intros k Hin Hlt. apply (In_nth _ _ 0) in Hin as (i & Hi & <-).
    destruct (decide (r <= i)%nat) as [Hge|Hge].
    + specialize (Hhi i Hge Hi). lra.
    + apply strictly_increasing_nth_le; [done|lia|lia].
  - intros j Hj Heq. f_equal.
    destruct (decide (r <= j)%nat) as [Hge|Hge].
    + assert (fut <= nth j ks 0) by (apply Hhi; lia).
      assert (nth j ks 0 < nth (S j) ks 0)
        by (apply strictly_increasing_nth; [done|lia|lia]).
      lra.
    + destruct (decide (S j < r)%nat) as [Hlt|Hlt]; [|lia].
      specialize (Hlo (S j) Hlt). lra.
Qed.

Lemma atm_is_largest_strike_below_futures_witness :
  let atm := spec_atm strikes_5 130 in
  atm_strike 130 liquid_chain = (liquid_chain, Returned (Fin atm)) /\
  (forall df' r,
     cubic_spline_correction 130 liquid_chain = (df', Returned r) -> r = Fin atm) /\
  In atm strikes_5 /\ atm < 130 /\
  (forall k, In k strikes_5 -> k < 130 -> k <= atm) /\
  (forall j, (S j < length strikes_5)%nat -> nth (S j) strikes_5 0 == 130 ->
             atm = nth j strikes_5 0).
Proof.
  apply (atm_is_largest_strike_below_futures liquid_chain strikes_5 130).
  - reflexivity.
  - reflexivity.
  - simpl. lia.
  - reflexivity.
Defined.

(** C6.  On a grid of two or more strictly increasing strikes, the spacing
    lines 64-68 compute is the distance to the next strike in the first row,
    the distance to the previous strike in the last row, and half the sum of
    the two distances in between; it is the [delta_K] column of the table
    [compute_sigma] leaves. *)
Theorem delta_K_boundary_rule df ks :
  cols df !! "Strike" = Some (map Fin ks) -> length ks = nrows df ->
  (2 <= length ks)%nat -> strictly_increasing ks = true ->
  let delta_K := column (fst (strike_spacing df)) "delta_K" in
  let K i := nth i ks 0 in
  let n := length ks in
  snd (strike_spacing df) = Returned tt /\
  length delta_K = n /\
  feq (nth 0 delta_K NaN) (Fin (K 1%nat - K 0%nat)) /\
  feq (nth (n - 1) delta_K NaN) (Fin (K (n - 1)%nat - K (n - 2)%nat)) /\
  (forall i, (0 < i < n - 1)%nat ->
     feq (nth i delta_K NaN)
         (Fin ((Qabs (K i - K (i - 1)%nat) + Qabs (K (i + 1)%nat - K i)) / 2))) /\
  (forall (exp : Q -> Q) mte fut ir,
     option_chain df ks -> nth 0 ks 0 < fut ->
     column (fst (compute_sigma exp mte fut ir df)) "delta_K" = delta_K).
Proof.
  intros Hk Hlen Hn Hs delta_K K n.
  assert (delta_K = spacing_column (map Fin ks)) as ->.
  { unfold delta_K.
    rewrite (strike_spacing_run df (map Fin ks));
      [|done|by rewrite length_map|lia].
    cbn [fst]. apply column_lookup. lookup_col. }
  rewrite (strike_spacing_run df (map Fin ks));
    [|done|by rewrite length_map|lia].
  split; [done|].
  split; [by rewrite length_spacing_column, length_map|].
  split; [|split; [|split]].
  - destruct (spacing_column_nth ks 0 Hn ltac:(lia) Hs) as (d & -> & Hd).
    exact Hd.
  - destruct (spacing_column_nth ks (n - 1) Hn ltac:(unfold n; lia) Hs)
      as (d & -> & Hd).
    cbn [feq]. rewrite Hd. unfold spec_delta_K, n, K.
    replace (length ks - 1 =? 0)%nat with false
      by (symmetry; apply Nat.eqb_neq; lia).
    rewrite Nat.eqb_refl.
    replace (length ks - 1 - 1)%nat with (length ks - 2)%nat by lia. reflexivity.
  - intros i Hi.
    destruct (spacing_column_nth ks i Hn ltac:(unfold n in *; lia) Hs)
      as (d & -> & Hd).
    cbn [feq]. rewrite Hd. unfold spec_delta_K, n, K in *.
    replace (i =? 0)%nat with false by (symmetry; apply Nat.eqb_neq; lia).
    replace (i =? length ks - 1)%nat with false
      by (symmetry; apply Nat.eqb_neq; lia).
    replace (i + 1)%nat with (S i) by lia. reflexivity.
  - intros exp mte fut ir Hoc Hf.
    destruct (compute_sigma_run exp df ks mte fut ir Hoc Hs ltac:(lia) Hf)
      as (ca & cb & pa & pb & cm & pm & _ & _ & _ & _ & _ & _
          & _ & _ & _ & _ & Hrun).
    rewrite Hrun. final_column.
Qed.

Lemma delta_K_boundary_rule_witness :
  let delta_K := column (fst (strike_spacing liquid_chain)) "delta_K" in
  let K i := nth i strikes_5 0 in
  snd (strike_spacing liquid_chain) = Returned tt /\
  length delta_K = 5%nat /\
  feq (nth 0 delta_K NaN) (Fin (K 1%nat - K 0%nat)) /\
  feq (nth 4 delta_K NaN) (Fin (K 4%nat - K 3%nat)) /\
  (forall i, (0 < i < 4)%nat ->
     feq (nth i delta_K NaN)
         (Fin ((Qabs (K i - K (i - 1)%nat) + Qabs (K (i + 1)%nat - K i)) / 2))) /\
  (forall (exp : Q -> Q) mte fut ir,
     option_chain liquid_chain strikes_5 -> nth 0 strikes_5 0 < fut ->
     column (fst (compute_sigma exp mte fut ir liquid_chain)) "delta_K" = delta_K).
Proof.
  apply (delta_K_boundary_rule liquid_chain strikes_5).
  - reflexivity.
  - reflexivity.
  - simpl. lia.
  - reflexivity.
Defined.

(** The table [cubic_spline_correction] leaves when it returns. *)
Lemma cubic_spline_correction_returned df df' fut atm strike cs cm ps pm :
  cols df !! "Strike" = Some strike -> length strike = nrows df ->
  cols df !! "Call Spread" = Some cs -> cols df !! "Call Mid" = Some cm ->
  cols df !! "Put Spread" = Some ps -> cols df !! "Put Mid" = Some pm ->
  cubic_spline_correction fut df = (df', Returned atm) ->
  exists c p,
    corrected (call_side atm strike) strike cs cm = Returned c /\
    corrected (put_side atm strike) strike ps pm = Returned p /\
    column df' "Call Mid" = c /\ column df' "Put Mid" = p.
Proof.
  intros Hk Hlen Hcs Hcm Hps Hpm H.
  pose proof (cubic_spline_correction_inv _ _ _ _ H) as Hatm.
  rewrite (cubic_spline_correction_run df fut atm strike cs cm ps pm) in H by done.
  fold (call_side atm strike) (put_side atm strike) in H.
  destruct (corrected (call_side atm strike) strike cs cm) as [c|e]; [|done].
  destruct (corrected (put_side atm strike) strike ps pm) as [p|e]; [|done].
  exists c, p. simplify_eq. repeat split; apply column_lookup; lookup_col.
Qed.

Lemma corrected_no_extrapolation side strike spread mid c :
  corrected side strike spread mid = Returned c ->
  (3 <= count_true (knot_mask side spread))%nat ->
  spline_or_undefined side strike spread mid c.
Proof.
  intros Hc H3.
  destruct (corrected_spline _ _ _ _ _ Hc H3)
    as (xs & ys & Hx & Hy & Hl & H2 & Hinc & ->).
  exists xs, ys. repeat (split; [done|]).
  split; [by apply CubicSpline_returns|].
  cbv zeta. cbn [natural_spline ppoly_c].
  set (dx := np_diff xs). set (slope := zip_with Qdiv (np_diff ys) dx).
  set (s := solve_banded (natural_system dx slope ys)).
  assert (length dx = (length xs - 1)%nat) as Hdx by apply length_np_diff.
  assert (length slope = (length xs - 1)%nat) as Hsl.
  { unfold slope. rewrite length_zip_with, length_np_diff, Hdx. lia. }
  assert (length s = length xs) as Hlen.
  { unfold s. rewrite length_solve_natural; lia. }
  split; [rewrite length_hermite_coefficients; lia|].
  split.
  { intros j Hj. rewrite nth_hermite_coefficients by lia. cbv zeta.
    by eexists _, _, _. }
  intros i k Hk. rewrite lookup_map, Hk. cbn [fmap option_fmap option_map].
  rewrite ppoly_call_Fin. cbn [natural_spline ppoly_x]. unfold in_range.
  split.
  - intros Hout.
    replace (Qlt_bool k (hd 0 xs) || Qlt_bool (List.last xs 0) k) with true; [done|].
    symmetry. apply orb_true_iff.
    destruct Hout as [Hout|Hout]; [left|right]; by apply Qlt_bool_iff.
  - intros [Hlo Hhi].
    replace (Qlt_bool k (hd 0 xs) || Qlt_bool (List.last xs 0) k) with false.
    2:{ symmetry. apply orb_false_iff. split; by apply Qlt_bool_false. }
    destruct (find_interval_spec xs k H2 Hlo) as (Hj & Hleft & Hright).
    exists (find_interval xs k), (ppoly_value (natural_spline xs ys) k).
    repeat (split; [done|]).
    unfold ppoly_value. cbn [natural_spline ppoly_x ppoly_c]. fold dx slope s.
    destruct (nth (find_interval xs k) (hermite_coefficients dx slope s ys)
                (0, 0, 0, 0)) as [[[c0 c1] c2] c3].
    unfold eval_cubic, spec_cubic. ring.
Qed.

(** On the example chains the correction returns, with the strike 120. *)
Lemma priced_gap_chain_corrected :
  cubic_spline_correction 125 priced_gap_chain
  = (fst (cubic_spline_correction 125 priced_gap_chain), Returned (Fin 120)).
Proof.
  assert (snd (cubic_spline_correction 125 priced_gap_chain) = Returned (Fin 120))
    as E by (vm_compute; reflexivity).
  rewrite <- E. apply surjective_pairing.
Qed.


(** C7.  When [cubic_spline_correction] returns and a side has at least three
    rows with a spread ratio of at most 0.3, each row whose strike lies
    outside the range of that side's knot strikes gets an undefined mid for
    that side, and each row inside the range gets the value of the spline at
    its strike: the spline has one cubic piece per interval of neighbouring
    knots, each starting at the mid of its left knot, and the row gets the
    value [c3 + c2 d + c1 d^2 + c0 d^3] of the piece whose interval holds
    its strike, [d] being the distance of the strike from the piece's left
    knot. *)
Theorem no_extrapolation df df' fut atm strike cs cm ps pm :
  cols df !! "Strike" = Some strike -> length strike = nrows df ->
  cols df !! "Call Spread" = Some cs -> cols df !! "Call Mid" = Some cm ->
  cols df !! "Put Spread" = Some ps -> cols df !! "Put Mid" = Some pm ->
  cubic_spline_correction fut df = (df', Returned atm) ->
  ((3 <= count_true (knot_mask (call_side atm strike) cs))%nat ->
   spline_or_undefined (call_side atm strike) strike cs cm
     (column df' "Call Mid")) /\
  ((3 <= count_true (knot_mask (put_side atm strike) ps))%nat ->
   spline_or_undefined (put_side atm strike) strike ps pm
     (column df' "Put Mid")).
Proof.
  intros Hk Hlen Hcs Hcm Hps Hpm H.
  destruct (cubic_spline_correction_returned _ _ _ _ _ _ _ _ _
              Hk Hlen Hcs Hcm Hps Hpm H) as (c & p & Hc & Hp & -> & ->).
  split; intros H3; by apply corrected_no_extrapolation.
Qed.

Lemma no_extrapolation_witness :
  let df := priced_gap_chain in
  let df' := fst (cubic_spline_correction 125 df) in
  let strike := column df "Strike" in
  (3 <= count_true (knot_mask (call_side (Fin 120) strike)
                      (column df "Call Spread")))%nat /\
  (3 <= count_true (knot_mask (put_side (Fin 120) strike)
                      (column df "Put Spread")))%nat /\
  spline_or_undefined (call_side (Fin 120) strike) strike
    (column df "Call Spread") (column df "Call Mid") (column df' "Call Mid") /\
  spline_or_undefined (put_side (Fin 120) strike) strike
    (column df "Put Spread") (column df "Put Mid") (column df' "Put Mid") /\
  (* the row of the strike 130: on the call side, no knot, between the
     knots 120 and 140, and with a number for its new call mid *)
  strike !! 3%nat = Some (Fin 130) /\
  fle (nth 3 (column df "Call Spread") NaN) (Fin (3 # 10)) = false /\
  exists v, column df' "Call Mid" !! 3%nat = Some (Fin v).
Proof.
  intros df df' strike.
  assert (3 <= count_true (knot_mask (call_side (Fin 120) strike)
                             (column df "Call Spread")))%nat as Hcall
    by (vm_compute; lia).
  assert (3 <= count_true (knot_mask (put_side (Fin 120) strike)
                             (column df "Put Spread")))%nat as Hput
    by (vm_compute; lia).
  split; [exact Hcall|]. split; [exact Hput|].
  destruct (no_extrapolation df df' 125 (Fin 120) strike
              (column df "Call Spread") (column df "Call Mid")
              (column df "Put Spread") (column df "Put Mid")) as [H1 H2].
  - reflexivity.
  - reflexivity.
  - reflexivity.
  - reflexivity.
  - reflexivity.
  - reflexivity.
  - apply priced_gap_chain_corrected.
  - specialize (H1 Hcall). specialize (H2 Hput).
    split; [exact H1|]. split; [exact H2|].
    split; [reflexivity|]. split; [reflexivity|].
    destruct H1 as (xs & ys & Hx & _ & _ & _ & _ & _ & Hrow).
    assert (xs = [120; 140; 150]) as ->.
    { assert (select (knot_mask (call_side (Fin 120) strike)
                        (column df "Call Spread"))
                (select (call_side (Fin 120) strike) strike)
              = map Fin [120; 140; 150]) as E by reflexivity.
      rewrite E in Hx. clear -Hx.
      destruct xs as [|a [|b [|c [|d xs]]]]; simpl in Hx; try discriminate Hx.
      by injection Hx as <- <- <-. }
    destruct (Hrow 3%nat 130 ltac:(reflexivity)) as [_ Hin].
    destruct Hin as (j & v & _ & _ & _ & Hv & _); [split; by vm_compute|].
    by exists v.
Defined.




(** C9, as the code has it.  [vix_calculator] works on the caller's two
    tables in place.  Whether it returns or raises, each table keeps its row
    count and every column other than the nine derived ones ([Call Mid],
    [Put Mid], [Call Spread], [Put Spread], [Q], [diff_K_upper],
    [diff_K_lower], [delta_K], [contribution]), which it adds or replaces;
    in particular the five quote columns are unchanged. *)
Theorem vix_calculator_frame (exp sqrt : Q -> Q) data (s : DataFrame * DataFrame) :
  let s' := fst (vix_calculator exp sqrt data s) in
  same_outside derived_columns (fst s) (fst s') /\
  same_outside derived_columns (snd s) (snd s') /\
  forall c, In c quote_columns ->
    cols (fst s') !! c = cols (fst s) !! c /\
    cols (snd s') !! c = cols (snd s) !! c.
Proof.
  intros s'. destruct (vix_calculator_writes exp sqrt data s) as [H1 H2].
  fold s' in H1, H2. split; [exact H1|]. split; [exact H2|].
  intros c Hc.
  assert (~ In c derived_columns) as Hnot.
  { simpl in Hc. simpl. intros Hd.
    repeat (destruct Hc as [<-|Hc]; [intuition discriminate|]). done. }
  split; [by apply H1|by apply H2].
Qed.

(** C9 fails as stated: after the call, the caller's tables have columns
    they did not have before. *)
Lemma vix_calculator_adds_columns :
  cols liquid_chain !! "Call Mid" = None /\
  cols liquid_chain !! "contribution" = None /\
  forall exp sqrt : Q -> Q,
    let s' := fst (vix_calculator exp sqrt bracketing_data
                     (liquid_chain, liquid_chain)) in
    (exists m, cols (fst s') !! "Call Mid" = Some m) /\
    (exists m, cols (snd s') !! "contribution" = Some m) /\
    fst s' <> liquid_chain /\ snd s' <> liquid_chain.
Proof.
  split; [reflexivity|]. split; [reflexivity|].
  intros exp sqrt s'.
  destruct (compute_sigma_returns_finite exp liquid_chain strikes_5
              12960 125 (39 # 1000)) as [v_1 E1];
    [apply liquid_chain_is_option_chain|simpl; lia|reflexivity|reflexivity
    |reflexivity|discriminate|].
  destruct (compute_sigma_returns_finite exp liquid_chain strikes_5
              53280 125 (465 # 10000)) as [v_2 E2];
    [apply liquid_chain_is_option_chain|simpl; lia|reflexivity|reflexivity
    |reflexivity|discriminate|].
  assert (s' = (fst (compute_sigma exp 12960 125 (39 # 1000) liquid_chain),
                fst (compute_sigma exp 53280 125 (465 # 10000) liquid_chain)))
    as ->.
  { unfold s'.
    rewrite (vix_calculator_run exp sqrt bracketing_data
               (liquid_chain, liquid_chain)
               (fst (compute_sigma exp 12960 125 (39 # 1000) liquid_chain))
               (fst (compute_sigma exp 53280 125 (465 # 10000) liquid_chain))
               (Fin v_1) (Fin v_2));
      [reflexivity| |].
    - rewrite <- E1. apply surjective_pairing.
    - rewrite <- E2. apply surjective_pairing. }
  cbn [fst snd].
  assert (exists m, cols (fst (compute_sigma exp 12960 125 (39 # 1000)
                                 liquid_chain)) !! "Call Mid" = Some m) as H1.
  { apply (compute_sigma_adds_columns exp liquid_chain strikes_5);
      [apply liquid_chain_is_option_chain|reflexivity|simpl; lia|reflexivity
      |simpl; tauto]. }
  assert (exists m, cols (fst (compute_sigma exp 53280 125 (465 # 10000)
                                 liquid_chain)) !! "contribution" = Some m) as H2.
  { apply (compute_sigma_adds_columns exp liquid_chain strikes_5);
      [apply liquid_chain_is_option_chain|reflexivity|simpl; lia|reflexivity
      |simpl; tauto]. }
  split; [exact H1|]. split; [exact H2|].
  split; intros E; rewrite E in *.
  - destruct H1 as [m Hm]. vm_compute in Hm. discriminate Hm.
  - destruct H2 as [m Hm]. vm_compute in Hm. discriminate Hm.
Qed.

(** C10.  On strictly increasing strikes whose smallest is at or above the
    futures price, the insertion search answers position 0, the ATM label is
    -1, and the row lookup raises: [cubic_spline_correction],
    [compute_sigma] and [vix_calculator] raise the row [KeyError] instead of
    returning.  With the smallest strike strictly below the futures price the
    lookup returns a strike. *)
Theorem futures_not_above_smallest_strike_raises df ks fut :
  cols df !! "Strike" = Some (map Fin ks) ->
  strictly_increasing ks = true -> fut <= nth 0 ks 0 ->
  searchsorted (map Fin ks) (Fin fut) = 0%nat /\
  atm_strike fut df = (df, Raised (KeyError_row (-1))) /\
  cubic_spline_correction fut df = (df, Raised (KeyError_row (-1))) /\
  (forall (exp : Q -> Q) mte ir,
     option_chain df ks ->
     snd (compute_sigma exp mte fut ir df) = Raised (KeyError_row (-1))) /\
  (forall (exp sqrt : Q -> Q) data df_2,
     option_chain df ks -> fut_1 data = fut ->
     snd (vix_calculator exp sqrt data (df, df_2)) = Raised (KeyError_row (-1))) /\
  (forall (exp sqrt : Q -> Q) data df_1 sigma_1,
     option_chain df ks -> fut_2 data = fut ->
     snd (compute_sigma exp (mte_1 data) (fut_1 data) (ir_1 data) df_1)
     = Returned sigma_1 ->
     snd (vix_calculator exp sqrt data (df_1, df)) = Raised (KeyError_row (-1))) /\
  (forall fut', (0 < length ks)%nat -> nth 0 ks 0 < fut' ->
     exists k, atm_strike fut' df = (df, Returned (Fin k))).
Proof.
  intros Hk Hs H0.
  pose proof (atm_strike_raises df ks fut Hk Hs H0) as Hraise.
  split.
  { destruct (searchsorted_spec ks fut Hs) as (_ & Hlo & _).
    destruct (searchsorted (map Fin ks) (Fin fut)) as [|r]; [done|].
    specialize (Hlo 0%nat ltac:(lia)). lra. }
  split; [exact Hraise|]. split.
  { unfold cubic_spline_correction.
    by rewrite (bind_raised _ _ _ _ _ Hraise). }
  assert (forall (exp : Q -> Q) mte ir,
            option_chain df ks ->
            snd (compute_sigma exp mte fut ir df) = Raised (KeyError_row (-1)))
    as Hsigma.
  { intros exp mte ir (_ & Hlen & (cb & Hcb & Lcb) & (ca & Hca & Lca)
                       & (pb & Hpb & Lpb) & (pa & Hpa & Lpa)).
    unfold compute_sigma.
    rewrite (bind_returned _ _ _ _ _
               (mids_and_spreads_run df ca cb pa pb Hca Hcb Hpa Hpb Lca Lcb Lpa Lpb)).
    erewrite (bind_raised (cubic_spline_correction fut)); [reflexivity|].
    unfold cubic_spline_correction.
    erewrite (bind_raised (atm_strike fut)); [reflexivity|].
    apply (atm_strike_raises _ ks); [lookup_col|done|done]. }
  split; [exact Hsigma|]. split; [|split].
  - intros exp sqrt data df_2 Hoc Hfut. unfold vix_calculator.
    specialize (Hsigma exp (mte_1 data) (ir_1 data) Hoc).
    rewrite <- Hfut in Hsigma.
    unfold bind, on_fst. cbn [fst snd].
    destruct (compute_sigma exp (mte_1 data) (fut_1 data) (ir_1 data) df)
      as [d1 r1]. cbn [snd] in Hsigma. by subst r1.
  - intros exp sqrt data df_1 sigma_1 Hoc Hfut H1. unfold vix_calculator.
    specialize (Hsigma exp (mte_2 data) (ir_2 data) Hoc).
    rewrite <- Hfut in Hsigma.
    unfold bind, on_fst, on_snd. cbn [fst snd].
    destruct (compute_sigma exp (mte_1 data) (fut_1 data) (ir_1 data) df_1)
      as [d1 r1]. cbn [snd] in H1. subst r1. cbn [fst snd].
    destruct (compute_sigma exp (mte_2 data) (fut_2 data) (ir_2 data) df)
      as [d2 r2]. cbn [snd] in Hsigma. by subst r2.
  - intros fut' Hn Hf. eexists. by apply (atm_strike_run df ks fut').
Qed.

Lemma futures_not_above_smallest_strike_raises_witness :
  searchsorted (map Fin strikes_5) (Fin 100) = 0%nat /\
  atm_strike 100 liquid_chain = (liquid_chain, Raised (KeyError_row (-1))) /\
  cubic_spline_correction 100 liquid_chain
  = (liquid_chain, Raised (KeyError_row (-1))) /\
  (forall (exp : Q -> Q) mte ir,
     option_chain liquid_chain strikes_5 ->
     snd (compute_sigma exp mte 100 ir liquid_chain) = Raised (KeyError_row (-1))) /\
  (forall (exp sqrt : Q -> Q) data df_2,
     option_chain liquid_chain strikes_5 -> fut_1 data = 100 ->
     snd (vix_calculator exp sqrt data (liquid_chain, df_2))
     = Raised (KeyError_row (-1))) /\
  (forall (exp sqrt : Q -> Q) data df_1 sigma_1,
     option_chain liquid_chain strikes_5 -> fut_2 data = 100 ->
     snd (compute_sigma exp (mte_1 data) (fut_1 data) (ir_1 data) df_1)
     = Returned sigma_1 ->
     snd (vix_calculator exp sqrt data (df_1, liquid_chain))
     = Raised (KeyError_row (-1))) /\
  (forall fut', (0 < length strikes_5)%nat -> nth 0 strikes_5 0 < fut' ->
     exists k, atm_strike fut' liquid_chain = (liquid_chain, Returned (Fin k))).
Proof.
  apply (futures_not_above_smallest_strike_raises liquid_chain strikes_5 100).
  - reflexivity.
  - reflexivity.
  - discriminate.
Defined.

(** * Further properties of the program *)

(** ** The value depends on the quote columns only *)

Lemma option_chain_columns df ks :
  option_chain df ks ->
  exists ca cb pa pb,
    cols df !! "Call Ask" = Some ca /\ cols df !! "Call Bid" = Some cb /\
    cols df !! "Put Ask" = Some pa /\ cols df !! "Put Bid" = Some pb /\
    length ca = nrows df /\ length cb = nrows df /\
    length pa = nrows df /\ length pb = nrows df.
Proof.
  intros (_ & _ & (cb & Hcb & Lcb) & (ca & Hca & Lca)
          & (pb & Hpb & Lpb) & (pa & Hpa & Lpa)).
  by exists ca, cb, pa, pb.
Qed.

(** [compute_sigma_run] with the quote columns named by the caller. *)
Lemma compute_sigma_run_with (exp : Q -> Q) df ks ca cb pa pb mte fut ir :
  option_chain df ks -> strictly_increasing ks = true ->
  (0 < length ks)%nat -> nth 0 ks 0 < fut ->
  cols df !! "Call Ask" = Some ca -> cols df !! "Call Bid" = Some cb ->
  cols df !! "Put Ask" = Some pa -> cols df !! "Put Bid" = Some pb ->
  let atm := Fin (spec_atm ks fut) in
  let strike := map Fin ks in
  exists cm pm,
    corrected (call_side atm strike) strike
      (spread_column ca cb) (mid_column ca cb) = Returned cm /\
    corrected (put_side atm strike) strike
      (spread_column pa pb) (mid_column pa pb) = Returned pm /\
    length cm = length ks /\ length pm = length ks /\
    compute_sigma exp mte fut ir df
    = (final_frame exp df strike ca cb pa pb cm pm atm ir (year_fraction mte),
       Returned
         (sigma_value
            (contribution_column exp strike (spacing_column strike)
               (price_column atm strike pm cm) ir (year_fraction mte))
            fut atm (year_fraction mte))).
Proof.
  intros Hoc Hs Hn Hf Hca Hcb Hpa Hpb atm strike.
  destruct (compute_sigma_run exp df ks mte fut ir Hoc Hs Hn Hf)
    as (ca' & cb' & pa' & pb' & cm & pm & Hca' & Hcb' & Hpa' & Hpb'
        & Hcm & Hpm & Lcm & Lpm & _ & _ & Hrun).
  simplify_eq. by exists cm, pm.
Qed.

(** X1. Two option chains that agree on the five quote columns (Strike, Call
    Bid, Call Ask, Put Bid, Put Ask) give the same returned variance and the
    same nine derived columns, whatever other columns they carry, stale Mid
    or Spread columns included. *)
Theorem compute_sigma_reads_only_the_quotes (exp : Q -> Q) df_1 df_2 ks mte fut ir :
  option_chain df_1 ks -> option_chain df_2 ks ->
  (forall c, In c quote_columns -> cols df_1 !! c = cols df_2 !! c) ->
  strictly_increasing ks = true -> (0 < length ks)%nat -> nth 0 ks 0 < fut ->
  let run_1 := compute_sigma exp mte fut ir df_1 in
  let run_2 := compute_sigma exp mte fut ir df_2 in
  snd run_1 = snd run_2 /\
  forall c, In c derived_columns -> cols (fst run_1) !! c = cols (fst run_2) !! c.
Proof.
  intros Hoc1 Hoc2 Hsame Hs Hn Hf run_1 run_2.
  destruct (option_chain_columns df_1 ks Hoc1)
    as (ca & cb & pa & pb & Hca & Hcb & Hpa & Hpb & _).
  assert (cols df_2 !! "Call Ask" = Some ca) as Hca2
    by (rewrite <- Hsame; [done|simpl; tauto]).
  assert (cols df_2 !! "Call Bid" = Some cb) as Hcb2
    by (rewrite <- Hsame; [done|simpl; tauto]).
  assert (cols df_2 !! "Put Ask" = Some pa) as Hpa2
    by (rewrite <- Hsame; [done|simpl; tauto]).
  assert (cols df_2 !! "Put Bid" = Some pb) as Hpb2
    by (rewrite <- Hsame; [done|simpl; tauto]).
  destruct (compute_sigma_run_with exp df_1 ks ca cb pa pb mte fut ir)
    as (cm & pm & Hcm & Hpm & _ & _ & Hrun1); try done.
  destruct (compute_sigma_run_with exp df_2 ks ca cb pa pb mte fut ir)
    as (cm' & pm' & Hcm' & Hpm' & _ & _ & Hrun2); try done.
  rewrite Hcm in Hcm'. rewrite Hpm in Hpm'. simplify_eq.
  unfold run_1, run_2. rewrite Hrun1, Hrun2. split; [done|].
  intros c Hc. cbn [fst]. unfold final_frame. simpl in Hc.
  repeat (destruct Hc as [<-|Hc];
          [etransitivity; [lookup_col|symmetry; lookup_col]|]).
  done.
Qed.

(** Writing the nine derived columns a second time changes nothing. *)
Lemma final_frame_again (exp : Q -> Q) df strike ca cb pa pb cm pm atm ir T :
  final_frame exp (final_frame exp df strike ca cb pa pb cm pm atm ir T)
    strike ca cb pa pb cm pm atm ir T
  = final_frame exp df strike ca cb pa pb cm pm atm ir T.
Proof.
  unfold final_frame. cbn [nrows cols]. f_equal.
  apply map_eq. intros c.
  destruct (decide (In c derived_columns)) as [Hc|Hc].
  - simpl in Hc.
    repeat (destruct Hc as [<-|Hc];
            [etransitivity; [lookup_col|symmetry; lookup_col]|]).
    done.
  - simpl in Hc. rewrite !lookup_insert_ne by (intros <-; tauto). done.
Qed.

Lemma final_frame_option_chain (exp : Q -> Q) df ks ca cb pa pb cm pm atm ir T :
  option_chain df ks ->
  option_chain (final_frame exp df (map Fin ks) ca cb pa pb cm pm atm ir T) ks.
Proof.
  intros (Hk & Hlen & (cb' & Hcb & Lcb) & (ca' & Hca & Lca)
          & (pb' & Hpb & Lpb) & (pa' & Hpa & Lpa)).
  unfold option_chain, has_column, final_frame. cbn [nrows cols].
  split; [lookup_col|]. split; [done|].
  repeat split; eexists; (split; [lookup_col|done]).
Qed.

(** X2. Running compute_sigma a second time on the table its first run left
    behind, with the same arguments, returns the same value and leaves the
    table as it is: the corrected mids of the first run are recomputed from
    the quotes, not fed back into the spline. *)
Theorem compute_sigma_twice (exp : Q -> Q) df ks mte fut ir :
  option_chain df ks -> strictly_increasing ks = true ->
  (0 < length ks)%nat -> nth 0 ks 0 < fut ->
  let run := compute_sigma exp mte fut ir df in
  compute_sigma exp mte fut ir (fst run) = run.
Proof.
  intros Hoc Hs Hn Hf run.
  destruct (option_chain_columns df ks Hoc)
    as (ca & cb & pa & pb & Hca & Hcb & Hpa & Hpb & _).
  destruct (compute_sigma_run_with exp df ks ca cb pa pb mte fut ir)
    as (cm & pm & Hcm & Hpm & _ & _ & Hrun); try done.
  unfold run. rewrite Hrun. cbn [fst].
  destruct (compute_sigma_run_with exp
              (final_frame exp df (map Fin ks) ca cb pa pb cm pm
                 (Fin (spec_atm ks fut)) ir (year_fraction mte))
              ks ca cb pa pb mte fut ir)
    as (cm' & pm' & Hcm' & Hpm' & _ & _ & Hrun'); try done.
  - by apply final_frame_option_chain.
  - unfold final_frame. lookup_col.
  - unfold final_frame. lookup_col.
  - unfold final_frame. lookup_col.
  - unfold final_frame. lookup_col.
  - rewrite Hcm in Hcm'. rewrite Hpm in Hpm'. simplify_eq.
    rewrite Hrun'. by rewrite final_frame_again.
Qed.

Lemma compute_sigma_twice_witness :
  option_chain liquid_chain strikes_5 /\
  forall exp : Q -> Q,
    let run := compute_sigma exp 12960 125 (39 # 1000) liquid_chain in
    compute_sigma exp 12960 125 (39 # 1000) (fst run) = run.
Proof.
  split; [apply liquid_chain_is_option_chain|].
  intros exp.
  apply (compute_sigma_twice exp liquid_chain strikes_5 12960 125 (39 # 1000)).
  - apply liquid_chain_is_option_chain.
  - reflexivity.
  - simpl. lia.
  - reflexivity.
Defined.

(** ** Which exceptions [compute_sigma] raises *)




(** ** A table without its quote columns *)

(** X4. A table without a quote column makes compute_sigma raise the
    KeyError of the first missing column in the order Call Ask, Call Bid,
    Put Ask, Put Bid; the table is untouched when a call column is missing
    and has already received the Call Mid column when a put column is
    missing. *)
Theorem compute_sigma_missing_quote_column (exp : Q -> Q) df mte fut ir :
  let run := compute_sigma exp mte fut ir df in
  (cols df !! "Call Ask" = None ->
   run = (df, Raised (KeyError_column "Call Ask"))) /\
  (has_column df "Call Ask" -> cols df !! "Call Bid" = None ->
   run = (df, Raised (KeyError_column "Call Bid"))) /\
  (forall ca cb,
     cols df !! "Call Ask" = Some ca -> cols df !! "Call Bid" = Some cb ->
     length ca = nrows df -> length cb = nrows df ->
     cols df !! "Put Ask" = None ->
     run = (mkDataFrame (nrows df) (<["Call Mid" := mid_column ca cb]> (cols df)),
            Raised (KeyError_column "Put Ask"))) /\
  (forall ca cb,
     cols df !! "Call Ask" = Some ca -> cols df !! "Call Bid" = Some cb ->
     length ca = nrows df -> length cb = nrows df ->
     has_column df "Put Ask" -> cols df !! "Put Bid" = None ->
     run = (mkDataFrame (nrows df) (<["Call Mid" := mid_column ca cb]> (cols df)),
            Raised (KeyError_column "Put Bid"))).
Proof.
  intros run. unfold run, compute_sigma, mids_and_spreads.
  split; [|split; [|split]].
  - intros H. unfold bind, col, col_of. by rewrite H.
  - intros (ca & Hca & _) H. unfold bind, col, col_of. by rewrite Hca, H.
  - intros ca cb Hca Hcb Lca Lcb H.
    unfold bind at 1.
    run_col. run_col.
    run_set_col; [|unfold mid_column; series_length].
    unfold bind, col, col_of. cbn [cols].
    rewrite lookup_insert_ne by done. by rewrite H.
  - intros ca cb Hca Hcb Lca Lcb (pa & Hpa & _) H.
    unfold bind at 1.
    run_col. run_col.
    run_set_col; [|unfold mid_column; series_length].
    unfold bind, col, col_of. cbn [cols].
    rewrite !lookup_insert_ne by done. by rewrite Hpa, H.
Qed.

(** ** A strip of one row *)

Lemma spec_atm_single k fut : k < fut -> spec_atm [k] fut = k.
Proof.
  intros H. unfold spec_atm.
  rewrite filter_cons_True by (by apply Qlt_bool_iff). done.
Qed.

(** X5. On a chain of a single strike k below the futures price, with a
    positive time to expiry, delta_K and contribution are undefined in the
    only row, the sum skips them, and compute_sigma returns the negative
    number -(fut/k - 1)^2 / T. *)
Theorem compute_sigma_single_row (exp : Q -> Q) df k mte fut ir :
  option_chain df [k] -> 0 < k -> k < fut -> (0 < mte)%Z ->
  let run := compute_sigma exp mte fut ir df in
  column (fst run) "delta_K" = [NaN] /\
  column (fst run) "contribution" = [NaN] /\
  exists v, snd run = Returned (Fin v) /\
            v == - ((fut / k - 1) * (fut / k - 1)) / year_fraction mte /\
            v < 0.
Proof.
  intros Hoc Hk Hf Hm run.
  destruct (compute_sigma_run exp df [k] mte fut ir Hoc)
    as (ca & cb & pa & pb & cm & pm & _ & _ & _ & _ & _ & _
        & Lcm & Lpm & _ & _ & Hrun); [done|simpl; lia|done|].
  unfold run. rewrite Hrun. cbn [fst snd].
  destruct cm as [|c [|? ?]]; try done. destruct pm as [|p [|? ?]]; try done.
  rewrite spec_atm_single by done.
  assert (contribution_column exp (map Fin [k]) (spacing_column (map Fin [k]))
            (price_column (Fin k) (map Fin [k]) [p] [c]) ir (year_fraction mte)
          = [NaN]) as Hcontribution.
  { unfold contribution_column, price_column. cbn.
    by destruct (Qlt_bool k k). }
  split; [final_column|].
  split; [rewrite <- Hcontribution; final_column|].
  rewrite Hcontribution. unfold sigma_value, sum. cbv zeta.
  rewrite filter_cons_False by (by cbn).
  change (foldr fadd (Fin 0) (filter (fun x => is_nan x = false) [])) with (Fin 0).
  rewrite (fdiv_Fin fut k) by lra. cbn [fsub fmul].
  assert (0 < year_fraction mte) as HT.
  { unfold year_fraction, Qlt, Qdiv, Qmult, Qinv. simpl. lia. }
  rewrite fdiv_Fin by lra.
  eexists. split; [reflexivity|]. split.
  - field. split; lra.
  - assert (0 < fut / k - 1) as Hr.
    { assert (1 < fut / k); [|lra].
      apply Qlt_shift_div_l; lra. }
    assert (0 < (fut / k - 1) * (fut / k - 1)) by nra.
    apply Qlt_shift_div_r; [done|]. nra.
Qed.

Lemma compute_sigma_single_row_witness :
  option_chain single_row_chain [120] /\
  forall exp : Q -> Q,
    let run := compute_sigma exp 12960 125 (39 # 1000) single_row_chain in
    column (fst run) "delta_K" = [NaN] /\
    column (fst run) "contribution" = [NaN] /\
    exists v, snd run = Returned (Fin v) /\
              v == - ((125 / 120 - 1) * (125 / 120 - 1)) / year_fraction 12960 /\
              v < 0.
Proof.
  assert (option_chain single_row_chain [120]) as Hoc.
  { unfold option_chain, has_column.
    repeat split; try reflexivity; eexists; split; try reflexivity. }
  split; [exact Hoc|]. intros exp.
  apply (compute_sigma_single_row exp single_row_chain 120 12960 125 (39 # 1000)).
  - exact Hoc.
  - reflexivity.
  - reflexivity.
  - lia.
Defined.

(** ** The row lookup of lines 80-81 on any [Strike] column *)

Lemma bisect_left_bounds fuel a v lo hi :
  (lo <= hi)%nat ->
  (lo <= bisect_left fuel a v lo hi)%nat /\ (bisect_left fuel a v lo hi <= hi)%nat.
Proof.
  revert lo hi. induction fuel as [|fuel IH]; intros lo hi H;
    cbn [bisect_left]; cbv zeta; [lia|].
  destruct (lo <? hi)%nat eqn:E; [|lia]. apply Nat.ltb_lt in E.
  assert ((hi - lo) / 2 < hi - lo)%nat by (apply Nat.div_lt; lia).
  destruct (np_lt _ v).
  - destruct (IH (S (lo + (hi - lo) / 2)) hi); lia.
  - destruct (IH lo (lo + (hi - lo) / 2)%nat); lia.
Qed.

(** X6. Whatever the Strike column holds (unsorted or undefined entries
    included), the insertion point of the futures price is at most the
    number of rows, and the ATM lookup raises the KeyError of the row label
    -1 when it is 0 and otherwise returns the strike of the row just before
    it. *)
Theorem atm_strike_any_column df strike fut :
  cols df !! "Strike" = Some strike ->
  let r := searchsorted strike (Fin fut) in
  (r <= length strike)%nat /\
  atm_strike fut df
  = (df, if Nat.eqb r 0 then Raised (KeyError_row (-1))
         else Returned (nth (r - 1) strike NaN)).
Proof.
  intros Hk r.
  assert (r <= length strike)%nat as Hr
    by (unfold r, searchsorted; apply bisect_left_bounds; lia).
  split; [exact Hr|].
  unfold atm_strike. rewrite (bind_returned _ _ _ _ _ (col_run _ _ _ Hk)).
  fold r. destruct r as [|r]; cbn [Nat.eqb].
  - unfold loc, loc_of. by rewrite Hk.
  - replace (Z.of_nat (S r) - 1)%Z with (Z.of_nat r) by lia.
    rewrite (loc_run df r "Strike" strike Hk) by lia.
    by replace (S r - 1)%nat with r by lia.
Qed.

Lemma atm_strike_any_column_witness :
  let strike := [Fin 120; NaN; Fin 100] in
  let df := mkDataFrame 3 {["Strike" := strike]} in
  let r := searchsorted strike (Fin 110) in
  (r <= length strike)%nat /\
  atm_strike 110 df
  = (df, if Nat.eqb r 0 then Raised (KeyError_row (-1))
         else Returned (nth (r - 1) strike NaN)).
Proof.
  intros strike df r.
  apply (atm_strike_any_column df strike 110). reflexivity.
Defined.

(** ** Which quotes count as reliable *)

Lemma spread_rule a b :
  0 <= a -> 0 <= b ->
  fle (fdiv (fsub (Fin a) (Fin b)) (fdiv (fadd (Fin a) (Fin b)) (Fin 2)))
      (Fin (3 # 10)) = true
  <-> 0 < a + b /\ 17 * a <= 23 * b.
Proof.
  intros Ha Hb. cbn [fadd fsub].
  rewrite (fdiv_Fin (a + b) 2) by done.
  cbn [fdiv].
  destruct (Qeq_bool ((a + b) / 2) 0) eqn:E.
  - apply Qeq_bool_iff in E.
    assert (a + b == (a + b) / 2 * 2) as E' by field.
    assert (a - b == 0) as E'' by lra.
    unfold signed_inf. rewrite (proj2 (Qeq_bool_iff (a - b) 0) E''). cbn [fle].
    split; [done|]. intros [H _]. lra.
  - apply Qeq_bool_false in E.
    assert (0 < (a + b) / 2) as Hmid.
    { assert (0 <= (a + b) / 2) by (apply Qle_shift_div_l; lra).
      destruct (Qle_lt_or_eq _ _ H) as [|Heq]; [done|].
      exfalso. apply E. by symmetry. }
    assert (a + b == (a + b) / 2 * 2) as E' by field.
    assert (0 < a + b) as Hsum by lra.
    cbn [fle]. rewrite Qle_bool_iff. split.
    + intros H. split; [done|].
      assert (a - b == (a - b) / ((a + b) / 2) * ((a + b) / 2)) as Hx
        by (field; lra).
      assert ((a - b) / ((a + b) / 2) * ((a + b) / 2) <= (3 # 10) * ((a + b) / 2))
        by (apply Qmult_le_compat_r; lra).
      assert ((3 # 10) * ((a + b) / 2) == (3 # 20) * (a + b)) by field.
      lra.
    + intros [_ H]. apply Qle_shift_div_r; [done|].
      assert ((3 # 10) * ((a + b) / 2) == (3 # 20) * (a + b)) as Hy by field.
      rewrite Hy. lra.
Qed.

Lemma nth_spread_column ask bid i :
  (i < length ask)%nat -> (i < length bid)%nat ->
  nth i (spread_column ask bid) NaN
  = fdiv (fsub (nth i ask NaN) (nth i bid NaN))
         (fdiv (fadd (nth i ask NaN) (nth i bid NaN)) (Fin 2)).
Proof.
  intros Ha Hb. unfold spread_column, mid_column, sdiv, ssub, sdiv_scalar, sadd.
  rewrite (nth_zip_with _ _ _ _ NaN NaN);
    [|rewrite length_zip_with; lia|rewrite length_map, length_zip_with; lia].
  rewrite (nth_zip_with _ _ _ _ NaN NaN) by lia.
  rewrite (nth_map_in _ _ _ NaN) by (rewrite length_zip_with; lia).
  by rewrite (nth_zip_with _ _ _ _ NaN NaN) by lia.
Qed.

Lemma nth_lookup_fnum (l : list fnum) (i : nat) x :
  l !! i = Some x -> (i < length l)%nat /\ nth i l NaN = x.
Proof.
  intros H. split; [by apply lookup_lt_Some in H|].
  by apply nth_lookup_Some.
Qed.

Lemma spread_of_missing_quote a b :
  is_finite a = false \/ is_finite b = false ->
  fle (fdiv (fsub a b) (fdiv (fadd a b) (Fin 2))) (Fin (3 # 10)) = false.
Proof.
  intros [H|H]; destruct a as [x| | |], b as [y| | |]; try discriminate H;
    reflexivity.
Qed.

(** X7. What the test spread <= 0.3 of lines 85 and 96 answers whatever the
    rounding, for calls and for puts: a row with an undefined or infinite
    ask or bid never passes; a row with ask = bid = 0 never passes (the
    ratio is 0/0); a row with 0 <= ask <= bid and bid > 0, a locked or
    crossed quote, always passes, its ratio being zero or negative. *)
Theorem reliable_quote_rule df ca cb pa pb :
  cols df !! "Call Ask" = Some ca -> cols df !! "Call Bid" = Some cb ->
  cols df !! "Put Ask" = Some pa -> cols df !! "Put Bid" = Some pb ->
  length ca = nrows df -> length cb = nrows df ->
  length pa = nrows df -> length pb = nrows df ->
  let df' := fst (mids_and_spreads df) in
  let reliable c i := fle (nth i (column df' c) NaN) (Fin (3 # 10)) in
  let rule (ask bid : list fnum) (c : string) :=
    (forall (i : nat) a b,
       ask !! i = Some a -> bid !! i = Some b ->
       is_finite a = false \/ is_finite b = false -> reliable c i = false) /\
    (forall (i : nat) a b,
       ask !! i = Some (Fin a) -> bid !! i = Some (Fin b) ->
       a == 0 -> b == 0 -> reliable c i = false) /\
    (forall (i : nat) a b,
       ask !! i = Some (Fin a) -> bid !! i = Some (Fin b) ->
       0 <= a -> a <= b -> 0 < b -> reliable c i = true) in
  rule ca cb "Call Spread" /\ rule pa pb "Put Spread".
Proof.
  intros Hca Hcb Hpa Hpb Lca Lcb Lpa Lpb df' reliable rule.
  assert (column df' "Call Spread" = spread_column ca cb) as Ec.
  { unfold df'. rewrite (mids_and_spreads_run df ca cb pa pb) by done.
    cbn [fst]. apply column_lookup. lookup_col. }
  assert (column df' "Put Spread" = spread_column pa pb) as Ep.
  { unfold df'. rewrite (mids_and_spreads_run df ca cb pa pb) by done.
    cbn [fst]. apply column_lookup. lookup_col. }
  assert (forall ask bid c, column df' c = spread_column ask bid ->
                            rule ask bid c) as Hrule.
  { intros ask bid c E. unfold rule, reliable. rewrite E.
    split; [|split].
    - intros i a b Ha Hb H.
      apply nth_lookup_fnum in Ha as [Hia Ha].
      apply nth_lookup_fnum in Hb as [Hib Hb].
      rewrite nth_spread_column, Ha, Hb by done.
      by apply spread_of_missing_quote.
    - intros i a b Ha Hb Ea Eb.
      apply nth_lookup_fnum in Ha as [Hia Ha].
      apply nth_lookup_fnum in Hb as [Hib Hb].
      rewrite nth_spread_column, Ha, Hb by done.
      destruct (fle _ _) eqn:E'; [|done].
      apply spread_rule in E' as [E' _]; lra.
    - intros i a b Ha Hb H0 Hab Hb0.
      apply nth_lookup_fnum in Ha as [Hia Ha].
      apply nth_lookup_fnum in Hb as [Hib Hb].
      rewrite nth_spread_column, Ha, Hb by done.
      apply spread_rule; lra. }
  split; by apply Hrule.
Qed.

Lemma reliable_quote_rule_witness :
  let df := liquid_chain in
  let df' := fst (mids_and_spreads df) in
  let reliable c i := fle (nth i (column df' c) NaN) (Fin (3 # 10)) in
  let rule (ask bid : list fnum) (c : string) :=
    (forall (i : nat) a b,
       ask !! i = Some a -> bid !! i = Some b ->
       is_finite a = false \/ is_finite b = false -> reliable c i = false) /\
    (forall (i : nat) a b,
       ask !! i = Some (Fin a) -> bid !! i = Some (Fin b) ->
       a == 0 -> b == 0 -> reliable c i = false) /\
    (forall (i : nat) a b,
       ask !! i = Some (Fin a) -> bid !! i = Some (Fin b) ->
       0 <= a -> a <= b -> 0 < b -> reliable c i = true) in
  rule (column df "Call Ask") (column df "Call Bid") "Call Spread" /\
  rule (column df "Put Ask") (column df "Put Bid") "Put Spread".
Proof.
  intros df df' reliable rule.
  apply (reliable_quote_rule df (column df "Call Ask") (column df "Call Bid")
           (column df "Put Ask") (column df "Put Bid")); reflexivity.
Defined.

(** ** How [vix_calculator] passes exceptions on *)

(** X8. When compute_sigma raises on the first chain, vix_calculator raises
    the same exception with the first table as that run left it and the
    second table untouched; when it raises on the second chain, both tables
    are as the two runs left them. *)
Theorem vix_calculator_propagates (exp sqrt : Q -> Q) data (s : DataFrame * DataFrame) :
  let run_1 := compute_sigma exp (mte_1 data) (fut_1 data) (ir_1 data) (fst s) in
  let run_2 := compute_sigma exp (mte_2 data) (fut_2 data) (ir_2 data) (snd s) in
  (forall e, snd run_1 = Raised e ->
     vix_calculator exp sqrt data s = ((fst run_1, snd s), Raised e)) /\
  (forall sigma_1 e, snd run_1 = Returned sigma_1 -> snd run_2 = Raised e ->
     vix_calculator exp sqrt data s = ((fst run_1, fst run_2), Raised e)).
Proof.
  intros run_1 run_2.
  assert (forall r, snd run_1 = r -> run_1 = (fst run_1, r)) as P1
    by (intros r <-; apply surjective_pairing).
  assert (forall r, snd run_2 = r -> run_2 = (fst run_2, r)) as P2
    by (intros r <-; apply surjective_pairing).
  split.
  - intros e H. unfold vix_calculator.
    by rewrite (bind_raised _ _ _ _ _ (on_fst_run _ s _ _ (P1 _ H))).
  - intros sigma_1 e H1 H2. unfold vix_calculator.
    rewrite (bind_returned _ _ _ _ _ (on_fst_run _ s _ _ (P1 _ H1))).
    by rewrite (bind_raised _ _ _ _ _
                  (on_snd_run _ (fst run_1, snd s) _ _ (P2 _ H2))).
Qed.

(** ** When the index is a number *)

Lemma inject_Z_div_nonneg a b :
  (0 <= a)%Z -> (0 < b)%Z -> 0 <= inject_Z a / inject_Z b.
Proof.
  intros Ha Hb. apply Qle_shift_div_l.
  - change 0 with (inject_Z 0). rewrite <- Zlt_Qlt. done.
  - rewrite Qmult_0_l. change 0 with (inject_Z 0). rewrite <- Zle_Qle. done.
Qed.

(** X9. With two finite variances and different times to expiry,
    vix_calculator returns 100 * sqrt(r) for the blended variance r when r
    >= 0 and the undefined value when r < 0, raising nothing; with 0 <=
    mte_1 < 43200 < mte_2 and non-negative variances, r >= 0 and the index
    is a number. *)
Theorem vix_calculator_index (exp sqrt : Q -> Q) data (s : DataFrame * DataFrame)
    v_1 v_2 :
  snd (compute_sigma exp (mte_1 data) (fut_1 data) (ir_1 data) (fst s))
  = Returned (Fin v_1) ->
  snd (compute_sigma exp (mte_2 data) (fut_2 data) (ir_2 data) (snd s))
  = Returned (Fin v_2) ->
  mte_1 data <> mte_2 data ->
  let r := blended_variance data v_1 v_2 in
  snd (vix_calculator exp sqrt data s)
  = Returned (if Qlt_bool r 0 then NaN else Fin (100 * sqrt r)) /\
  ((0 <= mte_1 data)%Z -> (mte_1 data < MINUTES_IN_30_DAYS)%Z ->
   (MINUTES_IN_30_DAYS < mte_2 data)%Z -> 0 <= v_1 -> 0 <= v_2 ->
   0 <= r /\ snd (vix_calculator exp sqrt data s) = Returned (Fin (100 * sqrt r))).
Proof.
  intros H1 H2 Hne r.
  assert (snd (vix_calculator exp sqrt data s)
          = Returned (if Qlt_bool r 0 then NaN else Fin (100 * sqrt r))) as Hvix.
  { rewrite (vix_calculator_run exp sqrt data s _ _ (Fin v_1) (Fin v_2)
               (eq_trans (surjective_pairing _) (f_equal (pair _) H1))
               (eq_trans (surjective_pairing _) (f_equal (pair _) H2))).
    cbn [snd].
    replace (mte_2 data - mte_1 data =? 0)%Z with false
      by (symmetry; apply Z.eqb_neq; lia).
    unfold blend. cbv zeta. cbn [fmul fadd np_sqrt].
    fold (blended_variance data v_1 v_2). fold r.
    by destruct (Qlt_bool r 0). }
  split; [exact Hvix|].
  intros H0 Hlt1 Hlt2 Hv1 Hv2.
  assert (0 <= r) as Hr.
  { unfold r, blended_variance, year_fraction, MINUTES_IN_A_YEAR,
      MINUTES_IN_30_DAYS in *.
    apply Qmult_le_0_compat; [by apply inject_Z_div_nonneg|].
    assert (0 <= inject_Z (mte_1 data) / inject_Z 525600)
      by (apply inject_Z_div_nonneg; lia).
    assert (0 <= inject_Z (mte_2 data) / inject_Z 525600)
      by (apply inject_Z_div_nonneg; lia).
    assert (0 <= inject_Z (mte_2 data - 43200)
                 / inject_Z (mte_2 data - mte_1 data))
      by (apply inject_Z_div_nonneg; lia).
    assert (0 <= inject_Z (43200 - mte_1 data)
                 / inject_Z (mte_2 data - mte_1 data))
      by (apply inject_Z_div_nonneg; lia).
    assert (0 <= inject_Z (mte_1 data) / inject_Z 525600 * v_1)
      by (by apply Qmult_le_0_compat).
    assert (0 <= inject_Z (mte_2 data) / inject_Z 525600 * v_2)
      by (by apply Qmult_le_0_compat).
    assert (0 <= inject_Z (mte_1 data) / inject_Z 525600 * v_1
                 * (inject_Z (mte_2 data - 43200)
                    / inject_Z (mte_2 data - mte_1 data)))
      by (by apply Qmult_le_0_compat).
    assert (0 <= inject_Z (mte_2 data) / inject_Z 525600 * v_2
                 * (inject_Z (43200 - mte_1 data)
                    / inject_Z (mte_2 data - mte_1 data)))
      by (by apply Qmult_le_0_compat).
    lra. }
  split; [exact Hr|]. rewrite Hvix.
  by rewrite (proj2 (Qlt_bool_false r 0) Hr).
Qed.

Lemma vix_calculator_index_witness :
  mte_1 bracketing_data <> mte_2 bracketing_data /\
  forall exp sqrt : Q -> Q,
    let s := (liquid_chain, liquid_chain) in
    exists v_1 v_2,
      snd (compute_sigma exp 12960 125 (39 # 1000) liquid_chain)
      = Returned (Fin v_1) /\
      snd (compute_sigma exp 53280 125 (465 # 10000) liquid_chain)
      = Returned (Fin v_2) /\
      let r := blended_variance bracketing_data v_1 v_2 in
      snd (vix_calculator exp sqrt bracketing_data s)
      = Returned (if Qlt_bool r 0 then NaN else Fin (100 * sqrt r)).
Proof.
  split; [discriminate|].
  intros exp sqrt s.
  destruct (compute_sigma_returns_finite exp liquid_chain strikes_5
              12960 125 (39 # 1000)) as [v_1 E1];
    [apply liquid_chain_is_option_chain|simpl; lia|reflexivity|reflexivity
    |reflexivity|discriminate|].
  destruct (compute_sigma_returns_finite exp liquid_chain strikes_5
              53280 125 (465 # 10000)) as [v_2 E2];
    [apply liquid_chain_is_option_chain|simpl; lia|reflexivity|reflexivity
    |reflexivity|discriminate|].
  exists v_1, v_2. split; [exact E1|]. split; [exact E2|].
  refine (proj1 (vix_calculator_index exp sqrt bracketing_data s v_1 v_2 E1 E2 _)).
  discriminate.
Defined.

Lemma annotated_chain_is_option_chain : option_chain annotated_chain strikes_5.
Proof.
  unfold option_chain, has_column.
  repeat split; try reflexivity; eexists; split; try reflexivity.
Qed.

Lemma compute_sigma_reads_only_the_quotes_witness :
  option_chain liquid_chain strikes_5 /\ option_chain annotated_chain strikes_5 /\
  forall exp : Q -> Q,
    let run_1 := compute_sigma exp 12960 125 (39 # 1000) liquid_chain in
    let run_2 := compute_sigma exp 12960 125 (39 # 1000) annotated_chain in
    snd run_1 = snd run_2 /\
    forall c, In c derived_columns -> cols (fst run_1) !! c = cols (fst run_2) !! c.
Proof.
  split; [apply liquid_chain_is_option_chain|].
  split; [apply annotated_chain_is_option_chain|].
  intros exp.
  apply (compute_sigma_reads_only_the_quotes exp liquid_chain annotated_chain
           strikes_5 12960 125 (39 # 1000)).
  - apply liquid_chain_is_option_chain.
  - apply annotated_chain_is_option_chain.
  - intros c Hc. simpl in Hc.
    repeat (destruct Hc as [<-|Hc]; [reflexivity|]). destruct Hc.
  - reflexivity.
  - simpl. lia.
  - reflexivity.
Defined.

(** ** No time left to expiry *)

(** X10. With zero minutes to expiry compute_sigma raises no
    ZeroDivisionError: it returns plus or minus infinity with the sign of 2
    * sum(contribution) - (fut/ATM - 1)^2, and the undefined value when that
    number is zero. *)
Theorem compute_sigma_zero_minutes (exp : Q -> Q) df ks fut ir :
  option_chain df ks -> (2 <= length ks)%nat ->
  strictly_increasing ks = true -> 0 < nth 0 ks 0 -> nth 0 ks 0 < fut ->
  let run := compute_sigma exp 0 fut ir df in
  let atm := spec_atm ks fut in
  exists s,
    sum (column (fst run) "contribution") = Fin s /\
    snd run
    = Returned (signed_inf (2 * s - (fut / atm - 1) * (fut / atm - 1)) PInf NInf).
Proof.
  intros Hoc Hn Hs H0 Hf run atm.
  destruct (compute_sigma_run exp df ks 0 fut ir Hoc Hs ltac:(lia) Hf)
    as (ca & cb & pa & pb & cm & pm & _ & _ & _ & _ & _ & _
        & Lcm & Lpm & Fcm & Fpm & Hrun).
  destruct (sum_finite_or_nan _
              (contribution_finite_or_nan exp ks pm cm atm ir (year_fraction 0)
                 Hn Hs H0 Lpm Lcm Fpm Fcm)) as [s Hsum].
  exists s. unfold run. rewrite Hrun. split.
  - replace (column _ "contribution") with
      (contribution_column exp (map Fin ks) (spacing_column (map Fin ks))
         (price_column (Fin atm) (map Fin ks) pm cm) ir (year_fraction 0));
      [exact Hsum|].
    symmetry. final_column.
  - cbn [snd]. unfold sigma_value. fold atm. rewrite Hsum.
    assert (0 < atm) by (apply spec_atm_positive; try done; lia).
    rewrite (fdiv_Fin fut atm) by lra. reflexivity.
Qed.

Lemma compute_sigma_zero_minutes_witness :
  option_chain liquid_chain strikes_5 /\
  forall exp : Q -> Q,
    let run := compute_sigma exp 0 125 (39 # 1000) liquid_chain in
    exists s,
      sum (column (fst run) "contribution") = Fin s /\
      snd run
      = Returned (signed_inf
                    (2 * s - (125 / spec_atm strikes_5 125 - 1)
                             * (125 / spec_atm strikes_5 125 - 1)) PInf NInf).
Proof.
  split; [apply liquid_chain_is_option_chain|].
  intros exp.
  apply (compute_sigma_zero_minutes exp liquid_chain strikes_5 125 (39 # 1000)).
  - apply liquid_chain_is_option_chain.
  - simpl. lia.
  - reflexivity.
  - reflexivity.
  - reflexivity.
Defined.

(** ** How many rows a side has *)

Lemma count_true_map_filter {A} (g : A -> bool) (l : list A) :
  count_true (map g l) = length (filter (fun a => g a = true) l).
Proof.
  induction l as [|a l IH]; [done|].
  cbn [map]. rewrite count_true_cons, IH.
  destruct (g a) eqn:E.
  - by rewrite filter_cons_True.
  - rewrite filter_cons_False; [done|]. by rewrite E.
Qed.

Lemma count_true_le_length mask : (count_true mask <= length mask)%nat.
Proof.
  induction mask as [|m mask IH]; [done|].
  rewrite count_true_cons. destruct m; simpl; lia.
Qed.

Lemma length_select_le {A} mask (s : list A) :
  (length (select mask s) <= count_true mask)%nat.
Proof.
  revert s. induction mask as [|m mask IH]; intros [|a s]; simpl; try lia.
  rewrite count_true_cons. specialize (IH s). destruct m; simpl; lia.
Qed.

Lemma knots_within_side side spread :
  (count_true (knot_mask side spread) <= count_true side)%nat.
Proof.
  unfold knot_mask.
  etransitivity; [apply count_true_le_length|].
  rewrite length_map. apply length_select_le.
Qed.

Lemma filter_above_drop (P : Q -> Prop) `{!forall k, Decision (P k)} ks r :
  (r <= length ks)%nat ->
  (forall i, (i < r)%nat -> ~ P (nth i ks 0)) ->
  (forall i, (r <= i)%nat -> (i < length ks)%nat -> P (nth i ks 0)) ->
  filter P ks = drop r ks.
Proof.
  revert r. induction ks as [|a l IH]; intros r Hr Hlo Hhi.
  - by destruct r.
  - destruct r as [|r]; simpl in Hr.
    + rewrite filter_cons_True by (apply (Hhi 0%nat); simpl; lia).
      rewrite (IH 0%nat); [done|lia|intros; lia|].
      intros i _ Hi. apply (Hhi (S i)); simpl; lia.
    + rewrite filter_cons_False by (apply (Hlo 0%nat); lia).
      simpl. apply IH; [lia| |].
      * intros i Hi. apply (Hlo (S i)). lia.
      * intros i Hi Hn. apply (Hhi (S i)); simpl; lia.
Qed.

Lemma strikes_below_futures ks fut :
  strictly_increasing ks = true ->
  length (filter (fun k => Qlt_bool k fut = true) ks)
  = searchsorted (map Fin ks) (Fin fut).
Proof.
  intros Hs.
  destruct (searchsorted_spec ks fut Hs) as (Hr & Hlo & Hhi).
  rewrite (filter_below_take _ ks (searchsorted (map Fin ks) (Fin fut))).
  - rewrite length_take. lia.
  - exact Hr.
  - intros i Hi. apply Qlt_bool_iff. by apply Hlo.
  - intros i Hi Hn H. apply Qlt_bool_iff in H.
    specialize (Hhi i Hi Hn). lra.
Qed.

Lemma side_rows ks fut :
  strictly_increasing ks = true -> (0 < length ks)%nat -> nth 0 ks 0 < fut ->
  let below := length (filter (fun k => Qlt_bool k fut = true) ks) in
  let atm := Fin (spec_atm ks fut) in
  count_true (put_side atm (map Fin ks)) = below /\
  count_true (call_side atm (map Fin ks)) = (length ks - below + 1)%nat.
Proof.
  intros Hs Hn Hf below atm.
  unfold below, atm. rewrite strikes_below_futures by done.
  destruct (searchsorted_atm ks fut Hs Hn Hf) as (Hpos & Hr & ->).
  set (r := searchsorted (map Fin ks) (Fin fut)) in *.
  unfold put_side, call_side. rewrite !map_map, !count_true_map_filter.
  split.
  - rewrite (filter_below_take _ ks r).
    + rewrite length_take. lia.
    + exact Hr.
    + intros i Hi. cbn [fle]. apply Qle_bool_iff.
      apply strictly_increasing_nth_le; [done|lia|lia].
    + intros i Hi Hn' H. cbn [fle] in H. apply Qle_bool_iff in H.
      assert (nth (r - 1) ks 0 < nth i ks 0)
        by (apply strictly_increasing_nth; [done|lia|lia]).
      lra.
  - rewrite (filter_above_drop _ ks (r - 1)).
    + rewrite length_drop. lia.
    + lia.
    + intros i Hi H. unfold fge in H. cbn [fle] in H. apply Qle_bool_iff in H.
      assert (nth i ks 0 < nth (r - 1) ks 0)
        by (apply strictly_increasing_nth; [done|lia|lia]).
      lra.
    + intros i Hi Hn'. unfold fge. cbn [fle]. apply Qle_bool_iff.
      apply strictly_increasing_nth_le; [done|lia|lia].
Qed.

(** X11. The put side has as many rows as there are strikes below the
    futures price, and the call side the remaining rows plus the ATM row;
    with fewer than three strikes below the futures price every put mid
    becomes undefined whatever the quotes, and with fewer than two strikes
    at or above it every call mid does. *)
Theorem side_with_too_few_rows (exp : Q -> Q) df ks mte fut ir :
  option_chain df ks -> strictly_increasing ks = true ->
  (0 < length ks)%nat -> nth 0 ks 0 < fut ->
  let run := compute_sigma exp mte fut ir df in
  let below := length (filter (fun k => Qlt_bool k fut = true) ks) in
  let atm := Fin (spec_atm ks fut) in
  count_true (put_side atm (map Fin ks)) = below /\
  count_true (call_side atm (map Fin ks)) = (length ks - below + 1)%nat /\
  ((below < 3)%nat -> column (fst run) "Put Mid" = replicate (length ks) NaN) /\
  ((length ks - below < 2)%nat ->
   column (fst run) "Call Mid" = replicate (length ks) NaN).
Proof.
  intros Hoc Hs Hn Hf run below atm.
  destruct (side_rows ks fut Hs Hn Hf) as [Hput Hcall].
  fold below atm in Hput, Hcall.
  split; [exact Hput|]. split; [exact Hcall|].
  destruct (compute_sigma_run exp df ks mte fut ir Hoc Hs Hn Hf)
    as (ca & cb & pa & pb & cm & pm & _ & _ & _ & _ & Hcm & Hpm
        & _ & _ & _ & _ & Hrun).
  fold atm in Hcm, Hpm, Hrun.
  split; intros H.
  - rewrite corrected_too_few in Hpm.
    + rewrite length_map in Hpm. injection Hpm as <-.
      unfold run. rewrite Hrun. final_column.
    + pose proof (knots_within_side (put_side atm (map Fin ks))
                    (spread_column pa pb)). lia.
  - rewrite corrected_too_few in Hcm.
    + rewrite length_map in Hcm. injection Hcm as <-.
      unfold run. rewrite Hrun. final_column.
    + pose proof (knots_within_side (call_side atm (map Fin ks))
                    (spread_column ca cb)). lia.
Qed.

Lemma side_with_too_few_rows_witness :
  option_chain liquid_chain strikes_5 /\
  forall exp : Q -> Q,
    column (fst (compute_sigma exp 12960 115 (39 # 1000) liquid_chain)) "Put Mid"
    = replicate 5 NaN.
Proof.
  split; [apply liquid_chain_is_option_chain|].
  intros exp.
  refine (proj1 (proj2 (proj2
    (side_with_too_few_rows exp liquid_chain strikes_5 12960 115 (39 # 1000)
       liquid_chain_is_option_chain _ _ _))) _).
  - reflexivity.
  - simpl. lia.
  - reflexivity.
  - vm_compute. lia.
Defined.

(** ** Quotes the program does not use *)

Lemma select_ext {A} (mask : list bool) (s t : list A) d :
  length s = length mask -> length t = length mask ->
  (forall i, (i < length mask)%nat -> nth i mask false = true ->
             nth i s d = nth i t d) ->
  select mask s = select mask t.
Proof.
  revert s t. induction mask as [|m mask IH]; intros [|a s] [|b t] Ls Lt H;
    simpl in Ls, Lt; try lia; [done|].
  cbn [select].
  assert (select mask s = select mask t) as ->.
  { apply IH; [lia|lia|]. intros i Hi Hm. apply (H (S i)); simpl; [lia|done]. }
  destruct m; [|done].
  f_equal. apply (H 0%nat); simpl; [lia|done].
Qed.

Lemma corrected_ext side strike spread mid spread' mid' :
  length spread = length side -> length spread' = length side ->
  length mid = length side -> length mid' = length side ->
  (forall i, (i < length side)%nat -> nth i side false = true ->
     nth i spread NaN = nth i spread' NaN /\ nth i mid NaN = nth i mid' NaN) ->
  corrected side strike spread mid = corrected side strike spread' mid'.
Proof.
  intros L1 L2 L3 L4 H. unfold corrected, knot_mask.
  rewrite (select_ext side spread spread' NaN L1 L2)
    by (intros i Hi Hm; apply (H i Hi Hm)).
  by rewrite (select_ext side mid mid' NaN L3 L4)
    by (intros i Hi Hm; apply (H i Hi Hm)).
Qed.

Lemma nth_mid_column ask bid i :
  (i < length ask)%nat -> (i < length bid)%nat ->
  nth i (mid_column ask bid) NaN
  = fdiv (fadd (nth i ask NaN) (nth i bid NaN)) (Fin 2).
Proof.
  intros Ha Hb. unfold mid_column, sdiv_scalar, sadd.
  rewrite (nth_map_in _ _ _ NaN) by (rewrite length_zip_with; lia).
  by rewrite (nth_zip_with _ _ _ _ NaN NaN) by lia.
Qed.

Lemma corrected_same_side side ks ask bid ask' bid' :
  length side = length ks ->
  length ask = length ks -> length bid = length ks ->
  length ask' = length ks -> length bid' = length ks ->
  (forall i, (i < length ks)%nat -> nth i side false = true ->
     nth i ask NaN = nth i ask' NaN /\ nth i bid NaN = nth i bid' NaN) ->
  corrected side (map Fin ks) (spread_column ask bid) (mid_column ask bid)
  = corrected side (map Fin ks) (spread_column ask' bid') (mid_column ask' bid').
Proof.
  intros Ls La Lb La' Lb' H.
  apply corrected_ext.
  - rewrite length_spread_column; lia.
  - rewrite length_spread_column; lia.
  - rewrite length_mid_column; lia.
  - rewrite length_mid_column; lia.
  - intros i Hi Hm. rewrite Ls in Hi. destruct (H i Hi Hm) as [E1 E2].
    rewrite !nth_spread_column, !nth_mid_column by lia.
    by rewrite E1, E2.
Qed.

(** X12. Call quotes of strikes below the ATM strike and put quotes of
    strikes above it have no effect: two chains that agree on the strikes,
    on the call quotes at and above the ATM strike and on the put quotes at
    and below it give the same variance and the same Call Mid, Put Mid, Q,
    delta_K and contribution columns. *)
Theorem compute_sigma_ignores_the_far_side (exp : Q -> Q) df_1 df_2 ks mte fut ir :
  option_chain df_1 ks -> option_chain df_2 ks ->
  strictly_increasing ks = true -> (0 < length ks)%nat -> nth 0 ks 0 < fut ->
  let atm := spec_atm ks fut in
  let quote df c i := nth i (column df c) NaN in
  (forall i, (i < length ks)%nat -> atm <= nth i ks 0 ->
     quote df_1 "Call Ask" i = quote df_2 "Call Ask" i /\
     quote df_1 "Call Bid" i = quote df_2 "Call Bid" i) ->
  (forall i, (i < length ks)%nat -> nth i ks 0 <= atm ->
     quote df_1 "Put Ask" i = quote df_2 "Put Ask" i /\
     quote df_1 "Put Bid" i = quote df_2 "Put Bid" i) ->
  let run_1 := compute_sigma exp mte fut ir df_1 in
  let run_2 := compute_sigma exp mte fut ir df_2 in
  snd run_1 = snd run_2 /\
  forall c, In c ["Call Mid"; "Put Mid"; "Q"; "delta_K"; "contribution"] ->
            column (fst run_1) c = column (fst run_2) c.
Proof.
  intros Hoc1 Hoc2 Hs Hn Hf atm quote Hcall Hput run_1 run_2.
  destruct (option_chain_columns df_1 ks Hoc1)
    as (ca & cb & pa & pb & Hca & Hcb & Hpa & Hpb & Lca & Lcb & Lpa & Lpb).
  destruct (option_chain_columns df_2 ks Hoc2)
    as (ca' & cb' & pa' & pb' & Hca' & Hcb' & Hpa' & Hpb'
        & Lca' & Lcb' & Lpa' & Lpb').
  assert (length ks = nrows df_1) as Hn1 by apply Hoc1.
  assert (length ks = nrows df_2) as Hn2 by apply Hoc2.
  unfold quote in Hcall, Hput.
  rewrite (column_lookup _ _ _ Hca), (column_lookup _ _ _ Hcb),
    (column_lookup _ _ _ Hca'), (column_lookup _ _ _ Hcb') in Hcall.
  rewrite (column_lookup _ _ _ Hpa), (column_lookup _ _ _ Hpb),
    (column_lookup _ _ _ Hpa'), (column_lookup _ _ _ Hpb') in Hput.
  destruct (compute_sigma_run_with exp df_1 ks ca cb pa pb mte fut ir)
    as (cm & pm & Hcm & Hpm & _ & _ & Hrun1); try done.
  destruct (compute_sigma_run_with exp df_2 ks ca' cb' pa' pb' mte fut ir)
    as (cm' & pm' & Hcm' & Hpm' & _ & _ & Hrun2); try done.
  fold atm in Hcm, Hpm, Hcm', Hpm', Hrun1, Hrun2.
  rewrite (corrected_same_side _ ks ca cb ca' cb') in Hcm; try lia.
  2: { unfold call_side. by rewrite !length_map. }
  2: { intros i Hi Hm. apply Hcall; [done|].
       unfold call_side in Hm. rewrite map_map in Hm.
       rewrite (nth_map_in _ _ _ 0) in Hm by done.
       unfold fge in Hm. cbn [fle] in Hm. by apply Qle_bool_iff. }
  rewrite (corrected_same_side _ ks pa pb pa' pb') in Hpm; try lia.
  2: { unfold put_side. by rewrite !length_map. }
  2: { intros i Hi Hm. apply Hput; [done|].
       unfold put_side in Hm. rewrite map_map in Hm.
       rewrite (nth_map_in _ _ _ 0) in Hm by done.
       cbn [fle] in Hm. by apply Qle_bool_iff. }
  rewrite Hcm in Hcm'. rewrite Hpm in Hpm'.
  injection Hcm' as <-. injection Hpm' as <-.
  unfold run_1, run_2. rewrite Hrun1, Hrun2. split; [done|].
  intros c Hc. simpl in Hc.
  repeat (destruct Hc as [<-|Hc];
          [etransitivity; [final_column|symmetry; final_column]|]).
  destruct Hc.
Qed.

Lemma far_side_chain_is_option_chain : option_chain far_side_chain strikes_5.
Proof.
  unfold option_chain, has_column.
  repeat split; try reflexivity; eexists; split; try reflexivity.
Qed.

Lemma compute_sigma_ignores_the_far_side_witness :
  option_chain liquid_chain strikes_5 /\ option_chain far_side_chain strikes_5 /\
  forall exp : Q -> Q,
    let run_1 := compute_sigma exp 12960 125 (39 # 1000) liquid_chain in
    let run_2 := compute_sigma exp 12960 125 (39 # 1000) far_side_chain in
    snd run_1 = snd run_2 /\
    forall c, In c ["Call Mid"; "Put Mid"; "Q"; "delta_K"; "contribution"] ->
              column (fst run_1) c = column (fst run_2) c.
Proof.
  split; [apply liquid_chain_is_option_chain|].
  split; [apply far_side_chain_is_option_chain|].
  intros exp.
  apply (compute_sigma_ignores_the_far_side exp liquid_chain far_side_chain
           strikes_5 12960 125 (39 # 1000)).
  - apply liquid_chain_is_option_chain.
  - apply far_side_chain_is_option_chain.
  - reflexivity.
  - simpl. lia.
  - reflexivity.
  - intros i Hi H.
    destruct i as [|[|[|[|[|i]]]]]; try (split; reflexivity).
    + exfalso. revert H. vm_compute. intros H. by apply H.
    + exfalso. revert H. vm_compute. intros H. by apply H.
  - intros i Hi H.
    destruct i as [|[|[|[|[|i]]]]]; try (split; reflexivity).
    + exfalso. revert H. vm_compute. intros H. by apply H.
    + exfalso. revert H. vm_compute. intros H. by apply H.
Defined.

(** ** What each block of [compute_sigma] writes *)

(** X13. Each block writes only its own columns, whether it returns or
    raises: lines 49-52 the two Mid and the two Spread columns,
    cubic_spline_correction the two Mid columns, lines 55-63 the column Q,
    lines 64-68 diff_K_upper, diff_K_lower and delta_K; the number of rows
    never changes. *)
Theorem blocks_write_their_own_columns fut atm :
  keeps (same_outside ["Call Mid"; "Put Mid"; "Call Spread"; "Put Spread"])
    mids_and_spreads /\
  keeps (same_outside ["Call Mid"; "Put Mid"]) (cubic_spline_correction fut) /\
  keeps (same_outside ["Q"]) (contribution_price atm) /\
  keeps (same_outside ["diff_K_upper"; "diff_K_lower"; "delta_K"]) strike_spacing.
Proof.
  split; [|split; [|split]].
  - unfold mids_and_spreads, col, loc, len. repeat writes_step.
  - unfold cubic_spline_correction, atm_strike, col, loc, len, ret.
    repeat writes_step.
  - unfold contribution_price, col, loc, len. repeat writes_step.
  - unfold strike_spacing, col, loc, len. repeat writes_step.
Qed.

(** ** Strikes that are not strictly increasing *)

Lemma atm_strike_returns df strike fut :
  cols df !! "Strike" = Some strike ->
  searchsorted strike (Fin fut) <> 0%nat ->
  atm_strike fut df
  = (df, Returned (nth (searchsorted strike (Fin fut) - 1) strike NaN)).
Proof.
  intros Hk Hr.
  assert (searchsorted strike (Fin fut) <= length strike)%nat as Hle
    by (unfold searchsorted; apply bisect_left_bounds; lia).
  unfold atm_strike. rewrite (bind_returned _ _ _ _ _ (col_run _ _ _ Hk)).
  destruct (searchsorted strike (Fin fut)) as [|r]; [done|].
  replace (Z.of_nat (S r) - 1)%Z with (Z.of_nat r) by lia.
  rewrite (loc_run df r "Strike" strike Hk) by lia.
  by replace (S r - 1)%nat with r by lia.
Qed.

Lemma corrected_raises_on_unsorted_knots side ks ask bid :
  length ask = length ks -> length bid = length ks ->
  let knots := knot_mask side (spread_column ask bid) in
  (3 <= count_true knots)%nat ->
  strictly_increasing (select knots (select side ks)) = false ->
  corrected side (map Fin ks) (spread_column ask bid) (mid_column ask bid)
  = Raised (ValueError "`x` must be strictly increasing sequence.").
Proof.
  intros La Lb knots H3 Hs. unfold corrected. fold knots.
  replace (3 <=? count_true knots)%nat with true
    by (symmetry; by apply Nat.leb_le).
  assert (length (select knots (select side (spread_column ask bid)))
          = count_true knots) as Lknots
    by (apply length_select; unfold knots, knot_mask; by rewrite length_map).
  assert (length (spread_column ask bid) = length ks) as Lsp
    by (rewrite length_spread_column; lia).
  assert (length (mid_column ask bid) = length ks) as Lmid
    by (rewrite length_mid_column; lia).
  assert (length (select knots (select side (map Fin ks))) = count_true knots)
    as Lx.
  { rewrite <- Lknots. apply length_select_same, length_select_same.
    rewrite length_map. lia. }
  assert (length (select knots (select side (mid_column ask bid)))
          = count_true knots) as Ly.
  { rewrite <- Lknots. apply length_select_same, length_select_same. lia. }
  destruct (finite_values_Forall
              (select knots (select side (mid_column ask bid)))) as [ys Hys].
  { unfold knots, knot_mask. apply knots_finite, select_Forall2.
    apply spreads_of_mids. }
  unfold CubicSpline. rewrite Lx, Ly.
  replace (count_true knots <? 2)%nat with false
    by (symmetry; apply Nat.ltb_ge; lia).
  rewrite Nat.eqb_refl. cbn [negb].
  rewrite !select_map, finite_values_map_Fin, Hys, Hs. done.
Qed.

(** X14. When the strikes of the reliable call rows at and above the ATM
    strike are not strictly increasing (a strike listed twice, for one), and
    there are three or more of them, compute_sigma raises the ValueError of
    CubicSpline for x; the table is left with the uncorrected Call Mid of
    line 49, and line 55 has not written the column Q. *)
Theorem compute_sigma_unsorted_knots (exp : Q -> Q) df ks mte fut ir :
  option_chain df ks ->
  let strike := map Fin ks in
  let r := searchsorted strike (Fin fut) in
  let atm := nth (r - 1) strike NaN in
  let call_ask := column df "Call Ask" in
  let call_bid := column df "Call Bid" in
  let knots := knot_mask (call_side atm strike) (spread_column call_ask call_bid) in
  r <> 0%nat -> (3 <= count_true knots)%nat ->
  strictly_increasing (select knots (select (call_side atm strike) ks)) = false ->
  let run := compute_sigma exp mte fut ir df in
  snd run = Raised (ValueError "`x` must be strictly increasing sequence.") /\
  column (fst run) "Call Mid" = mid_column call_ask call_bid /\
  cols (fst run) !! "Q" = cols df !! "Q".
Proof.
  intros Hoc strike r atm call_ask call_bid knots Hr H3 Hs run.
  destruct (option_chain_columns df ks Hoc)
    as (ca & cb & pa & pb & Hca & Hcb & Hpa & Hpb & Lca & Lcb & Lpa & Lpb).
  destruct Hoc as (Hk & Hlen & _).
  subst knots call_ask call_bid.
  rewrite (column_lookup _ _ _ Hca), (column_lookup _ _ _ Hcb) in *.
  set (df1 := mkDataFrame (nrows df)
                (<["Put Spread" := spread_column pa pb]>
                   (<["Call Spread" := spread_column ca cb]>
                      (<["Put Mid" := mid_column pa pb]>
                         (<["Call Mid" := mid_column ca cb]> (cols df)))))).
  assert (cubic_spline_correction fut df1
          = (df1, Raised (ValueError "`x` must be strictly increasing sequence.")))
    as Hcorr.
  { rewrite (cubic_spline_correction_run df1 fut atm strike
               (spread_column ca cb) (mid_column ca cb)
               (spread_column pa pb) (mid_column pa pb)).
    - fold (call_side atm strike). unfold strike.
      rewrite corrected_raises_on_unsorted_knots;
        [done|lia|lia|exact H3|exact Hs].
    - unfold df1. lookup_col.
    - unfold strike. rewrite length_map. done.
    - unfold df1. lookup_col.
    - unfold df1. lookup_col.
    - unfold df1. lookup_col.
    - unfold df1. lookup_col.
    - apply atm_strike_returns; [unfold df1; lookup_col|done]. }
  assert (run = (df1, Raised (ValueError "`x` must be strictly increasing sequence.")))
    as ->.
  { unfold run, compute_sigma.
    rewrite (bind_returned _ _ _ _ _
               (mids_and_spreads_run df ca cb pa pb Hca Hcb Hpa Hpb
                  Lca Lcb Lpa Lpb)).
    fold df1. by rewrite (bind_raised _ _ _ _ _ Hcorr). }
  cbn [fst snd]. split; [done|]. split.
  - apply column_lookup. unfold df1. lookup_col.
  - unfold df1. cbn [cols]. by rewrite !lookup_insert_ne by done.
Qed.

Lemma compute_sigma_unsorted_knots_witness :
  option_chain repeated_strike_chain [100; 120; 120; 130; 140] /\
  forall exp : Q -> Q,
    let run := compute_sigma exp 12960 125 (39 # 1000) repeated_strike_chain in
    snd run = Raised (ValueError "`x` must be strictly increasing sequence.") /\
    column (fst run) "Call Mid"
    = mid_column (column repeated_strike_chain "Call Ask")
        (column repeated_strike_chain "Call Bid") /\
    cols (fst run) !! "Q" = cols repeated_strike_chain !! "Q".
Proof.
  assert (option_chain repeated_strike_chain [100; 120; 120; 130; 140]) as Hoc.
  { unfold option_chain, has_column.
    repeat split; try reflexivity; eexists; split; try reflexivity. }
  split; [exact Hoc|]. intros exp.
  apply (compute_sigma_unsorted_knots exp repeated_strike_chain
           [100; 120; 120; 130; 140] 12960 125 (39 # 1000) Hoc).
  - vm_compute. lia.
  - vm_compute. lia.
  - vm_compute. reflexivity.
Defined.

(** ** The outcomes of [vix_calculator] *)




(** ** The near chain at its expiry *)

Lemma compute_sigma_at_expiry (exp : Q -> Q) df ks fut ir :
  option_chain df ks -> (2 <= length ks)%nat ->
  strictly_increasing ks = true -> 0 < nth 0 ks 0 -> nth 0 ks 0 < fut ->
  exists df' x, compute_sigma exp 0 fut ir df = (df', Returned x) /\
                is_finite x = false.
Proof.
  intros Hoc Hn Hs H0 Hf.
  destruct (compute_sigma_run exp df ks 0 fut ir Hoc Hs ltac:(lia) Hf)
    as (ca & cb & pa & pb & cm & pm & _ & _ & _ & _ & _ & _
        & Lcm & Lpm & Fcm & Fpm & Hrun).
  destruct (sum_finite_or_nan _
              (contribution_finite_or_nan exp ks pm cm (spec_atm ks fut) ir
                 (year_fraction 0) Hn Hs H0 Lpm Lcm Fpm Fcm)) as [t Hsum].
  rewrite Hrun. eexists _, _. split; [reflexivity|].
  unfold sigma_value. rewrite Hsum.
  assert (0 < spec_atm ks fut) by (apply spec_atm_positive; try done; lia).
  rewrite (fdiv_Fin fut (spec_atm ks fut)) by lra.
  cbn [fmul fsub fdiv]. change (Qeq_bool (year_fraction 0) 0) with true.
  cbv iota. unfold signed_inf.
  destruct (Qeq_bool _ _); [done|]. by destruct (Qlt_bool _ _).
Qed.

(** X16. With zero minutes to expiry for the first chain (and not for the
    second), vix_calculator returns the undefined value whatever the quotes:
    the first variance is infinite or undefined, and T_1 = 0 times it is
    undefined. *)
Theorem vix_calculator_at_expiry (exp sqrt : Q -> Q) data s ks sigma_2 :
  mte_1 data = 0%Z -> mte_2 data <> 0%Z ->
  option_chain (fst s) ks -> (2 <= length ks)%nat ->
  strictly_increasing ks = true -> 0 < nth 0 ks 0 -> nth 0 ks 0 < fut_1 data ->
  snd (compute_sigma exp (mte_2 data) (fut_2 data) (ir_2 data) (snd s))
  = Returned sigma_2 ->
  snd (vix_calculator exp sqrt data s) = Returned NaN.
Proof.
  intros Hm1 Hm2 Hoc Hn Hs H0 Hf H2.
  destruct (compute_sigma_at_expiry exp (fst s) ks (fut_1 data) (ir_1 data)
              Hoc Hn Hs H0 Hf) as (d1 & x & H1 & Hx).
  rewrite <- Hm1 in H1.
  rewrite (vix_calculator_run exp sqrt data s d1 _ x sigma_2 H1
             (eq_trans (surjective_pairing _) (f_equal (pair _) H2))).
  cbn [snd].
  replace (mte_2 data - mte_1 data =? 0)%Z with false
    by (symmetry; apply Z.eqb_neq; lia).
  unfold blend. cbv zeta. rewrite Hm1.
  assert (fmul (Fin (year_fraction 0)) x = NaN) as ->.
  { destruct x; try done; cbn [fmul]; unfold signed_inf;
      by change (Qeq_bool (year_fraction 0) 0) with true. }
  reflexivity.
Qed.

Lemma vix_calculator_at_expiry_witness :
  option_chain liquid_chain strikes_5 /\
  forall exp sqrt : Q -> Q,
    snd (vix_calculator exp sqrt (mkData 0 53280 125 125 (39 # 1000) (465 # 10000))
           (liquid_chain, liquid_chain))
    = Returned NaN.
Proof.
  split; [apply liquid_chain_is_option_chain|].
  intros exp sqrt.
  destruct (compute_sigma_returns_finite exp liquid_chain strikes_5
              53280 125 (465 # 10000)) as [v_2 E2];
    [apply liquid_chain_is_option_chain|simpl; lia|reflexivity|reflexivity
    |reflexivity|discriminate|].
  apply (vix_calculator_at_expiry exp sqrt
           (mkData 0 53280 125 125 (39 # 1000) (465 # 10000))
           (liquid_chain, liquid_chain) strikes_5 (Fin v_2)).
  - reflexivity.
  - discriminate.
  - apply liquid_chain_is_option_chain.
  - simpl. lia.
  - reflexivity.
  - reflexivity.
  - reflexivity.
  - exact E2.
Defined.

(** * The spline of the correction *)

(** ** [solve_banded] solves the system *)

Lemma thomas_solves rows cp bp prev :
  pivots_nonzero rows cp ->
  prev + cp * hd 0 (substitute (eliminate rows cp bp)) == bp ->
  solves rows prev (substitute (eliminate rows cp bp)).
Proof.
  revert cp bp prev.
  induction rows as [|[[[l d] u] b] rest IH]; intros cp bp prev Hp Hprev; [done|].
  cbn [eliminate substitute pivots_nonzero solves] in *. cbv zeta in *.
  destruct Hp as [Hden Hp].
  set (S := substitute (eliminate rest (u / (d - l * cp))
                          ((b - l * bp) / (d - l * cp)))) in *.
  cbn [hd] in Hprev.
  split.
  - remember ((b - l * bp) / (d - l * cp) - u / (d - l * cp) * hd 0 S) as x
      eqn:Ex.
    assert (l * prev == l * bp - l * cp * x) as E
      by (rewrite <- Hprev; ring).
    rewrite E, Ex. field. exact Hden.
  - apply IH; [exact Hp|]. fold S. ring.
Qed.

Lemma pivots_dominant rows cp :
  Forall dominant rows -> 0 <= cp -> cp <= 1 # 2 -> pivots_nonzero rows cp.
Proof.
  intros H. revert cp.
  induction H as [|[[[l d] u] b] rest (Hl & Hu & Hlu & Hd) _ IH];
    intros cp H0 H1; [done|].
  cbn [pivots_nonzero].
  assert (cp * l <= (1 # 2) * l) as Hcl by (by apply Qmult_le_compat_r).
  assert (0 < d - l * cp) as Hden by (rewrite Hd; lra).
  split; [lra|].
  apply IH.
  - apply Qle_shift_div_l; [done|lra].
  - apply Qle_shift_div_r; [done|]. rewrite Hd. lra.
Qed.

Lemma interior_rows_dominant dx slope :
  Forall (fun h => 0 < h) dx -> Forall dominant (interior_rows dx slope).
Proof.
  intros H. revert slope.
  induction H as [|h0 dx H0 Hdx IH]; intros slope.
  - destruct slope; apply Forall_nil_2.
  - destruct slope as [|m0 slope]; [apply Forall_nil_2|].
    destruct dx as [|h1 dx]; [apply Forall_nil_2|].
    destruct slope as [|m1 slope]; [apply Forall_nil_2|].
    change (Forall dominant
              ((h1, 2 * (h0 + h1), h0, 3 * (h1 * m0 + h0 * m1))
                 :: interior_rows (h1 :: dx) (m1 :: slope))).
    constructor; [|apply IH].
    inversion Hdx; subst. unfold dominant. repeat split; try lra.
Qed.

Lemma last_positive dx :
  dx <> [] -> Forall (fun h => 0 < h) dx -> 0 < List.last dx 0.
Proof.
  intros Hne H. induction H as [|h dx Hh Hdx IH]; [done|].
  destruct dx as [|h' dx]; [done|].
  change (0 < List.last (h' :: dx) 0). by apply IH.
Qed.

Lemma natural_system_dominant dx slope y :
  dx <> [] -> Forall (fun h => 0 < h) dx ->
  Forall dominant (natural_system dx slope y).
Proof.
  intros Hne H. unfold natural_system.
  pose proof (last_positive dx Hne H) as Hl.
  assert (0 < hd 0 dx) as Hh by (destruct H; [done|done]).
  constructor; [unfold dominant; repeat split; lra|].
  apply Forall_app. split; [by apply interior_rows_dominant|].
  constructor; [|constructor]. unfold dominant. repeat split; lra.
Qed.

Lemma np_diff_positive xs :
  strictly_increasing xs = true -> Forall (fun h => 0 < h) (np_diff xs).
Proof.
  induction xs as [|a xs IH]; intros Hs; [constructor|].
  destruct xs as [|b xs]; [constructor|].
  change (Forall (fun h => 0 < h) ((b - a) :: np_diff (b :: xs))).
  pose proof (strictly_increasing_nth (a :: b :: xs) 0 1 Hs) as Hab.
  apply strictly_increasing_cons in Hs as [Hs _].
  constructor; [|by apply IH].
  simpl in Hab. assert (a < b) by (apply Hab; lia). lra.
Qed.

Lemma solve_natural_solves dx slope y :
  dx <> [] -> Forall (fun h => 0 < h) dx ->
  solves (natural_system dx slope y) 0 (solve_banded (natural_system dx slope y)).
Proof.
  intros Hne H. unfold solve_banded. apply thomas_solves.
  - apply pivots_dominant; [by apply natural_system_dominant|lra|lra].
  - ring.
Qed.

Lemma solves_nth rows prev s i :
  solves rows prev s -> (i < length rows)%nat ->
  let '(l, d, u, b) := nth i rows (0, 0, 0, 0) in
  l * match i with O => prev | S j => nth j s 0 end
  + d * nth i s 0 + u * nth (S i) s 0 == b.
Proof.
  revert prev s i.
  induction rows as [|[[[l d] u] b] rest IH]; intros prev [|s0 s] i H Hi;
    simpl in Hi; try lia; try done.
  destruct H as [H0 H].
  destruct i as [|i].
  - cbn [nth]. by rewrite <- hd_nth.
  - specialize (IH s0 s i H ltac:(lia)).
    cbn [nth]. destruct (nth i rest (0, 0, 0, 0)) as [[[l' d'] u'] b'].
    destruct i as [|i]; exact IH.
Qed.

Lemma nth_interior_rows dx slope i :
  (S i < length dx)%nat -> (S i < length slope)%nat ->
  nth i (interior_rows dx slope) (0, 0, 0, 0)
  = (nth (S i) dx 0, 2 * (nth i dx 0 + nth (S i) dx 0), nth i dx 0,
     3 * (nth (S i) dx 0 * nth i slope 0 + nth i dx 0 * nth (S i) slope 0)).
Proof.
  revert slope i.
  induction dx as [|h0 dx IH]; intros [|m0 slope] i H1 H2;
    simpl in H1, H2; try lia.
  destruct dx as [|h1 dx]; simpl in H1; [lia|].
  destruct slope as [|m1 slope]; simpl in H2; [lia|].
  change (interior_rows (h0 :: h1 :: dx) (m0 :: m1 :: slope))
    with ((h1, 2 * (h0 + h1), h0, 3 * (h1 * m0 + h0 * m1))
            :: interior_rows (h1 :: dx) (m1 :: slope)).
  destruct i as [|i]; [done|].
  change (nth i (interior_rows (h1 :: dx) (m1 :: slope)) (0, 0, 0, 0)
          = (nth (S i) (h1 :: dx) 0,
             2 * (nth i (h1 :: dx) 0 + nth (S i) (h1 :: dx) 0),
             nth i (h1 :: dx) 0,
             3 * (nth (S i) (h1 :: dx) 0 * nth i (m1 :: slope) 0
                  + nth i (h1 :: dx) 0 * nth (S i) (m1 :: slope) 0))).
  apply IH; simpl; lia.
Qed.

(** The cubic piece of [hermite_coefficients] on an interval of length [h],
    with the slopes [s0], [s1] at its ends: it ends at the next value with
    the slope [s1]. *)
Lemma hermite_value h m s0 s1 y0 y1 :
  ~ h == 0 -> m == (y1 - y0) / h ->
  eval_cubic ((s0 + s1 - 2 * m) / h / h,
              (m - s0) / h - (s0 + s1 - 2 * m) / h, s0, y0) h == y1.
Proof.
  intros Hh Hm. unfold eval_cubic.
  transitivity (y0 + m * h); [field; exact Hh|]. rewrite Hm. field. exact Hh.
Qed.

Lemma hermite_slope h m s0 s1 y0 :
  ~ h == 0 ->
  cubic_slope ((s0 + s1 - 2 * m) / h / h,
               (m - s0) / h - (s0 + s1 - 2 * m) / h, s0, y0) h == s1.
Proof. intros Hh. unfold cubic_slope. field. exact Hh. Qed.

Lemma hermite_curvature_left h m s0 s1 y0 :
  ~ h == 0 ->
  cubic_curvature ((s0 + s1 - 2 * m) / h / h,
                   (m - s0) / h - (s0 + s1 - 2 * m) / h, s0, y0) 0
  == (6 * m - 4 * s0 - 2 * s1) / h.
Proof. intros Hh. unfold cubic_curvature. field. exact Hh. Qed.

Lemma hermite_curvature_right h m s0 s1 y0 :
  ~ h == 0 ->
  cubic_curvature ((s0 + s1 - 2 * m) / h / h,
                   (m - s0) / h - (s0 + s1 - 2 * m) / h, s0, y0) h
  == (2 * s0 + 4 * s1 - 6 * m) / h.
Proof. intros Hh. unfold cubic_curvature. field. exact Hh. Qed.

Lemma Qdiv_cross a b h h' :
  ~ h == 0 -> ~ h' == 0 -> a * h' == b * h -> a / h == b / h'.
Proof.
  intros Hh Hh' E.
  transitivity (a * h' / (h * h')); [field; by split|].
  rewrite E. field. by split.
Qed.

(** The slopes [solve_banded] finds, with the equations they satisfy. *)
Lemma natural_slopes xs ys :
  (2 <= length xs)%nat -> length xs = length ys ->
  strictly_increasing xs = true ->
  let n := length xs in
  let dx := np_diff xs in
  let slope := zip_with Qdiv (np_diff ys) dx in
  let s := solve_banded (natural_system dx slope ys) in
  let h i := nth i dx 0 in
  let m i := nth i slope 0 in
  let sk i := nth i s 0 in
  length dx = (n - 1)%nat /\ length slope = (n - 1)%nat /\ length s = n /\
  (forall i, (i < n - 1)%nat ->
     0 < h i /\ h i = nth (S i) xs 0 - nth i xs 0 /\
     m i = (nth (S i) ys 0 - nth i ys 0) / h i) /\
  2 * h 0%nat * sk 0%nat + h 0%nat * sk 1%nat == 3 * (m 0%nat * h 0%nat) /\
  (forall i, (S i < n - 1)%nat ->
     h (S i) * sk i + 2 * (h i + h (S i)) * sk (S i) + h i * sk (S (S i))
     == 3 * (h (S i) * m i + h i * m (S i))) /\
  h (n - 2)%nat * sk (n - 2)%nat + 2 * h (n - 2)%nat * sk (n - 1)%nat
  == 3 * (m (n - 2)%nat * h (n - 2)%nat).
Proof.
  intros H2 Hl Hs n dx slope s h m sk.
  assert (length dx = (n - 1)%nat) as Hdx by apply length_np_diff.
  assert (length slope = (n - 1)%nat) as Hsl.
  { unfold slope. rewrite length_zip_with, length_np_diff. fold dx. lia. }
  assert (length s = n) as Hlen.
  { unfold s. rewrite length_solve_natural; lia. }
  assert (Forall (fun h => 0 < h) dx) as Hpos by (by apply np_diff_positive).
  assert (dx <> []) as Hne by (intros E; rewrite E in Hdx; simpl in Hdx; lia).
  assert (forall i, (i < n - 1)%nat ->
            0 < h i /\ h i = nth (S i) xs 0 - nth i xs 0 /\
            m i = (nth (S i) ys 0 - nth i ys 0) / h i) as Hh.
  { intros i Hi. split; [|split].
    - apply (proj1 (Forall_nth _ 0 dx) Hpos). lia.
    - unfold h, dx. apply nth_np_diff. lia.
    - unfold m, slope.
      rewrite (nth_zip_with _ _ _ _ 0 0) by (rewrite ?length_np_diff; lia).
      by rewrite (nth_np_diff ys) by lia. }
  pose proof (solve_natural_solves dx slope ys Hne Hpos) as Hsol. fold s in Hsol.
  assert (length (interior_rows dx slope) = (n - 2)%nat) as Hint
    by (rewrite length_interior_rows; lia).
  assert (length (natural_system dx slope ys) = n) as Hrows.
  { unfold natural_system. cbn [length]. rewrite length_app, Hint. simpl. lia. }
  repeat (split; [done|]).
  split; [|split].
  - pose proof (solves_nth _ _ _ 0%nat Hsol ltac:(lia)) as E.
    unfold natural_system in E. cbn [nth] in E. rewrite hd_nth in E.
    destruct (Hh 0%nat ltac:(lia)) as (Hh0 & _ & Hm0).
    fold (h 0%nat) (sk 0%nat) (sk 1%nat) in E.
    assert (m 0%nat * h 0%nat == nth 1 ys 0 - nth 0 ys 0) as Em
      by (rewrite Hm0; field; lra).
    rewrite Em. rewrite <- E. ring.
  - intros i Hi.
    pose proof (solves_nth _ _ _ (S i) Hsol ltac:(lia)) as E.
    unfold natural_system in E. cbn [nth] in E.
    rewrite app_nth1 in E by lia.
    rewrite nth_interior_rows in E by lia.
    exact E.
  - pose proof (solves_nth _ _ _ (S (n - 2)) Hsol ltac:(lia)) as E.
    unfold natural_system in E. cbn [nth] in E.
    rewrite app_nth2 in E by lia.
    rewrite Hint, Nat.sub_diag in E. cbn [nth] in E.
    rewrite last_nth_Q, Hdx, <- Hl in E. fold n in E.
    destruct (Hh (n - 2)%nat ltac:(lia)) as (Hhl & _ & Hml).
    replace (n - 1 - 1)%nat with (n - 2)%nat in E by lia.
    replace (S (n - 2)) with (n - 1)%nat in E, Hml by lia.
    fold (h (n - 2)%nat) (sk (n - 2)%nat) (sk (n - 1)%nat) in E.
    assert (m (n - 2)%nat * h (n - 2)%nat
            == nth (n - 1) ys 0 - nth (n - 2) ys 0) as Em
      by (rewrite Hml; field; lra).
    rewrite Em. rewrite <- E. ring.
Qed.

(** X17. The spline CubicSpline returns for finite knots with increasing x
    has one cubic piece per interval; neighbouring pieces agree in value,
    slope and second derivative at the knot between them, and the second
    derivative is zero at the first and at the last knot (the natural
    boundary condition): the slopes solve_banded finds solve the tridiagonal
    system. *)
Theorem natural_spline_conditions xs ys :
  (2 <= length xs)%nat -> length xs = length ys ->
  strictly_increasing xs = true ->
  let sp := natural_spline xs ys in
  let n := length xs in
  let piece i := nth i (ppoly_c sp) (0, 0, 0, 0) in
  let h i := nth (S i) xs 0 - nth i xs 0 in
  CubicSpline (map Fin xs) (map Fin ys) = Returned sp /\
  length (ppoly_c sp) = (n - 1)%nat /\
  cubic_curvature (piece 0%nat) 0 == 0 /\
  cubic_curvature (piece (n - 2)%nat) (h (n - 2)%nat) == 0 /\
  forall i, (S i < n - 1)%nat ->
    eval_cubic (piece i) (h i) == eval_cubic (piece (S i)) 0 /\
    cubic_slope (piece i) (h i) == cubic_slope (piece (S i)) 0 /\
    cubic_curvature (piece i) (h i) == cubic_curvature (piece (S i)) 0.
Proof.
  intros H2 Hl Hs sp n piece h.
  destruct (natural_slopes xs ys H2 Hl Hs)
    as (Hdx & Hsl & Hlen & Hh & E0 & Ei & En).
  fold n in Hdx, Hsl, Hlen, Hh, E0, Ei, En.
  set (dx := np_diff xs) in *.
  set (slope := zip_with Qdiv (np_diff ys) dx) in *.
  set (s := solve_banded (natural_system dx slope ys)) in *.
  assert (forall i, (i < n - 1)%nat ->
            piece i
            = ((nth i s 0 + nth (S i) s 0 - 2 * nth i slope 0) / h i / h i,
               (nth i slope 0 - nth i s 0) / h i
               - (nth i s 0 + nth (S i) s 0 - 2 * nth i slope 0) / h i,
               nth i s 0, nth i ys 0)) as Hpiece.
  { intros i Hi. unfold piece, sp. cbn [natural_spline ppoly_c].
    fold dx slope s. rewrite nth_hermite_coefficients by lia. cbv zeta.
    destruct (Hh i Hi) as (_ & -> & _). done. }
  assert (forall i, (i < n - 1)%nat ->
            ~ h i == 0 /\
            nth i slope 0 == (nth (S i) ys 0 - nth i ys 0) / h i) as Hm.
  { intros i Hi. destruct (Hh i Hi) as (Hpos & E & Em).
    rewrite E in Hpos, Em. fold (h i) in Hpos, Em.
    split; [lra|]. by rewrite Em. }
  split; [by apply CubicSpline_returns|].
  split.
  { unfold sp. cbn [natural_spline ppoly_c]. fold dx slope s.
    rewrite length_hermite_coefficients; lia. }
  split; [|split].
  - rewrite Hpiece by lia. destruct (Hm 0%nat ltac:(lia)) as [Hh0 _].
    rewrite hermite_curvature_left by done.
    destruct (Hh 0%nat ltac:(lia)) as (_ & E & _).
    rewrite E in E0. fold (h 0%nat) in E0.
    assert ((6 * nth 0 slope 0 - 4 * nth 0 s 0 - 2 * nth 1 s 0) * h 0%nat == 0) as Z
      by lra.
    apply Qmult_integral in Z as [Z|Z]; [|done].
    rewrite Z. field. exact Hh0.
  - rewrite Hpiece by lia. destruct (Hm (n - 2)%nat ltac:(lia)) as [Hhl _].
    rewrite hermite_curvature_right by done.
    destruct (Hh (n - 2)%nat ltac:(lia)) as (_ & E & _).
    rewrite E in En. fold (h (n - 2)%nat) in En.
    replace (S (n - 2)) with (n - 1)%nat by lia.
    assert ((2 * nth (n - 2) s 0 + 4 * nth (n - 1) s 0 - 6 * nth (n - 2) slope 0)
            * h (n - 2)%nat == 0) as Z by lra.
    apply Qmult_integral in Z as [Z|Z]; [|done].
    rewrite Z. field. exact Hhl.
  - intros i Hi.
    rewrite (Hpiece i) by lia. rewrite (Hpiece (S i)) by lia.
    destruct (Hm i ltac:(lia)) as [Hhi Hmi].
    destruct (Hm (S i) ltac:(lia)) as [Hhi' _].
    split; [|split].
    + rewrite hermite_value by done. unfold eval_cubic. ring.
    + rewrite hermite_slope by done. unfold cubic_slope. ring.
    + rewrite hermite_curvature_right, hermite_curvature_left by done.
      apply Qdiv_cross; [done|done|].
      specialize (Ei i Hi).
      destruct (Hh i ltac:(lia)) as (_ & E & _).
      destruct (Hh (S i) ltac:(lia)) as (_ & E' & _).
      rewrite E, E' in Ei. fold (h i) (h (S i)) in Ei.
      lra.
Qed.

Lemma natural_spline_conditions_witness :
  let sp := natural_spline [120; 130; 140] [14; 10; 4] in
  let piece i := nth i (ppoly_c sp) (0, 0, 0, 0) in
  CubicSpline (map Fin [120; 130; 140]) (map Fin [14; 10; 4]) = Returned sp /\
  length (ppoly_c sp) = 2%nat /\
  cubic_curvature (piece 0%nat) 0 == 0 /\
  cubic_curvature (piece 1%nat) (140 - 130) == 0 /\
  forall i, (S i < 2)%nat ->
    eval_cubic (piece i) (nth (S i) [120; 130; 140] 0 - nth i [120; 130; 140] 0)
    == eval_cubic (piece (S i)) 0 /\
    cubic_slope (piece i) (nth (S i) [120; 130; 140] 0 - nth i [120; 130; 140] 0)
    == cubic_slope (piece (S i)) 0 /\
    cubic_curvature (piece i)
      (nth (S i) [120; 130; 140] 0 - nth i [120; 130; 140] 0)
    == cubic_curvature (piece (S i)) 0.
Proof.
  apply (natural_spline_conditions [120; 130; 140] [14; 10; 4]).
  - simpl. lia.
  - reflexivity.
  - reflexivity.
Defined.

(** ** Mids on a straight line *)

Lemma thomas_constant front ll dl bl cp bp m :
  Forall (constant_row m) front -> bl == (ll + dl) * m ->
  pivots_nonzero (front ++ [(ll, dl, 0, bl)]) cp -> bp == m * (1 + cp) ->
  Forall (Qeq m) (substitute (eliminate (front ++ [(ll, dl, 0, bl)]) cp bp)).
Proof.
  intros Hfront Hlast. revert cp bp.
  induction Hfront as [|[[[l d] u] b] front Hrow _ IH]; intros cp bp Hp Hbp.
  - cbn [app eliminate substitute hd pivots_nonzero] in *. cbv zeta.
    destruct Hp as [Hden _].
    constructor; [|constructor].
    rewrite Hlast, Hbp. field. exact Hden.
  - unfold constant_row in Hrow.
    change (pivots_nonzero ((l, d, u, b) :: front ++ [(ll, dl, 0, bl)]) cp) in Hp.
    change (Forall (Qeq m)
              (substitute
                 (eliminate ((l, d, u, b) :: front ++ [(ll, dl, 0, bl)]) cp bp))).
    cbn [eliminate substitute pivots_nonzero] in *. cbv zeta.
    destruct Hp as [Hden Hp].
    assert ((b - l * bp) / (d - l * cp) == m * (1 + u / (d - l * cp))) as Hb'
      by (rewrite Hrow, Hbp; field; exact Hden).
    specialize (IH _ _ Hp Hb').
    constructor; [|exact IH].
    destruct (substitute _) as [|s0 S] eqn:ES.
    + apply (f_equal length) in ES.
      rewrite length_substitute, length_eliminate, length_app in ES.
      simpl in ES. lia.
    + cbn [hd]. inversion IH as [|? ? Hs0 _]; subst.
      rewrite Hb', <- Hs0. ring.
Qed.

Lemma interior_rows_constant dx slope m :
  Forall (Qeq m) slope -> Forall (constant_row m) (interior_rows dx slope).
Proof.
  intros H. revert dx.
  induction H as [|m0 slope H0 Hsl IH]; intros dx.
  - destruct dx; apply Forall_nil_2.
  - destruct dx as [|h0 dx]; [apply Forall_nil_2|].
    destruct dx as [|h1 dx]; [apply Forall_nil_2|].
    destruct slope as [|m1 slope]; [apply Forall_nil_2|].
    change (Forall (constant_row m)
              ((h1, 2 * (h0 + h1), h0, 3 * (h1 * m0 + h0 * m1))
                 :: interior_rows (h1 :: dx) (m1 :: slope))).
    constructor; [|apply IH].
    inversion Hsl as [|? ? H1 _]; subst. unfold constant_row.
    rewrite <- H0, <- H1. ring.
Qed.

(** When every slope between neighbouring knots is [m], so is every slope
    [solve_banded] finds at the knots. *)
Lemma solve_natural_constant dx slope y m :
  dx <> [] -> Forall (fun h => 0 < h) dx -> Forall (Qeq m) slope ->
  nth 1 y 0 - nth 0 y 0 == m * hd 0 dx ->
  nth (length y - 1) y 0 - nth (length y - 2) y 0 == m * List.last dx 0 ->
  Forall (Qeq m) (solve_banded (natural_system dx slope y)).
Proof.
  intros Hne Hpos Hsl Hfirst Hlast.
  pose proof (pivots_dominant _ 0 (natural_system_dominant dx slope y Hne Hpos)
                ltac:(lra) ltac:(lra)) as Hp.
  assert (0 < hd 0 dx) as Hh by (destruct Hpos; [done|done]).
  unfold solve_banded, natural_system in *.
  cbn [eliminate substitute pivots_nonzero] in *. cbv zeta.
  destruct Hp as [Hden Hp].
  assert (Forall (Qeq m)
            (substitute
               (eliminate
                  (interior_rows dx slope
                   ++ [(List.last dx 0, 2 * List.last dx 0, 0,
                        3 * (nth (length y - 1) y 0 - nth (length y - 2) y 0))])
                  (hd 0 dx / (2 * hd 0 dx - 0 * 0))
                  ((3 * (nth 1 y 0 - nth 0 y 0) - 0 * 0) / (2 * hd 0 dx - 0 * 0)))))
    as Hrest.
  { apply thomas_constant.
    - by apply interior_rows_constant.
    - rewrite Hlast. ring.
    - exact Hp.
    - rewrite Hfirst. field. lra. }
  constructor; [|exact Hrest].
  destruct (substitute _) as [|s0 S] eqn:ES.
  - apply (f_equal length) in ES.
    rewrite length_substitute, length_eliminate, length_app in ES.
    simpl in ES. lia.
  - cbn [hd]. inversion Hrest as [|? ? Hs0 _]; subst.
    rewrite Hfirst, <- Hs0. field. lra.
Qed.

Lemma find_interval_bound xs q :
  (2 <= length xs)%nat -> (find_interval xs q <= length xs - 2)%nat.
Proof.
  induction xs as [|x0 xs IH]; intros Hn; simpl in Hn; [lia|].
  destruct xs as [|x1 xs]; simpl in Hn; [lia|].
  destruct xs as [|x2 xs]; [simpl; lia|].
  rewrite find_interval_step. destruct (Qlt_bool q x1); [lia|].
  specialize (IH ltac:(simpl; lia)). simpl length in *. lia.
Qed.

(** Through knots on the line [a + b x], every slope between neighbouring
    knots is [b], and so is every slope [solve_banded] finds at the knots. *)
Lemma natural_line_slopes xs ys a b :
  (2 <= length xs)%nat -> length xs = length ys ->
  strictly_increasing xs = true ->
  (forall i, (i < length xs)%nat -> nth i ys 0 == a + b * nth i xs 0) ->
  let dx := np_diff xs in
  let slope := zip_with Qdiv (np_diff ys) dx in
  let s := solve_banded (natural_system dx slope ys) in
  (forall i, (i < length xs - 1)%nat -> nth i slope 0 == b) /\
  (forall i, (i < length xs)%nat -> nth i s 0 == b).
Proof.
  intros H2 Hl Hs Hline dx slope s.
  destruct (natural_slopes xs ys H2 Hl Hs) as (Hdx & Hsl & Hlen & Hh & _).
  fold dx slope s in Hdx, Hsl, Hlen, Hh.
  assert (forall i, (i < length xs - 1)%nat -> nth i slope 0 == b) as Hm.
  { intros i Hi. destruct (Hh i Hi) as (Hpos & E & ->).
    rewrite (Hline i), (Hline (S i)) by lia. rewrite E in *. field. lra. }
  split; [exact Hm|].
  assert (Forall (fun h => 0 < h) dx) as Hpos by (by apply np_diff_positive).
  assert (dx <> []) as Hne by (intros E; rewrite E in Hdx; simpl in Hdx; lia).
  assert (Forall (Qeq b) s) as Hconst.
  { apply solve_natural_constant; [done|done| | |].
    - apply (Forall_nth _ 0). intros i Hi. symmetry. apply Hm. lia.
    - destruct (Hh 0%nat ltac:(lia)) as (_ & E & _).
      rewrite hd_nth, E, (Hline 0%nat), (Hline 1%nat) by lia. ring.
    - destruct (Hh (length xs - 2)%nat ltac:(lia)) as (_ & E & _).
      rewrite last_nth_Q, Hdx.
      replace (length xs - 1 - 1)%nat with (length xs - 2)%nat by lia.
      rewrite E, <- Hl.
      replace (S (length xs - 2)) with (length xs - 1)%nat by lia.
      rewrite (Hline (length xs - 1)%nat), (Hline (length xs - 2)%nat) by lia.
      ring. }
  intros i Hi. symmetry. apply (proj1 (Forall_nth _ 0 s) Hconst). lia.
Qed.

(** X18. In exact arithmetic, the spline CubicSpline constructs through
    knots on a straight line a + b * x is that line: every slope
    solve_banded finds is b, every piece has the coefficients (0, 0, b,
    y_i), and the value at any point q is a + b * q. (In binary64 the values
    the program writes are those up to rounding.) *)
Theorem natural_spline_of_a_line xs ys a b :
  (2 <= length xs)%nat -> length xs = length ys ->
  strictly_increasing xs = true ->
  (forall i, (i < length xs)%nat -> nth i ys 0 == a + b * nth i xs 0) ->
  let sp := natural_spline xs ys in
  CubicSpline (map Fin xs) (map Fin ys) = Returned sp /\
  (forall j, (j < length xs - 1)%nat ->
     exists c0 c1 c2,
       nth j (ppoly_c sp) (0, 0, 0, 0) = (c0, c1, c2, nth j ys 0) /\
       c0 == 0 /\ c1 == 0 /\ c2 == b) /\
  forall q, ppoly_value sp q == a + b * q.
Proof.
  intros H2 Hl Hs Hline sp.
  destruct (natural_slopes xs ys H2 Hl Hs) as (Hdx & Hsl & Hlen & Hh & _).
  destruct (natural_line_slopes xs ys a b H2 Hl Hs Hline) as [Hm Hsk].
  unfold sp. cbn [natural_spline ppoly_x ppoly_c].
  set (dx := np_diff xs) in *.
  set (slope := zip_with Qdiv (np_diff ys) dx) in *.
  set (s := solve_banded (natural_system dx slope ys)) in *.
  split; [by apply CubicSpline_returns|].
  assert (forall j, (j < length xs - 1)%nat ->
            exists c0 c1 c2,
              nth j (hermite_coefficients dx slope s ys) (0, 0, 0, 0)
              = (c0, c1, c2, nth j ys 0) /\
              c0 == 0 /\ c1 == 0 /\ c2 == b) as Hpieces.
  { intros j Hj. rewrite nth_hermite_coefficients by lia. cbv zeta.
    destruct (Hh j Hj) as (Hhj & _ & _).
    eexists _, _, _. split; [reflexivity|].
    rewrite (Hsk j), (Hsk (S j)), (Hm j) by lia.
    split; [field; lra|]. split; [field; lra|reflexivity]. }
  split; [exact Hpieces|].
  intros q. unfold ppoly_value. cbn [natural_spline ppoly_x ppoly_c].
  fold dx slope s.
  pose proof (find_interval_bound xs q H2) as Hi.
  set (i := find_interval xs q) in *.
  destruct (Hpieces i ltac:(lia)) as (c0 & c1 & c2 & -> & E0 & E1 & E2).
  unfold eval_cubic. rewrite E0, E1, E2, (Hline i) by lia. ring.
Qed.

Lemma natural_spline_of_a_line_witness :
  let sp := natural_spline [120; 130; 140] [14; 9; 4] in
  CubicSpline (map Fin [120; 130; 140]) (map Fin [14; 9; 4]) = Returned sp /\
  (forall j, (j < 2)%nat ->
     exists c0 c1 c2,
       nth j (ppoly_c sp) (0, 0, 0, 0) = (c0, c1, c2, nth j [14; 9; 4] 0) /\
       c0 == 0 /\ c1 == 0 /\ c2 == - (1 # 2)) /\
  forall q, ppoly_value sp q == 74 + - (1 # 2) * q.
Proof.
  apply (natural_spline_of_a_line [120; 130; 140] [14; 9; 4] 74 (- (1 # 2))).
  - simpl. lia.
  - reflexivity.
  - reflexivity.
  - intros i Hi. destruct i as [|[|[|i]]]; try reflexivity. simpl in Hi. lia.
Defined.
